(** * NBA team-efficiency metrics: the metric pipeline of [src/metrics.py]
      and the leaderboard selection of [src/charts.py]

    The Python code works on pandas tables.  Two views of a table are used
    here, each where the code uses it:

    - [DataFrame]: a table with named columns and dynamically typed cells,
      for the row-level functions (lines 11-59 and 205-213 of metrics.py)
      and for the leaderboard, which look columns up by name;
    - typed rows ([TeamGame.t], [Paired.t], [Ratings.t]) for window
      filtering, opponent pairing and aggregation (lines 65-199), which
      read a fixed set of columns.

    Numbers are binary64 floats, the kernel's [float], with the IEEE
    operations pandas and numpy use. *)

From Stdlib Require Import ZArith List String Ascii Floats Lia Bool Permutation Sorted.
From stdpp Require Import base gmap strings list sorting.

Set Warnings "-inexact-float".
Local Open Scope Z_scope.

(** ** Exceptions and results *)

(** The text of the [ValueError]s the code raises. *)
Inductive message :=
  | MissingRequiredColumns (missing : list string)
      (* f"Missing required columns: {missing}" *)
  | InvalidWindowFormat (window : string)
      (* f"Invalid window format: {window}" *)
  | UnsupportedWindow (window : string)
      (* f"Unsupported window: {window}" *)
  | InvalidLiteralForInt (text : string)
      (* Python's own message when int() is not caught *)
  | LengthMismatch.
      (* pandas: length of values does not match length of index *)

Inductive exception :=
  | ValueError (msg : message)
  | KeyError (column : string)     (* df[c] for a column that is absent *)
  | IndexError                     (* a list index out of range *)
  | TypeError                      (* arithmetic or ordering on a non-number *)
  | DateParseError.                (* pd.to_datetime could not convert *)

Inductive result (A : Type) :=
  | Ok (a : A)
  | Raise (e : exception).
Arguments Ok {A} a.
Arguments Raise {A} e.

#[global] Instance result_ret : MRet result := @Ok.
#[global] Instance result_bind : MBind result := λ A B f m,
  match m with Ok a => f a | Raise e => Raise e end.
#[global] Instance result_fmap : FMap result := λ A B f m,
  match m with Ok a => Ok (f a) | Raise e => Raise e end.

(** The two error kinds of the specification, as the code raises them. *)
Definition MissingFieldError (e : exception) : Prop :=
  ∃ missing, e = ValueError (MissingRequiredColumns missing).
Definition InvalidWindowError (e : exception) : Prop :=
  ∃ w, e = ValueError (InvalidWindowFormat w) ∨ e = ValueError (UnsupportedWindow w).

(** ** float64 helpers *)

(** [astype(float64)] of an integer: rounded to nearest even. *)
Definition float_of_Z (z : Z) : float :=
  SF2Prim (binary_normalize prec emax z 0 false).

(** [s.replace(0, np.nan)] on one value: 0.0 and -0.0 both compare equal
    to 0. *)
Definition replace_zero (x : float) : float :=
  if is_zero x then nan else x.

(** [s.replace([np.inf, -np.inf], np.nan)] on one value. *)
Definition replace_inf (x : float) : float :=
  if is_infinity x then nan else x.

(** ** Window strings (Python [str] methods, ASCII text) *)

(** [s.startswith(prefix)]. *)
Fixpoint startswith (s prefix : string) {struct prefix} : bool :=
  match prefix with
  | EmptyString => true
  | String p prefix' =>
      match s with
      | String c s' => Ascii.eqb c p && startswith s' prefix'
      | EmptyString => false
      end
  end.

(** [s.split(sep)] for a one-character separator: never empty. *)
Fixpoint split (sep : ascii) (s : string) : list string :=
  match s with
  | EmptyString => [EmptyString]
  | String c s' =>
      if Ascii.eqb c sep then EmptyString :: split sep s'
      else match split sep s' with
           | [] => [String c EmptyString]
           | w :: ws => String c w :: ws
           end
  end.

(** Whitespace that [int()] skips around the digits of an ASCII text:
    \t \n \v \f \r and the space. *)
Definition is_space (c : ascii) : bool :=
  let n := Z.of_nat (nat_of_ascii c) in
  ((9 <=? n) && (n <=? 13)) || (n =? 32).

Definition digit_of (c : ascii) : option Z :=
  let n := Z.of_nat (nat_of_ascii c) in
  if (48 <=? n) && (n <=? 57) then Some (n - 48) else None.

Fixpoint lstrip (s : string) : string :=
  match s with
  | String c s' => if is_space c then lstrip s' else s
  | EmptyString => s
  end.

Fixpoint all_space (s : string) : bool :=
  match s with
  | EmptyString => true
  | String c s' => is_space c && all_space s'
  end.

(** Digits, then nothing but trailing whitespace. *)
Fixpoint digits (acc : Z) (s : string) : option Z :=
  match s with
  | EmptyString => Some acc
  | String c s' =>
      match digit_of c with
      | Some d => digits (10 * acc + d) s'
      | None => if all_space s then Some acc else None
      end
  end.

Definition unsigned_literal (s : string) : option Z :=
  match s with
  | String c _ => match digit_of c with Some _ => digits 0 s | None => None end
  | EmptyString => None
  end.

(** [int(s)] in base 10; [None] when Python raises ValueError.  The digit
    separator [_] is left out: every text parsed here comes out of
    [split "_"]. *)
Definition py_int (s : string) : option Z :=
  match lstrip s with
  | String "-" s' => Z.opp <$> unsigned_literal s'
  | String "+" s' => unsigned_literal s'
  | s' => unsigned_literal s'
  end.

(** [window.split("_")[1]] followed by [int(...)]; the first [None] is the
    IndexError, the second the ValueError. *)
Definition window_count (window : string) : option Z :=
  (split "_" window !! 1%nat) ≫= py_int.

(** ** Sorting and grouping of typed rows *)

(** A [datetime64] value: nanoseconds since the epoch, [None] for NaT. *)
Definition Timestamp := option Z.

(** The two columns window filtering reads. *)
Class TeamGames (R : Type) := {
  team_id : R → Z;
  game_date : R → Timestamp;
}.

(** Stable insertion sort: [x] goes before the first element it is not
    greater than, so rows with equal keys keep their input order. *)
Fixpoint insert_sorted {A} (leb : A → A → bool) (x : A) (l : list A) : list A :=
  match l with
  | [] => [x]
  | y :: l' => if leb x y then x :: l else y :: insert_sorted leb x l'
  end.

Definition stable_sort {A} (leb : A → A → bool) (l : list A) : list A :=
  foldr (insert_sorted leb) [] l.

(** Descending dates with [na_position="last"]: NaT sorts after every date. *)
Definition date_desc_leb (a b : Timestamp) : bool :=
  match a, b with
  | _, None => true
  | None, Some _ => false
  | Some x, Some y => y <=? x
  end.

Section Window.
Context {R : Type} {TG : TeamGames R}.

Definition team_date_leb (a b : R) : bool :=
  (team_id a <? team_id b)
  || ((team_id a =? team_id b) && date_desc_leb (game_date a) (game_date b)).

(** The order of one team's rows: newest first, NaT last. *)
Definition newer_leb (a b : R) : bool :=
  date_desc_leb (game_date a) (game_date b).

(** [df.sort_values(["TEAM_ID", "GAME_DATE"], ascending=[True, False])]:
    pandas sorts on several keys with a stable lexicographic sort. *)
Definition sort_values_team_date (df : list R) : list R :=
  stable_sort team_date_leb df.

(** The rows of one team, in table order. *)
Definition team_rows (t : Z) (df : list R) : list R :=
  filter (λ r, team_id r = t) df.

(** One pass over the table; [seen t] counts the rows of team [t] met so
    far (pandas' cumcount), and a row is kept while that count is below
    the limit of its team. *)
Fixpoint head_rows (limit seen : Z → Z) (df : list R) : list R :=
  match df with
  | [] => []
  | r :: df' =>
      let t := team_id r in
      let rest :=
        head_rows limit (λ k, if decide (k = t) then seen k + 1 else seen k) df' in
      if seen t <? limit t then r :: rest else rest
  end.

(** [df.groupby("TEAM_ID", group_keys=False).head(n)]: the first [n] rows
    of every group, in table order; a negative [n] keeps all but the last
    [-n] rows of every group. *)
Definition groupby_head (n : Z) (df : list R) : list R :=
  head_rows
    (λ t, if 0 <=? n then n else Z.of_nat (length (team_rows t df)) + n)
    (λ _, 0) df.

(** metrics.py, lines 65-84. *)
Definition apply_time_window_team_games (df : list R) (window : string)
  : result (list R) :=
  let df := sort_values_team_date df in
  if decide (window = "SEASON") then Ok df
  else if startswith window "LAST_" then
    match window_count window with
    | Some n => Ok (groupby_head n df)
    | None => Raise (ValueError (InvalidWindowFormat window))
    end
  else Raise (ValueError (UnsupportedWindow window)).
End Window.

(** ** Typed tables *)

(** A prepared team-game row, through the six columns that opponent
    pairing selects (metrics.py, lines 141-145). *)
Module TeamGame.
Record t := mk {
  GAME_ID : Z;
  GAME_DATE : Timestamp;
  TEAM_ID : Z;
  TEAM_ABBREVIATION : string;
  PTS : float;
  POSS : float;
}.
End TeamGame.

#[global] Instance TeamGame_rows : TeamGames TeamGame.t :=
  {| team_id := TeamGame.TEAM_ID; game_date := TeamGame.GAME_DATE |}.

(** A row of the paired table: the columns of [base] and of [opp] after
    the merge on GAME_ID and GAME_DATE. *)
Module Paired.
Record t := mk {
  GAME_ID : Z;
  GAME_DATE : Timestamp;
  TEAM_ID : Z;
  TEAM_ABBREVIATION : string;
  PTS_FOR : float;
  POSS_FOR : float;
  OPP_TEAM_ID : Z;
  OPP_TEAM_ABBREVIATION : string;
  PTS_AGAINST : float;
  POSS_AGAINST : float;
}.
End Paired.

#[global] Instance Paired_rows : TeamGames Paired.t :=
  {| team_id := Paired.TEAM_ID; game_date := Paired.GAME_DATE |}.

(** A row of the table [aggregate_team_with_defense] returns. *)
Module Ratings.
Record t := mk {
  TEAM_ID : Z;
  TEAM_ABBREVIATION : string;
  GAMES : Z;
  PTS_FOR : float;
  PTS_AGAINST : float;
  POSS_FOR : float;
  POSS_AGAINST : float;
  ORtg : float;
  DRtg : float;
  NET_RTG : float;
  PACE : float;
}.
End Ratings.

(** ** Opponent pairing (metrics.py, lines 131-168) *)

(** The row [merge] builds from a row [l] of [base] and a matching row [r]
    of [opp]: the key columns once, then the other columns of each side. *)
Definition merged_row (l r : TeamGame.t) : Paired.t :=
  {| Paired.GAME_ID := TeamGame.GAME_ID l;
     Paired.GAME_DATE := TeamGame.GAME_DATE l;
     Paired.TEAM_ID := TeamGame.TEAM_ID l;
     Paired.TEAM_ABBREVIATION := TeamGame.TEAM_ABBREVIATION l;
     Paired.PTS_FOR := TeamGame.PTS l;
     Paired.POSS_FOR := TeamGame.POSS l;
     Paired.OPP_TEAM_ID := TeamGame.TEAM_ID r;
     Paired.OPP_TEAM_ABBREVIATION := TeamGame.TEAM_ABBREVIATION r;
     Paired.PTS_AGAINST := TeamGame.PTS r;
     Paired.POSS_AGAINST := TeamGame.POSS r |}.

(** Equality of the merge keys; a NaT date matches a NaT date, as pandas
    matches null keys with each other. *)
Definition same_game (l r : TeamGame.t) : Prop :=
  TeamGame.GAME_ID l = TeamGame.GAME_ID r
  ∧ TeamGame.GAME_DATE l = TeamGame.GAME_DATE r.

#[global] Instance same_game_dec l r : Decision (same_game l r).
Proof. unfold same_game. apply _. Defined.

(** [base.merge(opp, on=["GAME_ID", "GAME_DATE"], how="inner")]: every row
    of the left table with every row of the right table that has the same
    keys, in the order of the left table. *)
Definition merge_on_game (base opp : list TeamGame.t) : list Paired.t :=
  l ← base; merged_row l <$> filter (same_game l) opp.

Definition pair_team_opponent (df_team_games : list TeamGame.t) : list Paired.t :=
  let base := df_team_games in
  let opp := base in
  let paired := merge_on_game base opp in
  filter (λ p, Paired.TEAM_ID p ≠ Paired.OPP_TEAM_ID p) paired.

(** ** Aggregation with defense (metrics.py, lines 171-199) *)

(** One step of pandas' grouped sum: NaN values are skipped and the sum is
    compensated (Kahan), the compensation being reset when it is NaN. *)
Definition kahan_step (st : float * float) (val : float) : float * float :=
  let '(sumx, comp) := st in
  if is_nan val then st
  else
    let y := (val - comp)%float in
    let t := (sumx + y)%float in
    let c := (t - sumx - y)%float in
    (t, if is_nan c then 0%float else c).

(** The ["sum"] aggregation of one group of a float64 column. *)
Definition group_sum (vals : list float) : float :=
  (foldl kahan_step (0%float, 0%float) vals).1.

Definition group_key (p : Paired.t) : Z * string :=
  (Paired.TEAM_ID p, Paired.TEAM_ABBREVIATION p).

Definition group_key_leb (a b : Z * string) : bool :=
  (a.1 <? b.1) || ((a.1 =? b.1) && String.leb a.2 b.2).

(** [groupby(["TEAM_ID", "TEAM_ABBREVIATION"])]: the distinct keys in
    sorted order, each with its rows in table order. *)
Definition groupby_team (df : list Paired.t)
  : list ((Z * string) * list Paired.t) :=
  (λ k, (k, filter (λ p, group_key p = k) df))
    <$> stable_sort group_key_leb (remove_dups (group_key <$> df)).

(** [GAMES.replace(0, np.nan)] followed by the conversion the division
    makes: GAMES is an integer column. *)
Definition replace_zero_count (games : Z) : float :=
  if games =? 0 then nan else float_of_Z games.

(** The named aggregations of one group and the four derived columns. *)
Definition ratings_row (g : (Z * string) * list Paired.t) : Ratings.t :=
  let games := Z.of_nat (length g.2) in
  let pts_for := group_sum (Paired.PTS_FOR <$> g.2) in
  let pts_against := group_sum (Paired.PTS_AGAINST <$> g.2) in
  let poss_for := group_sum (Paired.POSS_FOR <$> g.2) in
  let poss_against := group_sum (Paired.POSS_AGAINST <$> g.2) in
  let ortg := (100 * pts_for / replace_zero poss_for)%float in
  let drtg := (100 * pts_against / replace_zero poss_against)%float in
  {| Ratings.TEAM_ID := g.1.1;
     Ratings.TEAM_ABBREVIATION := g.1.2;
     Ratings.GAMES := games;
     Ratings.PTS_FOR := pts_for;
     Ratings.PTS_AGAINST := pts_against;
     Ratings.POSS_FOR := poss_for;
     Ratings.POSS_AGAINST := poss_against;
     Ratings.ORtg := ortg;
     Ratings.DRtg := drtg;
     Ratings.NET_RTG := (ortg - drtg)%float;
     Ratings.PACE := (poss_for / replace_zero_count games)%float |}.

(** Lines 175-183: the paired rows, sorted, cut to the window.  Here
    [int(...)] is not guarded by a [try]. *)
Definition windowed_pairs (df_team_games : list TeamGame.t) (window : string)
  : result (list Paired.t) :=
  let paired := pair_team_opponent df_team_games in
  let paired := sort_values_team_date paired in
  if decide (window ≠ "SEASON") then
    if startswith window "LAST_" then
      match split "_" window !! 1%nat with
      | Some text =>
          match py_int text with
          | Some n => Ok (groupby_head n paired)
          | None => Raise (ValueError (InvalidLiteralForInt text))
          end
      | None => Raise IndexError
      end
    else Raise (ValueError (UnsupportedWindow window))
  else Ok paired.

Definition aggregate_team_with_defense (df_team_games : list TeamGame.t)
  (window : string) : result (list Ratings.t) :=
  paired ← windowed_pairs df_team_games window;
  Ok (ratings_row <$> groupby_team paired).

(** ** Tables with named columns *)

Inductive Cell :=
  | CInt (z : Z)             (* int64 *)
  | CFloat (x : float)       (* float64 *)
  | CStr (s : string)        (* object: text *)
  | CDate (t : Timestamp).   (* datetime64[ns] *)

Abbreviation Row := (gmap string Cell).

(** The column labels in order, and the rows; every row of a table built
    by pandas has a cell for every column. *)
Record DataFrame := { columns : list string; rows : list Row }.

(** The float64 value arithmetic sees in a cell. *)
Definition as_float (c : Cell) : result float :=
  match c with
  | CInt z => Ok (float_of_Z z)
  | CFloat x => Ok x
  | _ => Raise TypeError
  end.

Definition cell (r : Row) (c : string) : result Cell :=
  match r !! c with
  | Some v => Ok v
  | None => Raise (KeyError c)
  end.

Definition number (r : Row) (c : string) : result float :=
  cell r c ≫= as_float.

Fixpoint map_rows {A B} (f : A → result B) (l : list A) : result (list B) :=
  match l with
  | [] => Ok []
  | x :: l' => y ← f x; ys ← map_rows f l'; Ok (y :: ys)
  end.

(** The labels after [df[c] = ...]: a new column goes last. *)
Definition with_column (c : string) (cols : list string) : list string :=
  if decide (c ∈ cols) then cols else cols ++ [c].

(** [df[c]]. *)
Definition column (c : string) (df : DataFrame) : result (list Cell) :=
  if decide (c ∈ columns df) then map_rows (λ r, cell r c) (rows df)
  else Raise (KeyError c).

(** [df[c] = vals] for a sequence of values. *)
Definition set_column (c : string) (vals : list Cell) (df : DataFrame)
  : result DataFrame :=
  if decide (length vals = length (rows df)) then
    Ok {| columns := with_column c (columns df);
          rows := zip_with (λ r v, <[c := v]> r) (rows df) vals |}
  else Raise (ValueError LengthMismatch).

(** [df[target] = expr], where [expr] is an elementwise expression over
    the columns [uses]: the columns are looked up first, then every row
    gets its value.  Column arithmetic in pandas is elementwise on rows
    of the same table, so it is written once per row here.  When several
    exceptions are possible, which one comes first is not modelled. *)
Definition assign (target : string) (uses : list string)
  (expr : Row → result Cell) (df : DataFrame) : result DataFrame :=
  match list_find (λ c, c ∉ columns df) uses with
  | Some (_, c) => Raise (KeyError c)
  | None =>
      rows' ← map_rows (λ r, v ← expr r; Ok (<[target := v]> r)) (rows df);
      Ok {| columns := with_column target (columns df); rows := rows' |}
  end.

(** ** Row-level derived fields (metrics.py, lines 11-59, 205-213) *)

Definition required : list string :=
  [ "GAME_ID"; "GAME_DATE";
    "TEAM_ID"; "TEAM_ABBREVIATION";
    "PTS"; "FGA"; "FGM"; "FG3A"; "FG3M";
    "FTA"; "FTM";
    "OREB"; "DREB";
    "AST"; "TOV";
    "MIN" ]%string.

Section RowLevel.
(** [pd.to_datetime] on a column, a function of pandas: [None] when it
    raises. *)
Variable to_datetime : list Cell → option (list Timestamp).

Definition normalize_team_game_df (df : DataFrame) : result DataFrame :=
  let missing := filter (λ c, c ∉ columns df) required in
  if decide (missing ≠ []) then
    Raise (ValueError (MissingRequiredColumns missing))
  else
    dates ← column "GAME_DATE" df;
    match to_datetime dates with
    | Some ts => set_column "GAME_DATE" (CDate <$> ts) df
    | None => Raise DateParseError
    end.

Definition possessions (fga fta oreb tov : float) : float :=
  (fga + 0.44 * fta - oreb + tov)%float.

Definition add_possessions (df : DataFrame) : result DataFrame :=
  df ← assign "POSS" ["FGA"; "FTA"; "OREB"; "TOV"]%string (λ r,
         fga ← number r "FGA"; fta ← number r "FTA";
         oreb ← number r "OREB"; tov ← number r "TOV";
         Ok (CFloat (possessions fga fta oreb tov))) df;
  assign "POSS" ["POSS"]%string (λ r,
    poss ← number r "POSS"; Ok (CFloat (replace_inf poss))) df.

Definition efg (fgm fg3m fga : float) : float :=
  ((fgm + 0.5 * fg3m) / replace_zero fga)%float.

Definition ts (pts fga fta : float) : float :=
  (pts / (2 * replace_zero (fga + 0.44 * fta)))%float.

Definition add_shooting_metrics (df : DataFrame) : result DataFrame :=
  df ← assign "eFG" ["FGM"; "FG3M"; "FGA"]%string (λ r,
         fgm ← number r "FGM"; fg3m ← number r "FG3M"; fga ← number r "FGA";
         Ok (CFloat (efg fgm fg3m fga))) df;
  df ← assign "TS" ["PTS"; "FGA"; "FTA"]%string (λ r,
         pts ← number r "PTS"; fga ← number r "FGA"; fta ← number r "FTA";
         Ok (CFloat (ts pts fga fta))) df;
  df ← assign "eFG" ["eFG"]%string (λ r,
         x ← number r "eFG"; Ok (CFloat (replace_inf x))) df;
  assign "TS" ["TS"]%string (λ r,
    x ← number r "TS"; Ok (CFloat (replace_inf x))) df.

Definition prepare_team_games_for_metrics (df_raw : DataFrame)
  : result DataFrame :=
  df ← normalize_team_game_df df_raw;
  df ← add_possessions df;
  add_shooting_metrics df.
End RowLevel.

(** An instance of [pd.to_datetime] for columns that hold no text: a
    datetime is kept, an integer is a count of nanoseconds since the
    epoch; text and floats are refused. *)
Definition to_datetime_numeric (l : list Cell) : option (list Timestamp) :=
  mapM (λ c, match c with
             | CDate t => Some t
             | CInt z => Some (Some z)
             | _ => None
             end) l.

(** ** Leaderboard selection (charts.py, line 5) *)

(** [df.take(indexer)]. *)
Definition take_rows (indexer : list nat) (df : DataFrame) : DataFrame :=
  {| columns := columns df;
     rows := omap (λ i, rows df !! i) indexer |}.

(** The values of [items] at the positions [indexer]. *)
Definition pick {A} (items : list A) (indexer : list nat) : list A :=
  omap (λ i, items !! i) indexer.

(** A cell that [isna] reports as missing: NaN or NaT. *)
Definition is_missing (c : Cell) : bool :=
  match c with
  | CFloat x => is_nan x
  | CDate None => true
  | _ => false
  end.

Definition is_number (c : Cell) : bool :=
  match c with CInt _ | CFloat _ => true | _ => false end.

Definition is_text (c : Cell) : bool :=
  match c with CStr _ => true | _ => false end.

Definition is_date (c : Cell) : bool :=
  match c with CDate _ => true | _ => false end.

(** The values of a column as sorting compares them: numbers (missing:
    NaN), texts or dates (missing: [None]). *)
Inductive sort_keys :=
  | Numbers (xs : list float)
  | Texts (ss : list (option string))
  | Dates (ts : list (option Z)).

Definition number_key (c : Cell) : float :=
  match c with
  | CInt z => float_of_Z z
  | CFloat x => x
  | _ => nan
  end.

Definition text_key (c : Cell) : option string :=
  match c with CStr s => Some s | _ => None end.

Definition date_key (c : Cell) : option Z :=
  match c with CDate t => t | _ => None end.

(** The cells that are not missing must be comparable with each other:
    all numbers, all texts or all dates.  Python refuses to order a text
    and a number, or a date and a number, with a TypeError. *)
Definition column_keys (cells : list Cell) : result sort_keys :=
  let present := List.filter (λ c, negb (is_missing c)) cells in
  if forallb is_number present then Ok (Numbers (number_key <$> cells))
  else if forallb is_text present then Ok (Texts (text_key <$> cells))
  else if forallb is_date present then Ok (Dates (date_key <$> cells))
  else Raise TypeError.

Section Leaderboard.
(** [ndarray.argsort(kind="quicksort")] of numpy on the values that are
    not missing, ascending, for a float64 array, an array of texts and an
    int64 array (the dates).  [sort_values] is called without [kind], and
    pandas documents that only "mergesort" and "stable" keep the order of
    equal values, so the functions are parameters: see [sorts], and
    [argsort_float64] for numpy's own routine. *)
Variable argsort : list float → list nat.
Variable argsort_text : list string → list nat.
Variable argsort_date : list Z → list nat.

(** pandas' [nargsort] with [ascending=False], [na_position="last"]: the
    values that are not NaN are reversed, sorted ascending, and the result
    reversed; the positions of the NaN values follow. *)
Definition nargsort_desc (items : list float) : list nat :=
  let idx := seq 0 (length items) in
  let is_na i := match items !! i with Some x => is_nan x | None => false end in
  let non_nan_idx := reverse (filter (λ i, is_na i = false) idx) in
  let nan_idx := filter (λ i, is_na i = true) idx in
  let non_nans := pick items non_nan_idx in
  reverse (pick non_nan_idx (argsort non_nans)) ++ nan_idx.

(** The same for a column of texts or dates, whose missing values are
    [None]. *)
Definition nargsort_desc_masked {A} (sorter : list A → list nat)
    (items : list (option A)) : list nat :=
  let idx := seq 0 (length items) in
  let is_na i :=
    match items !! i with Some (Some _) => false | _ => true end in
  let non_nan_idx := reverse (filter (λ i, is_na i = false) idx) in
  let nan_idx := filter (λ i, is_na i = true) idx in
  let non_nans := omap (λ i, items !! i ≫= id) non_nan_idx in
  reverse (pick non_nan_idx (sorter non_nans)) ++ nan_idx.

(** [df.sort_values(by, ascending=False)] for one column label. *)
Definition sort_values_desc (label : string) (df : DataFrame)
  : result DataFrame :=
  cells ← column label df;
  keys ← column_keys cells;
  Ok (take_rows
        match keys with
        | Numbers xs => nargsort_desc xs
        | Texts ss => nargsort_desc_masked argsort_text ss
        | Dates ts => nargsort_desc_masked argsort_date ts
        end df).

(** [df.head(n)]: the first [n] rows, or all but the last [-n]. *)
Definition head (n : Z) (df : DataFrame) : DataFrame :=
  {| columns := columns df;
     rows := take (Z.to_nat (if 0 <=? n then n
                             else Z.of_nat (length (rows df)) + n))
                  (rows df) |}.

(** The table [d] that [plot_leaderboard] draws; the drawing itself is
    matplotlib's. *)
Definition plot_leaderboard (df : DataFrame) (metric : string) (top_n : Z)
  : result DataFrame :=
  d ← sort_values_desc metric df;
  Ok (head top_n d).
End Leaderboard.

(** What numpy promises of [argsort]: a permutation of the positions that
    puts the values in ascending order. *)
Definition sorts (argsort : list float → list nat) : Prop :=
  ∀ xs, Forall (λ x, is_nan x = false) xs →
    Permutation (argsort xs) (seq 0 (length xs))
    ∧ StronglySorted (λ x y, (x <=? y)%float = true) (pick xs (argsort xs)).

(** A sort that meets it: positions paired with values, insertion-sorted;
    it keeps equal values in input order. *)
Definition argsort_stable (xs : list float) : list nat :=
  fst <$> stable_sort (λ a b, (a.2 <=? b.2)%float) (zip (seq 0 (length xs)) xs).

(** ** numpy's argsort of kind "quicksort"

    The scalar routine [aquicksort_] of numpy
    (numpy/_core/src/npysort/quicksort.cpp), which [ndarray.argsort] runs
    for the default kind where no SIMD routine is dispatched: an
    introsort on the array [tosort] of positions, with a median-of-three
    partition for ranges of more than 17 elements, an insertion sort for
    shorter ranges, and [aheapsort_] (heapsort.cpp) when the depth limit
    is reached.  Pointers into [tosort] are written as offsets; the loops
    run on a fuel that is never exhausted. *)

Section Quicksort.
Context {A : Type} (less : A → A → bool) (v : list A).

(** [Tag::less(v[i], v[j])]. *)
Definition less_at (i j : nat) : bool :=
  match v !! i, v !! j with
  | Some a, Some b => less a b
  | _, _ => false
  end.

(** Reading and writing the array through a pointer [p]. *)
Definition deref (tosort : list nat) (p : Z) : nat := tosort !!! Z.to_nat p.

Definition store (tosort : list nat) (p : Z) (x : nat) : list nat :=
  <[Z.to_nat p := x]> tosort.

(** [INTP_SWAP] of the two cells [p] and [q] point to. *)
Definition intp_swap (tosort : list nat) (p q : Z) : list nat :=
  store (store tosort p (deref tosort q)) q (deref tosort p).

(** [INTP_SWAP] of the two cells when the value of the first is less
    than the value of the second. *)
Definition swap_if_less (tosort : list nat) (p q : Z) : list nat :=
  if less_at (deref tosort p) (deref tosort q) then intp_swap tosort p q
  else tosort.

(** [do ++pi; while less(v[tosort[pi]], vp)], where [vp] is the value at
    position [ip] of [v]. *)
Fixpoint scan_up (fuel : nat) (tosort : list nat) (ip : nat) (pi : Z) : Z :=
  match fuel with
  | O => pi
  | S fuel =>
      let pi := pi + 1 in
      if less_at (deref tosort pi) ip then scan_up fuel tosort ip pi else pi
  end.

(** [do --pj; while less(vp, v[tosort[pj]])]. *)
Fixpoint scan_down (fuel : nat) (tosort : list nat) (ip : nat) (pj : Z) : Z :=
  match fuel with
  | O => pj
  | S fuel =>
      let pj := pj - 1 in
      if less_at ip (deref tosort pj) then scan_down fuel tosort ip pj else pj
  end.

(** The [for (;;)] loop of the partition; returns the array and [pi]. *)
Fixpoint partition_loop (fuel : nat) (tosort : list nat) (ip : nat)
    (pi pj : Z) : list nat * Z :=
  match fuel with
  | O => (tosort, pi)
  | S fuel =>
      let pi := scan_up (length tosort) tosort ip pi in
      let pj := scan_down (length tosort) tosort ip pj in
      if pj <=? pi then (tosort, pi)
      else partition_loop fuel (intp_swap tosort pi pj) ip pi pj
  end.

(** The inner loop of the insertion sort: the cells before [pj] whose
    value is greater than that of [vi] move up by one, then [vi] is
    stored. *)
Fixpoint insert_back (fuel : nat) (tosort : list nat) (pl : Z) (vi : nat)
    (pj : Z) : list nat :=
  match fuel with
  | O => store tosort pj vi
  | S fuel =>
      if (pl <? pj) && less_at vi (deref tosort (pj - 1))
      then insert_back fuel (store tosort pj (deref tosort (pj - 1))) pl vi
             (pj - 1)
      else store tosort pj vi
  end.

(** [for (pi = pl + 1; pi <= pr; ++pi)]: the insertion sort of a range. *)
Fixpoint insertion_sort (fuel : nat) (tosort : list nat) (pl pr pi : Z)
  : list nat :=
  match fuel with
  | O => tosort
  | S fuel =>
      if pi <=? pr
      then insertion_sort fuel
             (insert_back (length tosort) tosort pl (deref tosort pi) pi)
             pl pr (pi + 1)
      else tosort
  end.

(** [aheapsort_]: the array [a] is indexed from 1. *)
Definition heap_get (a : list nat) (i : Z) : nat := a !!! Z.to_nat (i - 1).

Definition heap_set (a : list nat) (i : Z) (x : nat) : list nat :=
  <[Z.to_nat (i - 1) := x]> a.

(** The inner loop [for (i = ..., j = ...; j <= n;)] followed by
    [a[i] = tmp]. *)
Fixpoint sift (fuel : nat) (a : list nat) (tmp : nat) (i j n : Z) : list nat :=
  match fuel with
  | O => heap_set a i tmp
  | S fuel =>
      if j <=? n then
        let j := if (j <? n) && less_at (heap_get a j) (heap_get a (j + 1))
                 then j + 1 else j in
        if less_at tmp (heap_get a j)
        then sift fuel (heap_set a i (heap_get a j)) tmp j (j + j) n
        else heap_set a i tmp
      else heap_set a i tmp
  end.

(** [for (l = n >> 1; l > 0; --l)]. *)
Fixpoint heapify (fuel : nat) (a : list nat) (l n : Z) : list nat :=
  match fuel with
  | O => a
  | S fuel =>
      if 0 <? l
      then heapify fuel (sift (length a) a (heap_get a l) l (Z.shiftl l 1) n)
             (l - 1) n
      else a
  end.

(** [for (; n > 1;)]. *)
Fixpoint sort_down (fuel : nat) (a : list nat) (n : Z) : list nat :=
  match fuel with
  | O => a
  | S fuel =>
      if 1 <? n then
        let tmp := heap_get a n in
        let a := heap_set a n (heap_get a 1) in
        let n := n - 1 in
        sort_down fuel (sift (length a) a tmp 1 2 n) n
      else a
  end.

Definition aheapsort (a : list nat) : list nat :=
  let n := Z.of_nat (length a) in
  sort_down (length a) (heapify (length a) a (Z.shiftr n 1) n) n.

(** [aheapsort_(vv, pl, pr - pl + 1)] on a range of [tosort]. *)
Definition heapsort_range (tosort : list nat) (pl pr : Z) : list nat :=
  let before := take (Z.to_nat pl) tosort in
  let range := take (Z.to_nat (pr - pl + 1)) (drop (Z.to_nat pl) tosort) in
  let after := drop (Z.to_nat (pr + 1)) tosort in
  before ++ aheapsort range ++ after.

(** The [while (1)] loop.  [check] tells that the range [pl..pr] has just
    been taken from the stack (or is the whole array), where the depth
    limit is tested; the stack holds the ranges left to sort with their
    depths. *)
Fixpoint quicksort_loop (fuel : nat) (check : bool) (tosort : list nat)
    (pl pr cdepth : Z) (stack : list (Z * Z * Z)) : list nat :=
  match fuel with
  | O => tosort
  | S fuel =>
      if check && (cdepth <? 0) then
        let tosort := heapsort_range tosort pl pr in
        match stack with
        | [] => tosort
        | (pl, pr, cdepth) :: stack =>
            quicksort_loop fuel true tosort pl pr cdepth stack
        end
      else if 16 <? pr - pl then
        let pm := pl + Z.shiftr (pr - pl) 1 in
        let tosort := swap_if_less tosort pm pl in
        let tosort := swap_if_less tosort pr pm in
        let tosort := swap_if_less tosort pm pl in
        let ip := deref tosort pm in
        let tosort := intp_swap tosort pm (pr - 1) in
        let '(tosort, pi) :=
          partition_loop (length tosort) tosort ip pl (pr - 1) in
        let tosort := intp_swap tosort pi (pr - 1) in
        if pi - pl <? pr - pi
        then quicksort_loop fuel false tosort pl (pi - 1) (cdepth - 1)
               ((pi + 1, pr, cdepth - 1) :: stack)
        else quicksort_loop fuel false tosort (pi + 1) pr (cdepth - 1)
               ((pl, pi - 1, cdepth - 1) :: stack)
      else
        let tosort := insertion_sort (length tosort) tosort pl pr (pl + 1) in
        match stack with
        | [] => tosort
        | (pl, pr, cdepth) :: stack =>
            quicksort_loop fuel true tosort pl pr cdepth stack
        end
  end.

(** [v.argsort(kind="quicksort")]: the positions 0, 1, ... sorted by
    [aquicksort_], with the depth limit [npy_get_msb(num) * 2]. *)
Definition aquicksort : list nat :=
  let num := length v in
  quicksort_loop (2 * num + 2) true (seq 0 num) 0 (Z.of_nat num - 1)
    (Z.log2 (Z.of_nat num) * 2) [].
End Quicksort.

(** [npy::double_tag::less]: NaN sorts to the end. *)
Definition double_less (a b : float) : bool :=
  (a <? b)%float || (is_nan b && negb (is_nan a)).

(** The argsort of a float64 array, of an int64 array, and of an array
    of texts. *)
Definition argsort_float64 (xs : list float) : list nat :=
  aquicksort double_less xs.

Definition argsort_int64 (zs : list Z) : list nat := aquicksort Z.ltb zs.

Definition argsort_object (ss : list string) : list nat :=
  aquicksort String.ltb ss.

(** ** Offense aggregation (metrics.py, lines 90-125) *)

(** A prepared team-game row, through the columns that offense aggregation
    and window filtering read; the numeric columns are float64. *)
Module BoxScore.
Record t := mk {
  GAME_ID : Z;
  GAME_DATE : Timestamp;
  TEAM_ID : Z;
  TEAM_ABBREVIATION : string;
  PTS : float;
  FGA : float;
  FGM : float;
  FG3M : float;
  FTA : float;
  OREB : float;
  TOV : float;
  AST : float;
  POSS : float;
  MIN : float;
}.
End BoxScore.

#[global] Instance BoxScore_rows : TeamGames BoxScore.t :=
  {| team_id := BoxScore.TEAM_ID; game_date := BoxScore.GAME_DATE |}.

(** A row of the table [aggregate_team_offense] returns. *)
Module Offense.
Record t := mk {
  TEAM_ID : Z;
  TEAM_ABBREVIATION : string;
  GAMES : Z;
  PTS : float;
  FGA : float;
  FGM : float;
  FG3M : float;
  FTA : float;
  OREB : float;
  TOV : float;
  AST : float;
  POSS : float;
  MIN : float;
  PPG : float;
  ORtg : float;
  eFG : float;
  TS : float;
  AST_RATE : float;
  TOV_RATE : float;
  PACE : float;
}.
End Offense.

(** [groupby(["TEAM_ID", "TEAM_ABBREVIATION"])] on any table whose rows
    have the two labels: the distinct keys in sorted order, each with its
    rows in table order. *)
Definition groupby_rows {R} (key : R → Z * string) (df : list R)
  : list ((Z * string) * list R) :=
  (λ k, (k, filter (λ r, key r = k) df))
    <$> stable_sort group_key_leb (remove_dups (key <$> df)).

Definition box_key (r : BoxScore.t) : Z * string :=
  (BoxScore.TEAM_ID r, BoxScore.TEAM_ABBREVIATION r).

(** The named aggregations of one group (lines 101-113) and the seven
    derived columns (lines 116-125). *)
Definition offense_row (g : (Z * string) * list BoxScore.t) : Offense.t :=
  let games := Z.of_nat (length g.2) in
  let pts := group_sum (BoxScore.PTS <$> g.2) in
  let fga := group_sum (BoxScore.FGA <$> g.2) in
  let fgm := group_sum (BoxScore.FGM <$> g.2) in
  let fg3m := group_sum (BoxScore.FG3M <$> g.2) in
  let fta := group_sum (BoxScore.FTA <$> g.2) in
  let oreb := group_sum (BoxScore.OREB <$> g.2) in
  let tov := group_sum (BoxScore.TOV <$> g.2) in
  let ast := group_sum (BoxScore.AST <$> g.2) in
  let poss := group_sum (BoxScore.POSS <$> g.2) in
  let minutes := group_sum (BoxScore.MIN <$> g.2) in
  {| Offense.TEAM_ID := g.1.1;
     Offense.TEAM_ABBREVIATION := g.1.2;
     Offense.GAMES := games;
     Offense.PTS := pts;
     Offense.FGA := fga;
     Offense.FGM := fgm;
     Offense.FG3M := fg3m;
     Offense.FTA := fta;
     Offense.OREB := oreb;
     Offense.TOV := tov;
     Offense.AST := ast;
     Offense.POSS := poss;
     Offense.MIN := minutes;
     Offense.PPG := (pts / replace_zero_count games)%float;
     Offense.ORtg := (100 * pts / replace_zero poss)%float;
     Offense.eFG := ((fgm + 0.5 * fg3m) / replace_zero fga)%float;
     Offense.TS := (pts / (2 * replace_zero (fga + 0.44 * fta)))%float;
     Offense.AST_RATE := (ast / replace_zero poss)%float;
     Offense.TOV_RATE := (tov / replace_zero poss)%float;
     Offense.PACE := (poss / replace_zero_count games)%float |}.

Definition aggregate_team_offense (df_team_games : list BoxScore.t)
  (window : string) : result (list Offense.t) :=
  df ← apply_time_window_team_games df_team_games window;
  Ok (offense_row <$> groupby_rows box_key df).

(** The six columns [pair_team_opponent] selects from a prepared table
    (lines 141-145), on one row. *)
Definition base_columns (r : BoxScore.t) : TeamGame.t :=
  {| TeamGame.GAME_ID := BoxScore.GAME_ID r;
     TeamGame.GAME_DATE := BoxScore.GAME_DATE r;
     TeamGame.TEAM_ID := BoxScore.TEAM_ID r;
     TeamGame.TEAM_ABBREVIATION := BoxScore.TEAM_ABBREVIATION r;
     TeamGame.PTS := BoxScore.PTS r;
     TeamGame.POSS := BoxScore.POSS r |}.

(** ** The canonical table of the ingest script (ingest.py, lines 29-49) *)

Module Ingest.
Definition wanted : list string :=
  [ "GAME_ID"; "GAME_DATE";
    "TEAM_ID"; "TEAM_ABBREVIATION";
    "MATCHUP"; "WL";
    "PTS"; "FGA"; "FGM"; "FG3A"; "FG3M";
    "FTA"; "FTM";
    "OREB"; "DREB"; "AST"; "TOV"; "MIN" ]%string.

(** [df[cols]] for a list of labels: the columns [cols], in that order; a
    label that is absent is a KeyError (pandas names all the absent labels
    in it, the first is kept here). *)
Definition select_columns (cols : list string) (df : DataFrame)
  : result DataFrame :=
  match list_find (λ c, c ∉ columns df) cols with
  | Some (_, c) => Raise (KeyError c)
  | None =>
      Ok {| columns := cols;
            rows := (λ r : Row, filter (λ kv, kv.1 ∈ cols) r) <$> rows df |}
  end.

Section Canonical.
Variable to_datetime : list Cell → option (list Timestamp).

(** The table [main] writes with [to_csv]: the wanted columns that the
    downloaded table has, the date column converted when it is there. *)
Definition canonical (df : DataFrame) : result DataFrame :=
  let available := filter (λ c, c ∈ columns df) wanted in
  canonical ← select_columns available df;
  if decide ("GAME_DATE" ∈ columns canonical) then
    dates ← column "GAME_DATE" canonical;
    match to_datetime dates with
    | Some ts => set_column "GAME_DATE" (CDate <$> ts) canonical
    | None => Raise DateParseError
    end
  else Ok canonical.
End Canonical.
End Ingest.

(** ** Vocabulary of the statements *)

(** [decimal s n]: [s] is a non-empty sequence of the digits 0-9 that
    reads [n] in base ten. *)
Inductive decimal : string → Z → Prop :=
  | decimal_digit c d :
      digit_of c = Some d → decimal (String c EmptyString) d
  | decimal_more s n c d :
      decimal s n → digit_of c = Some d →
      decimal (s +:+ String c EmptyString) (10 * n + d).

(** Every character of [s] is a digit. *)
Fixpoint all_digits (s : string) : Prop :=
  match s with
  | EmptyString => True
  | String c s' => is_Some (digit_of c) ∧ all_digits s'
  end.

(** The columns [cols] exist and hold numbers (int64 or float64). *)
Definition numeric (cols : list string) (df : DataFrame) : Prop :=
  Forall (λ c, c ∈ columns df) cols
  ∧ Forall (λ r : Row, Forall (λ c, ∃ x, number r c = Ok x) cols) (rows df).

(** What [add_possessions] and [add_shooting_metrics] do to one row. *)
Definition possessions_row (r : Row) : result Row :=
  fga ← number r "FGA"; fta ← number r "FTA";
  oreb ← number r "OREB"; tov ← number r "TOV";
  Ok (<["POSS" := CFloat (replace_inf (possessions fga fta oreb tov))]> r).

Definition shooting_row (r : Row) : result Row :=
  fgm ← number r "FGM"; fg3m ← number r "FG3M"; fga ← number r "FGA";
  pts ← number r "PTS"; fta ← number r "FTA";
  Ok (<["TS" := CFloat (replace_inf (ts pts fga fta))]>
        (<["eFG" := CFloat (replace_inf (efg fgm fg3m fga))]> r)).

(** A table function that works row by row: it succeeds exactly when the
    columns [need] exist and the row function succeeds on every row; it
    then adds the labels [adds] and maps the rows. *)
Definition rowwise (F : DataFrame → result DataFrame)
    (need adds : list string) (f : Row → result Row) : Prop :=
  ∀ df df',
    F df = Ok df' ↔
    Forall (λ c, c ∈ columns df) need
    ∧ columns df' = foldl (λ cols c, with_column c cols) (columns df) adds
    ∧ map_rows f (rows df) = Ok (rows df').

(** The rows are in descending order of the metric, the rows whose metric
    is NaN last. *)
Definition descending_by (metric : string) (rs : list Row) : Prop :=
  ∃ numbers nans,
    Forall2 (λ r k, number r metric = Ok k) rs (numbers ++ nans)
    ∧ StronglySorted (λ x y, (y <=? x)%float = true) numbers
    ∧ Forall (λ k, is_nan k = false) numbers
    ∧ Forall (λ k, is_nan k = true) nans.

(** A rank that orders the values as IEEE comparison does: class first,
    then exponent, then mantissa, mirrored for negative numbers. *)
Definition sf_rank (x : spec_float) : Z * Z * Z :=
  match x with
  | S754_zero _ => (0, 0, 0)
  | S754_infinity false => (2, 0, 0)
  | S754_infinity true => (-2, 0, 0)
  | S754_finite false m e => (1, e, Z.pos m)
  | S754_finite true m e => (-1, - e, - Z.pos m)
  | S754_nan => (3, 0, 0)
  end.

Definition rank_le (a b : Z * Z * Z) : Prop :=
  a.1.1 < b.1.1
  ∨ (a.1.1 = b.1.1 ∧ (a.1.2 < b.1.2 ∨ (a.1.2 = b.1.2 ∧ a.2 ≤ b.2))).

Definition rank_lt (a b : Z * Z * Z) : Prop :=
  a.1.1 < b.1.1
  ∨ (a.1.1 = b.1.1 ∧ (a.1.2 < b.1.2 ∨ (a.1.2 = b.1.2 ∧ a.2 < b.2))).

(** The paired row seen from the other side: team and opponent exchanged. *)
Definition mirror (p : Paired.t) : Paired.t :=
  {| Paired.GAME_ID := Paired.GAME_ID p;
     Paired.GAME_DATE := Paired.GAME_DATE p;
     Paired.TEAM_ID := Paired.OPP_TEAM_ID p;
     Paired.TEAM_ABBREVIATION := Paired.OPP_TEAM_ABBREVIATION p;
     Paired.PTS_FOR := Paired.PTS_AGAINST p;
     Paired.POSS_FOR := Paired.POSS_AGAINST p;
     Paired.OPP_TEAM_ID := Paired.TEAM_ID p;
     Paired.OPP_TEAM_ABBREVIATION := Paired.TEAM_ABBREVIATION p;
     Paired.PTS_AGAINST := Paired.PTS_FOR p;
     Paired.POSS_AGAINST := Paired.POSS_FOR p |}.

(** [r] is a row of another team in the game of [l]. *)
Definition opponent_of (l r : TeamGame.t) : Prop :=
  same_game l r ∧ TeamGame.TEAM_ID l ≠ TeamGame.TEAM_ID r.

#[global] Instance opponent_of_dec l r : Decision (opponent_of l r).
Proof. unfold opponent_of. apply _. Defined.

(** Every row of the table has exactly one opponent row. *)
Definition one_opponent_each (df : list TeamGame.t) : Prop :=
  ∀ l, l ∈ df → ∃ r, filter (opponent_of l) df = [r].

(** The strict order of group keys: by team identifier, then by
    abbreviation. *)
Definition key_lt (a b : Z * string) : Prop :=
  a.1 < b.1 ∨ (a.1 = b.1 ∧ String.ltb a.2 b.2 = true).

(** A box-score row and a paired row that describe the same team in the
    same game. *)
Definition own_side (x : BoxScore.t) (p : Paired.t) : Prop :=
  Paired.TEAM_ID p = BoxScore.TEAM_ID x
  ∧ Paired.TEAM_ABBREVIATION p = BoxScore.TEAM_ABBREVIATION x
  ∧ Paired.GAME_DATE p = BoxScore.GAME_DATE x
  ∧ Paired.PTS_FOR p = BoxScore.PTS x
  ∧ Paired.POSS_FOR p = BoxScore.POSS x.

(** Every row has a cell for every column of the table, as in every table
    pandas builds. *)
Definition well_formed (df : DataFrame) : Prop :=
  Forall (λ r : Row, Forall (λ c, is_Some (r !! c)) (columns df)) (rows df).

(** pandas' sum of one group written out: the values are added in row
    order, NaN values are skipped, and the rounding error of every
    addition is carried in a compensation term (Kahan summation) that is
    reset when it is NaN.  [sums_from (s, c) vals (s', c')]: starting from
    the sum [s] and the compensation [c], the values [vals] lead to [s']
    and [c']. *)
Inductive sums_from : float * float → list float → float * float → Prop :=
  | sums_from_nil st : sums_from st [] st
  | sums_from_skip st v vals st' :
      is_nan v = true → sums_from st vals st' → sums_from st (v :: vals) st'
  | sums_from_add s c v vals st' :
      is_nan v = false →
      (let y := (v - c)%float in
       let t := (s + y)%float in
       let c' := (t - s - y)%float in
       sums_from (t, if is_nan c' then 0%float else c') vals st') →
      sums_from (s, c) (v :: vals) st'.

(** [total] is the sum of [vals]. *)
Definition sums_to (vals : list float) (total : float) : Prop :=
  ∃ comp, sums_from (0%float, 0%float) vals (total, comp).

(** The rows [all] of one team put newest first (undated rows last, rows
    of one date in table order), cut in two: the rows [kept] and, after
    them, the rows [dropped]. *)
Definition newest_first {R} `{TeamGames R} (all kept dropped : list R) : Prop :=
  kept ++ dropped ≡ₚ all
  ∧ StronglySorted
      (λ a b, date_desc_leb (game_date a) (game_date b) = true)
      (kept ++ dropped)
  ∧ ∀ d, filter (λ r, game_date r = d) (kept ++ dropped)
         = filter (λ r, game_date r = d) all.

(** How many of the [count] rows of a team a valid window keeps: all of
    them for "SEASON", the first N for "LAST_N". *)
Inductive window_keeps : string → nat → nat → Prop :=
  | window_keeps_season count : window_keeps "SEASON" count count
  | window_keeps_last s n count :
      decimal s n →
      window_keeps ("LAST_" +:+ s) count (Nat.min (Z.to_nat n) count).

(** ** Example tables *)

(** The game of the specification's example: Team A scores 100 points on
    95 possessions, Team B 90 points on 95 possessions. *)
Definition team_a : TeamGame.t :=
  {| TeamGame.GAME_ID := 1; TeamGame.GAME_DATE := Some 0;
     TeamGame.TEAM_ID := 1; TeamGame.TEAM_ABBREVIATION := "A";
     TeamGame.PTS := 100; TeamGame.POSS := 95 |}.

Definition team_b : TeamGame.t :=
  {| TeamGame.GAME_ID := 1; TeamGame.GAME_DATE := Some 0;
     TeamGame.TEAM_ID := 2; TeamGame.TEAM_ABBREVIATION := "B";
     TeamGame.PTS := 90; TeamGame.POSS := 95 |}.

Definition example_game : list TeamGame.t := [team_a; team_b].

(** The same game with Team B's row dated one day (in nanoseconds) later. *)
Definition team_b_next_day : TeamGame.t :=
  {| TeamGame.GAME_ID := 1; TeamGame.GAME_DATE := Some 86400000000000;
     TeamGame.TEAM_ID := 2; TeamGame.TEAM_ABBREVIATION := "B";
     TeamGame.PTS := 90; TeamGame.POSS := 95 |}.

Definition misdated_game : list TeamGame.t := [team_a; team_b_next_day].

(** What [aggregate_team_with_defense] returns for [example_game]. *)
Definition example_ratings : list Ratings.t :=
  [ {| Ratings.TEAM_ID := 1; Ratings.TEAM_ABBREVIATION := "A";
       Ratings.GAMES := 1;
       Ratings.PTS_FOR := 100; Ratings.PTS_AGAINST := 90;
       Ratings.POSS_FOR := 95; Ratings.POSS_AGAINST := 95;
       Ratings.ORtg := 100 * 100 / 95;
       Ratings.DRtg := 100 * 90 / 95;
       Ratings.NET_RTG := 100 * 100 / 95 - 100 * 90 / 95;
       Ratings.PACE := 95 |};
    {| Ratings.TEAM_ID := 2; Ratings.TEAM_ABBREVIATION := "B";
       Ratings.GAMES := 1;
       Ratings.PTS_FOR := 90; Ratings.PTS_AGAINST := 100;
       Ratings.POSS_FOR := 95; Ratings.POSS_AGAINST := 95;
       Ratings.ORtg := 100 * 90 / 95;
       Ratings.DRtg := 100 * 100 / 95;
       Ratings.NET_RTG := 100 * 90 / 95 - 100 * 100 / 95;
       Ratings.PACE := 95 |} ].

(** A row of team [team] played on day [day]; the day also numbers the
    game. *)
Definition game_on (team day : Z) : TeamGame.t :=
  {| TeamGame.GAME_ID := day; TeamGame.GAME_DATE := Some day;
     TeamGame.TEAM_ID := team; TeamGame.TEAM_ABBREVIATION := "T";
     TeamGame.PTS := 0; TeamGame.POSS := 0 |}.

(** Team 1 has eight games, team 2 has three, in no particular order. *)
Definition window_sample : list TeamGame.t :=
  [ game_on 1 3; game_on 2 5; game_on 1 8; game_on 1 1; game_on 2 2;
    game_on 1 6; game_on 1 2; game_on 2 7; game_on 1 5; game_on 1 7;
    game_on 1 4 ].

(** A raw table row with the sixteen required columns, all counts
    integers. *)
Definition raw_row (game_id date team_id : Z) (abbreviation : string)
    (pts fga fgm fg3a fg3m fta ftm oreb dreb ast tov minutes : Z) : Row :=
  list_to_map
    [ ("GAME_ID", CInt game_id); ("GAME_DATE", CInt date);
      ("TEAM_ID", CInt team_id); ("TEAM_ABBREVIATION", CStr abbreviation);
      ("PTS", CInt pts); ("FGA", CInt fga); ("FGM", CInt fgm);
      ("FG3A", CInt fg3a); ("FG3M", CInt fg3m);
      ("FTA", CInt fta); ("FTM", CInt ftm);
      ("OREB", CInt oreb); ("DREB", CInt dreb);
      ("AST", CInt ast); ("TOV", CInt tov); ("MIN", CInt minutes) ]%string.

Definition raw_table (rs : list Row) : DataFrame :=
  {| columns := required; rows := rs |}.

(** The row of the specification's example: FGA 80, FTA 20, OREB 10,
    TOV 15. *)
Definition possessions_example : DataFrame :=
  raw_table [raw_row 1 0 1 "A" 100 80 40 25 10 20 15 10 30 25 15 240].

(** A table that lacks two of the required columns, OREB and MIN. *)
Definition incomplete_table : DataFrame :=
  {| columns := [ "GAME_ID"; "GAME_DATE"; "TEAM_ID"; "TEAM_ABBREVIATION";
                  "PTS"; "FGA"; "FGM"; "FG3A"; "FG3M"; "FTA"; "FTM";
                  "DREB"; "AST"; "TOV" ]%string;
     rows := [] |}.

(** A row whose possessions formula overflows binary64. *)
Definition overflow_table : DataFrame :=
  {| columns := ["FGA"; "FTA"; "OREB"; "TOV"]%string;
     rows := [ list_to_map
                 [ ("FGA", CFloat 1e308); ("FTA", CFloat 0);
                   ("OREB", CFloat 0); ("TOV", CFloat 1e308) ]%string ] |}.

(** A team that took no field goal and no free throw. *)
Definition no_shot_table : DataFrame :=
  raw_table [raw_row 1 0 1 "A" 0 0 0 0 0 0 0 0 3 0 2 240].

(** A team that took no field goal and made eight of ten free throws. *)
Definition free_throws_only_table : DataFrame :=
  raw_table [raw_row 1 0 1 "A" 8 0 0 0 0 10 8 0 3 0 2 240].

(** A row of an aggregate table with one metric. *)
Definition rated (abbreviation : string) (net_rtg : float) : Row :=
  list_to_map [ ("TEAM_ABBREVIATION", CStr abbreviation);
                ("NET_RTG", CFloat net_rtg) ]%string.

(** Four teams; one has no net rating. *)
Definition ratings_table : DataFrame :=
  {| columns := ["TEAM_ABBREVIATION"; "NET_RTG"]%string;
     rows := [rated "A" 1.5; rated "B" nan; rated "C" 7; rated "D" (-2)] |}.

(** Eighteen teams; E and J share the best net rating, E first. *)
Definition tie_for_first : DataFrame :=
  {| columns := ["TEAM_ABBREVIATION"; "NET_RTG"]%string;
     rows := [ rated "A" (-6); rated "B" 6; rated "C" (-8); rated "D" (-3);
               rated "E" 9; rated "F" 3; rated "G" (-5); rated "H" (-7);
               rated "I" 2; rated "J" 9; rated "K" 8; rated "L" 0;
               rated "M" (-2); rated "N" (-9); rated "O" 7; rated "P" 1;
               rated "Q" 4; rated "R" 5 ] |}.

(** A game in which neither team had a possession. *)
Definition idle_game : list TeamGame.t :=
  [ {| TeamGame.GAME_ID := 7; TeamGame.GAME_DATE := Some 0;
       TeamGame.TEAM_ID := 1; TeamGame.TEAM_ABBREVIATION := "A";
       TeamGame.PTS := 0; TeamGame.POSS := 0 |};
    {| TeamGame.GAME_ID := 7; TeamGame.GAME_DATE := Some 0;
       TeamGame.TEAM_ID := 2; TeamGame.TEAM_ABBREVIATION := "B";
       TeamGame.PTS := 0; TeamGame.POSS := 0 |} ].

(** A box-score row of the game numbered [game], played on day [game]. *)
Definition box (game team : Z) (abbreviation : string) (pts poss : float)
  : BoxScore.t :=
  {| BoxScore.GAME_ID := game; BoxScore.GAME_DATE := Some game;
     BoxScore.TEAM_ID := team; BoxScore.TEAM_ABBREVIATION := abbreviation;
     BoxScore.PTS := pts; BoxScore.FGA := 80; BoxScore.FGM := 40;
     BoxScore.FG3M := 10; BoxScore.FTA := 20; BoxScore.OREB := 10;
     BoxScore.TOV := 15; BoxScore.AST := 25; BoxScore.POSS := poss;
     BoxScore.MIN := 240 |}.

(** Two games between the same two teams. *)
Definition box_score_sample : list BoxScore.t :=
  [ box 1 1 "A" 100 95; box 1 2 "B" 90 95;
    box 2 2 "B" 110 100; box 2 1 "A" 104 100 ].

(** A raw row whose possessions formula overflows binary64. *)
Definition overflow_example : DataFrame :=
  raw_table [ <["TOV" := CFloat 1e308]>
                (<["FGA" := CFloat 1e308]>
                   (raw_row 1 0 1 "A" 100 80 40 25 10 20 15 10 30 25 15 240)) ].

(** A downloaded table with two wanted columns, out of order, and one
    column that is not wanted. *)
Definition downloaded_table : DataFrame :=
  {| columns := ["PTS"; "SEASON_ID"; "GAME_ID"]%string;
     rows := [ list_to_map [ ("PTS", CInt 100); ("SEASON_ID", CStr "22023");
                             ("GAME_ID", CInt 1) ]%string ] |}.

(** * Properties *)

(** ** The stable sort *)

Lemma StronglySorted_weaken {A} (P Q : A → A → Prop) l :
  (∀ a b, P a b → Q a b) → StronglySorted P l → StronglySorted Q l.
Proof.
  intros HPQ. induction 1 as [|x l Hl IH Hx]; constructor; [done|].
  eapply Forall_impl; [exact Hx|]. intros b. apply HPQ.
Qed.

Section StableSort.
Context {A : Type} (leb : A → A → bool).

Lemma insert_sorted_perm x l : insert_sorted leb x l ≡ₚ x :: l.
Proof.
  induction l as [|y l IH]; simpl; [done|].
  destruct (leb x y); [done|].
  rewrite IH. apply Permutation_swap.
Qed.

Lemma stable_sort_perm l : stable_sort leb l ≡ₚ l.
Proof.
  induction l as [|x l IH]; simpl; [done|].
  rewrite insert_sorted_perm. by rewrite IH.
Qed.

Lemma stable_sort_length l : length (stable_sort leb l) = length l.
Proof. by rewrite stable_sort_perm. Qed.

(** Rows of a class whose members are mutually [leb] keep their input
    order: the sort is stable. *)
Lemma insert_sorted_filter (P : A → Prop) `{∀ x, Decision (P x)} x l :
  (∀ a b, P a → P b → leb a b = true) →
  filter P (insert_sorted leb x l) = filter P (x :: l).
Proof.
  intros HP. induction l as [|y l IH]; simpl; [done|].
  destruct (leb x y) eqn:Hxy; [done|].
  rewrite filter_cons, IH, !filter_cons.
  destruct (decide (P y)) as [Hy|]; [|done].
  destruct (decide (P x)) as [Hx|]; [|done].
  rewrite (HP x y Hx Hy) in Hxy. done.
Qed.

Lemma stable_sort_filter (P : A → Prop) `{∀ x, Decision (P x)} l :
  (∀ a b, P a → P b → leb a b = true) →
  filter P (stable_sort leb l) = filter P l.
Proof.
  intros HP. induction l as [|x l IH]; simpl; [done|].
  rewrite insert_sorted_filter by done.
  by rewrite !filter_cons, IH.
Qed.

Hypothesis leb_total : ∀ a b, leb a b = false → leb b a = true.
Hypothesis leb_trans : ∀ a b c, leb a b = true → leb b c = true → leb a c = true.

Lemma insert_sorted_sorted x l :
  StronglySorted (λ a b, leb a b = true) l →
  StronglySorted (λ a b, leb a b = true) (insert_sorted leb x l).
Proof.
  induction 1 as [|y l Hl IH Hy]; simpl.
  - repeat constructor.
  - destruct (leb x y) eqn:Hxy.
    + constructor; [by constructor|].
      constructor; [done|].
      eapply Forall_impl; [exact Hy|]. intros z Hz. by eapply leb_trans.
    + constructor; [done|].
      rewrite insert_sorted_perm. constructor; [by apply leb_total | done].
Qed.

Lemma stable_sort_sorted l :
  StronglySorted (λ a b, leb a b = true) (stable_sort leb l).
Proof.
  induction l as [|x l IH]; simpl; [constructor|].
  by apply insert_sorted_sorted.
Qed.
End StableSort.

(** ** Window strings *)

Lemma digit_of_not_sep c d : digit_of c = Some d → Ascii.eqb c "_" = false.
Proof.
  unfold digit_of. intros Hd.
  destruct (Ascii.eqb_spec c "_") as [->|]; [|done].
  vm_compute in Hd. discriminate.
Qed.

Lemma digit_of_nonneg c d : digit_of c = Some d → 0 ≤ d.
Proof.
  unfold digit_of. destruct (_ && _) eqn:Hr; [|done]. intros [= <-].
  apply andb_true_iff in Hr as [?%Z.leb_le _]. lia.
Qed.

Lemma decimal_nonneg s n : decimal s n → 0 ≤ n.
Proof.
  induction 1 as [c d Hd|s k c d _ IH Hd]; apply digit_of_nonneg in Hd; lia.
Qed.

Lemma digit_of_not_space c d : digit_of c = Some d → is_space c = false.
Proof.
  unfold digit_of, is_space. intros Hd.
  destruct (_ && _) eqn:Hr; [|done].
  apply andb_true_iff in Hr as [H1%Z.leb_le H2%Z.leb_le].
  apply orb_false_iff. split.
  - apply andb_false_iff. right. apply Z.leb_gt. lia.
  - apply Z.eqb_neq. lia.
Qed.


Lemma all_digits_snoc s c :
  all_digits s → is_Some (digit_of c) → all_digits (s +:+ String c EmptyString).
Proof.
  intros Hs Hc. induction s as [|a s IH]; simpl; [done|].
  destruct Hs as [Ha Hs]. split; [done|by apply IH].
Qed.

Lemma decimal_all_digits s n : decimal s n → all_digits s ∧ s ≠ EmptyString.
Proof.
  induction 1 as [c d Hd|s n c d Hs [IH _] Hd].
  - simpl. rewrite Hd. naive_solver.
  - split; [apply all_digits_snoc; [done|by rewrite Hd]|].
    by destruct s.
Qed.

Lemma split_decimal s n : decimal s n → split "_" s = [s].
Proof.
  intros Hdec. apply decimal_all_digits in Hdec as [Hs _].
  induction s as [|a s IH]; simpl; [done|].
  destruct Hs as [[d Hd] Hs].
  by rewrite (digit_of_not_sep _ _ Hd), IH.
Qed.

Lemma digits_snoc s c d acc m :
  all_digits s → digit_of c = Some d → digits acc s = Some m →
  digits acc (s +:+ String c EmptyString) = Some (10 * m + d).
Proof.
  intros Hs Hd. revert acc. induction s as [|a s IH]; simpl; intros acc.
  - intros [= ->]. by rewrite Hd.
  - destruct Hs as [[da Ha] Hs]. rewrite Ha. by apply IH.
Qed.

Lemma digits_decimal s n : decimal s n → digits 0 s = Some n.
Proof.
  induction 1 as [c d Hd|s n c d Hs IH Hd].
  - simpl. rewrite Hd. simpl. f_equal; lia.
  - apply digits_snoc; [by apply (decimal_all_digits s n)|done..].
Qed.

(** A text of digits is read by [int()] as the number it writes. *)
Lemma py_int_decimal s n : decimal s n → py_int s = Some n.
Proof.
  intros Hs. pose proof (digits_decimal s n Hs) as Hdig.
  destruct (decimal_all_digits s n Hs) as [Hall Hne].
  destruct s as [|c s]; [done|]. destruct Hall as [[d Hd] _].
  unfold py_int. simpl. rewrite (digit_of_not_space _ _ Hd).
  assert (unsigned_literal (String c s) = Some n) as Hu.
  { unfold unsigned_literal. by rewrite Hd. }
  destruct c as [[] [] [] [] [] [] [] []]; try done; vm_compute in Hd; done.
Qed.

Lemma last_unfold s :
  "LAST_" +:+ s = String "L" (String "A" (String "S" (String "T" (String "_" s)))).
Proof. reflexivity. Qed.

Lemma window_count_last s n :
  decimal s n → window_count ("LAST_" +:+ s) = Some n.
Proof.
  intros Hs. unfold window_count. rewrite last_unfold. simpl.
  rewrite (split_decimal s n Hs). simpl. by apply py_int_decimal.
Qed.

(** ** Window filtering *)

Lemma date_desc_leb_total a b :
  date_desc_leb a b = false → date_desc_leb b a = true.
Proof. destruct a, b; simpl; try done. intros ?%Z.leb_gt. apply Z.leb_le. lia. Qed.

Lemma date_desc_leb_trans a b c :
  date_desc_leb a b = true → date_desc_leb b c = true → date_desc_leb a c = true.
Proof.
  destruct a, b, c; simpl; try done.
  intros ?%Z.leb_le ?%Z.leb_le. apply Z.leb_le. lia.
Qed.

Section WindowFacts.
Context {R : Type} {TG : TeamGames R}.


Lemma team_date_leb_spec a b :
  team_date_leb a b = true ↔
  team_id a < team_id b ∨ (team_id a = team_id b ∧ newer_leb a b = true).
Proof.
  unfold team_date_leb, newer_leb.
  rewrite orb_true_iff, andb_true_iff, Z.ltb_lt, Z.eqb_eq. done.
Qed.

Lemma team_date_leb_total a b :
  team_date_leb a b = false → team_date_leb b a = true.
Proof.
  intros Hab. apply team_date_leb_spec.
  destruct (Z.lt_trichotomy (team_id a) (team_id b)) as [Hlt|[Heq|Hgt]].
  - assert (team_date_leb a b = true) by (apply team_date_leb_spec; auto).
    congruence.
  - right. split; [done|]. apply date_desc_leb_total.
    destruct (date_desc_leb (game_date a) (game_date b)) eqn:Hd; [|done].
    assert (team_date_leb a b = true) by (apply team_date_leb_spec; auto).
    congruence.
  - auto.
Qed.

Lemma team_date_leb_trans a b c :
  team_date_leb a b = true → team_date_leb b c = true →
  team_date_leb a c = true.
Proof.
  rewrite !team_date_leb_spec. unfold newer_leb.
  intros [?|[? Hab]] [?|[? Hbc]]; try (left; lia).
  right. split; [lia|]. by eapply date_desc_leb_trans.
Qed.

Lemma sort_values_team_date_sorted (df : list R) :
  StronglySorted (λ a b, team_date_leb a b = true) (sort_values_team_date df).
Proof.
  apply stable_sort_sorted;
    [apply team_date_leb_total | apply team_date_leb_trans].
Qed.

Lemma insert_sorted_first (leb : R → R → bool) x l :
  Forall (λ z, leb x z = true) l → insert_sorted leb x l = x :: l.
Proof. destruct 1 as [|z l Hz _]; simpl; [done|]. by rewrite Hz. Qed.

(** Sorting the table and reading one team gives that team's rows sorted
    by date alone. *)
Lemma team_rows_insert_sorted t x (s : list R) :
  StronglySorted (λ a b, team_date_leb a b = true) s →
  team_rows t (insert_sorted team_date_leb x s) =
  if decide (team_id x = t) then insert_sorted newer_leb x (team_rows t s)
  else team_rows t s.
Proof.
  unfold team_rows.
  induction 1 as [|y l Hl IH Hy]; simpl.
  - rewrite filter_cons. by destruct (decide (team_id x = t)).
  - destruct (team_date_leb x y) eqn:Hxy.
    + rewrite (filter_cons _ x).
      destruct (decide (team_id x = t)) as [Hx|]; [|done].
      rewrite insert_sorted_first; [done|].
      apply Forall_forall. intros z [Hz Hin]%list_elem_of_filter.
      assert (team_date_leb x z = true) as Hxz.
      { apply elem_of_cons in Hin as [->|Hin]; [done|].
        eapply team_date_leb_trans; [exact Hxy|].
        by eapply Forall_forall in Hy. }
      apply team_date_leb_spec in Hxz as [?|[_ ?]]; [lia|done].
    + rewrite !(filter_cons _ y), IH.
      destruct (decide (team_id y = t)) as [Hy'|]; [|done].
      destruct (decide (team_id x = t)) as [Hx|]; [|done].
      simpl. destruct (newer_leb x y) eqn:Hn; [|done].
      assert (team_date_leb x y = true)
        by (apply team_date_leb_spec; right; split; [congruence|done]).
      congruence.
Qed.

Lemma team_rows_sort_values t (df : list R) :
  team_rows t (sort_values_team_date df) = stable_sort newer_leb (team_rows t df).
Proof.
  induction df as [|x df IH]; [done|].
  change (sort_values_team_date (x :: df))
    with (insert_sorted team_date_leb x (sort_values_team_date df)).
  rewrite team_rows_insert_sorted by apply sort_values_team_date_sorted.
  unfold team_rows at 3. rewrite filter_cons.
  destruct (decide (team_id x = t)); simpl; by rewrite IH.
Qed.

(** [head_rows] keeps, of every team, the rows that come before its
    limit is reached. *)
Lemma team_rows_head_rows t limit seen (df : list R) :
  team_rows t (head_rows limit seen df) =
  take (Z.to_nat (limit t - seen t)) (team_rows t df).
Proof.
  unfold team_rows. revert seen.
  induction df as [|r df IH]; intros seen; simpl; [by destruct (Z.to_nat _)|].
  rewrite (filter_cons _ r df).
  destruct (decide (team_id r = t)) as [<-|Hne].
  - destruct (Z.ltb_spec (seen (team_id r)) (limit (team_id r))).
    + rewrite filter_cons_True by done. rewrite IH.
      rewrite decide_True by done.
      replace (Z.to_nat (limit (team_id r) - seen (team_id r)))
        with (S (Z.to_nat (limit (team_id r) - (seen (team_id r) + 1)))) by lia.
      done.
    + rewrite IH. rewrite decide_True by done.
      replace (Z.to_nat (limit (team_id r) - seen (team_id r))) with 0%nat by lia.
      replace (Z.to_nat (limit (team_id r) - (seen (team_id r) + 1))) with 0%nat by lia.
      done.
  - destruct (seen (team_id r) <? limit (team_id r)).
    + rewrite filter_cons_False by done. rewrite IH.
      by rewrite decide_False by done.
    + rewrite IH. by rewrite decide_False by done.
Qed.



Lemma team_rows_groupby_head t n (df : list R) :
  0 ≤ n →
  team_rows t (groupby_head n df) = take (Z.to_nat n) (team_rows t df).
Proof.
  intros Hn. unfold groupby_head. rewrite team_rows_head_rows.
  destruct (Z.leb_spec 0 n); [|lia]. by rewrite Z.sub_0_r.
Qed.
End WindowFacts.

(** Which windows are refused: every text that is not "SEASON" and either
    does not start with "LAST_" or has no integer after the first
    underscore; the exception is one of the two window errors. *)
Lemma apply_time_window_raises {R} {TG : TeamGames R} (df : list R) window e :
  apply_time_window_team_games df window = Raise e ↔
  window ≠ "SEASON"
  ∧ ((startswith window "LAST_" = true ∧ window_count window = None
      ∧ e = ValueError (InvalidWindowFormat window))
     ∨ (startswith window "LAST_" = false
        ∧ e = ValueError (UnsupportedWindow window))).
Proof.
  unfold apply_time_window_team_games.
  destruct (decide (window = "SEASON")) as [->|Hw].
  { split; [done|]. by intros [? _]. }
  destruct (startswith window "LAST_").
  - destruct (window_count window).
    + split; [done|]. intros [_ [(_ & ? & _)|[? _]]]; done.
    + split.
      * intros [= <-]. auto.
      * intros [_ [(_ & _ & ->)|[? _]]]; done.
  - split.
    + intros [= <-]. auto.
    + intros [_ [(? & _)|[_ ->]]]; done.
Qed.

(** Every exception of window filtering is one of the two window errors. *)
Lemma apply_time_window_raises_window_error {R} {TG : TeamGames R}
    (df : list R) window e :
  apply_time_window_team_games df window = Raise e → InvalidWindowError e.
Proof.
  intros [_ [(_ & _ & ->)|(_ & ->)]]%apply_time_window_raises;
    exists window; auto.
Qed.

Lemma groupby_head_0 {R} {TG : TeamGames R} (df : list R) : groupby_head 0 df = [].
Proof.
  destruct (groupby_head 0 df) as [|r l] eqn:Hg; [done|].
  pose proof (team_rows_groupby_head (team_id r) 0 df (Z.le_refl 0)) as Ht.
  rewrite Hg in Ht. unfold team_rows in Ht.
  rewrite filter_cons_True in Ht by done. done.
Qed.

(** C3 (the code departs from the claim).  A window whose count is
    negative or zero is not refused: [int] reads "-3" as -3 and the rows are
    cut with [head(-3)], which returns every team's rows but its last three;
    "LAST_0" returns the empty table.  No exception is raised, where the
    claim asks for an InvalidWindowError. *)
Theorem window_last_negative_accepted {R} {TG : TeamGames R} (df : list R) :
  apply_time_window_team_games df "LAST_-3"
    = Ok (groupby_head (-3) (sort_values_team_date df))
  ∧ apply_time_window_team_games df "LAST_0" = Ok []
  ∧ ∀ e, apply_time_window_team_games df "LAST_-3" ≠ Raise e.
Proof.
  assert (apply_time_window_team_games df "LAST_-3"
          = Ok (groupby_head (-3) (sort_values_team_date df))) as H3
    by reflexivity.
  split; [done|]. split; [|by rewrite H3].
  change (apply_time_window_team_games df "LAST_0")
    with (Ok (groupby_head 0 (sort_values_team_date df))).
  by rewrite groupby_head_0.
Qed.


(** ** Opponent pairing *)

Lemma filter_fmap_const {A B} (P : B → Prop) `{!∀ y, Decision (P y)}
    (f : A → B) (l : list A) (c : Prop) `{!Decision c} :
  (∀ x, P (f x) ↔ c) →
  filter P (f <$> l) = if decide c then f <$> l else [].
Proof.
  intros Hc. induction l as [|x l IH].
  - by destruct (decide c).
  - rewrite fmap_cons, filter_cons, IH.
    destruct (decide c) as [Hyes|Hno].
    + by rewrite decide_True by (by apply Hc).
    + by rewrite decide_False by (by rewrite Hc).
Qed.

(** The paired rows of a game are built from the rows of that game alone. *)
Lemma merge_on_game_filter_l g (base opp : list TeamGame.t) :
  filter (λ p, Paired.GAME_ID p = g) (merge_on_game base opp)
  = merge_on_game (filter (λ r, TeamGame.GAME_ID r = g) base) opp.
Proof.
  unfold merge_on_game. induction base as [|l base IH]; [done|].
  rewrite bind_cons, filter_app, IH, (filter_cons _ l).
  rewrite (filter_fmap_const _ _ _ (TeamGame.GAME_ID l = g)) by done.
  destruct (decide (TeamGame.GAME_ID l = g)); [by rewrite bind_cons|done].
Qed.

Lemma merge_on_game_filter_r g (base opp : list TeamGame.t) :
  Forall (λ r, TeamGame.GAME_ID r = g) base →
  merge_on_game base (filter (λ r, TeamGame.GAME_ID r = g) opp)
  = merge_on_game base opp.
Proof.
  unfold merge_on_game. induction 1 as [|l base Hl Hbase IH]; [done|].
  rewrite !bind_cons, IH. f_equal. f_equal.
  apply list_filter_filter_l. intros r [Hid _]. congruence.
Qed.

Lemma pair_team_opponent_game g (df : list TeamGame.t) :
  filter (λ p, Paired.GAME_ID p = g) (pair_team_opponent df)
  = pair_team_opponent (filter (λ r, TeamGame.GAME_ID r = g) df).
Proof.
  unfold pair_team_opponent.
  rewrite list_filter_filter.
  rewrite (list_filter_iff _
             (λ p, Paired.TEAM_ID p ≠ Paired.OPP_TEAM_ID p
                   ∧ Paired.GAME_ID p = g)) by (intros p; tauto).
  rewrite <- (list_filter_filter
                (λ p, Paired.TEAM_ID p ≠ Paired.OPP_TEAM_ID p)
                (λ p, Paired.GAME_ID p = g)).
  rewrite merge_on_game_filter_l, merge_on_game_filter_r; [done|].
  apply Forall_forall. by intros r [? _]%list_elem_of_filter.
Qed.

Lemma pair_team_opponent_two (a b : TeamGame.t) :
  TeamGame.GAME_ID a = TeamGame.GAME_ID b →
  pair_team_opponent [a; b] =
    if decide (TeamGame.GAME_DATE a = TeamGame.GAME_DATE b
               ∧ TeamGame.TEAM_ID a ≠ TeamGame.TEAM_ID b)
    then [merged_row a b; merged_row b a] else [].
Proof.
  intros Hid. unfold pair_team_opponent, merge_on_game.
  rewrite !bind_cons. change (@nil TeamGame.t ≫= _) with (@nil Paired.t).
  rewrite app_nil_r.
  rewrite !(filter_cons (same_game _)), !filter_nil.
  rewrite (decide_True (P := same_game a a)) by done.
  rewrite (decide_True (P := same_game b b)) by done.
  destruct (decide (TeamGame.GAME_DATE a = TeamGame.GAME_DATE b)) as [Hd|Hd].
  - rewrite (decide_True (P := same_game a b)) by done.
    rewrite (decide_True (P := same_game b a)) by done.
    simpl. rewrite !filter_cons, filter_nil. simpl.
    rewrite (decide_False (P := TeamGame.TEAM_ID a ≠ TeamGame.TEAM_ID a)) by auto.
    rewrite (decide_False (P := TeamGame.TEAM_ID b ≠ TeamGame.TEAM_ID b)) by auto.
    destruct (decide (TeamGame.TEAM_ID a = TeamGame.TEAM_ID b)) as [Ht|Ht].
    + rewrite (decide_False (P := TeamGame.TEAM_ID a ≠ TeamGame.TEAM_ID b)) by auto.
      rewrite (decide_False (P := TeamGame.TEAM_ID b ≠ TeamGame.TEAM_ID a)) by auto.
      rewrite decide_False; [done|]. by intros [_ ?].
    + rewrite (decide_True (P := TeamGame.TEAM_ID a ≠ TeamGame.TEAM_ID b)) by auto.
      rewrite (decide_True (P := TeamGame.TEAM_ID b ≠ TeamGame.TEAM_ID a)) by auto.
      by rewrite decide_True.
  - rewrite (decide_False (P := same_game a b)) by (by intros [_ ?]).
    rewrite (decide_False (P := same_game b a)) by (by intros [_ ?]).
    simpl. rewrite !filter_cons, filter_nil. simpl.
    rewrite (decide_False (P := TeamGame.TEAM_ID a ≠ TeamGame.TEAM_ID a)) by auto.
    rewrite (decide_False (P := TeamGame.TEAM_ID b ≠ TeamGame.TEAM_ID b)) by auto.
    rewrite decide_False; [done|]. by intros [? _].
Qed.

Lemma pair_team_opponent_elem (df : list TeamGame.t) p :
  p ∈ pair_team_opponent df ↔
  ∃ l r, l ∈ df ∧ r ∈ df ∧ same_game l r
         ∧ TeamGame.TEAM_ID l ≠ TeamGame.TEAM_ID r ∧ p = merged_row l r.
Proof.
  unfold pair_team_opponent, merge_on_game.
  rewrite list_elem_of_filter, list_elem_of_bind. split.
  - intros [Hne (l & Hp & Hl)].
    apply list_elem_of_fmap in Hp as (r & -> & [Hsame Hr]%list_elem_of_filter).
    by exists l, r.
  - intros (l & r & Hl & Hr & Hsame & Hne & ->). split; [done|].
    exists l. split; [|done].
    apply list_elem_of_fmap. exists r. split; [done|].
    by apply list_elem_of_filter.
Qed.


(** C1.  No paired row has a team as its own opponent.  When exactly two
    rows [a] and [b] of the table carry the game identifier [g], of two
    different teams and with the same date, the paired rows of game [g] are
    exactly two: the row of [a], with [a]'s points and possessions as
    PTS_FOR and POSS_FOR and [b]'s as PTS_AGAINST and POSS_AGAINST, and the
    row of [b] with the roles exchanged; each is the one paired row of its
    (team, game). *)
Theorem pair_team_opponent_two_team_game (df : list TeamGame.t) :
  (∀ p, p ∈ pair_team_opponent df → Paired.TEAM_ID p ≠ Paired.OPP_TEAM_ID p)
  ∧ ∀ g a b,
      filter (λ r, TeamGame.GAME_ID r = g) df = [a; b] →
      TeamGame.TEAM_ID a ≠ TeamGame.TEAM_ID b →
      TeamGame.GAME_DATE a = TeamGame.GAME_DATE b →
      let row_of (x y : TeamGame.t) :=
        {| Paired.GAME_ID := g;
           Paired.GAME_DATE := TeamGame.GAME_DATE x;
           Paired.TEAM_ID := TeamGame.TEAM_ID x;
           Paired.TEAM_ABBREVIATION := TeamGame.TEAM_ABBREVIATION x;
           Paired.PTS_FOR := TeamGame.PTS x;
           Paired.POSS_FOR := TeamGame.POSS x;
           Paired.OPP_TEAM_ID := TeamGame.TEAM_ID y;
           Paired.OPP_TEAM_ABBREVIATION := TeamGame.TEAM_ABBREVIATION y;
           Paired.PTS_AGAINST := TeamGame.PTS y;
           Paired.POSS_AGAINST := TeamGame.POSS y |} in
      filter (λ p, Paired.GAME_ID p = g) (pair_team_opponent df)
        = [row_of a b; row_of b a]
      ∧ filter (λ p, Paired.TEAM_ID p = TeamGame.TEAM_ID a
                     ∧ Paired.GAME_ID p = g) (pair_team_opponent df)
        = [row_of a b]
      ∧ filter (λ p, Paired.TEAM_ID p = TeamGame.TEAM_ID b
                     ∧ Paired.GAME_ID p = g) (pair_team_opponent df)
        = [row_of b a].
Proof.
  split.
  { intros p Hp. unfold pair_team_opponent in Hp.
    by apply list_elem_of_filter in Hp as [? _]. }
  intros g a b Hg Hteam Hdate row_of.
  assert (TeamGame.GAME_ID a = g ∧ TeamGame.GAME_ID b = g) as [Ha Hb].
  { assert (a ∈ [a; b]) as Hina by constructor.
    assert (b ∈ [a; b]) as Hinb by (do 2 constructor).
    rewrite <- Hg in Hina, Hinb.
    apply list_elem_of_filter in Hina as [? _].
    by apply list_elem_of_filter in Hinb as [? _]. }
  assert (filter (λ p, Paired.GAME_ID p = g) (pair_team_opponent df)
          = [row_of a b; row_of b a]) as Hpairs.
  { rewrite pair_team_opponent_game, Hg.
    rewrite pair_team_opponent_two by congruence.
    rewrite decide_True by done.
    unfold merged_row, row_of. by rewrite Ha, Hb, Hdate. }
  split; [done|].
  rewrite <- !(list_filter_filter _ (λ p, Paired.GAME_ID p = g)), Hpairs.
  rewrite !filter_cons, !filter_nil. simpl.
  split; repeat case_decide; congruence.
Qed.

(** The example of the specification: Team A's paired row has PTS_FOR 100
    and PTS_AGAINST 90, Team B's has PTS_FOR 90 and PTS_AGAINST 100. *)
Lemma pair_team_opponent_two_team_game_witness :
  filter (λ p, Paired.GAME_ID p = 1) (pair_team_opponent example_game)
    = [ {| Paired.GAME_ID := 1; Paired.GAME_DATE := Some 0;
           Paired.TEAM_ID := 1; Paired.TEAM_ABBREVIATION := "A";
           Paired.PTS_FOR := 100; Paired.POSS_FOR := 95;
           Paired.OPP_TEAM_ID := 2; Paired.OPP_TEAM_ABBREVIATION := "B";
           Paired.PTS_AGAINST := 90; Paired.POSS_AGAINST := 95 |};
        {| Paired.GAME_ID := 1; Paired.GAME_DATE := Some 0;
           Paired.TEAM_ID := 2; Paired.TEAM_ABBREVIATION := "B";
           Paired.PTS_FOR := 90; Paired.POSS_FOR := 95;
           Paired.OPP_TEAM_ID := 1; Paired.OPP_TEAM_ABBREVIATION := "A";
           Paired.PTS_AGAINST := 100; Paired.POSS_AGAINST := 95 |} ].
Proof.
  apply (proj2 (pair_team_opponent_two_team_game example_game) 1 team_a team_b).
  - reflexivity.
  - vm_compute. discriminate.
  - reflexivity.
Defined.

(** C10.  Every paired row joins two rows of the table that agree on the
    game identifier and on the date; so when the two rows of a game carry
    different dates, the paired table has no row of that game, for either
    team. *)
Theorem pair_team_opponent_needs_equal_dates (df : list TeamGame.t) :
  (∀ p, p ∈ pair_team_opponent df →
     ∃ l r, l ∈ df ∧ r ∈ df
       ∧ TeamGame.GAME_ID l = TeamGame.GAME_ID r
       ∧ TeamGame.GAME_DATE l = TeamGame.GAME_DATE r
       ∧ Paired.GAME_ID p = TeamGame.GAME_ID l
       ∧ Paired.TEAM_ID p = TeamGame.TEAM_ID l
       ∧ Paired.OPP_TEAM_ID p = TeamGame.TEAM_ID r)
  ∧ ∀ g a b,
      filter (λ r, TeamGame.GAME_ID r = g) df = [a; b] →
      TeamGame.GAME_DATE a ≠ TeamGame.GAME_DATE b →
      filter (λ p, Paired.GAME_ID p = g) (pair_team_opponent df) = [].
Proof.
  split.
  - intros p (l & r & Hl & Hr & [Hid Hdate] & _ & ->)%pair_team_opponent_elem.
    by exists l, r.
  - intros g a b Hg Hdate.
    assert (TeamGame.GAME_ID a = g ∧ TeamGame.GAME_ID b = g) as [Ha Hb].
    { assert (a ∈ [a; b]) as Hina by constructor.
      assert (b ∈ [a; b]) as Hinb by (do 2 constructor).
      rewrite <- Hg in Hina, Hinb.
      apply list_elem_of_filter in Hina as [? _].
      by apply list_elem_of_filter in Hinb as [? _]. }
    rewrite pair_team_opponent_game, Hg.
    rewrite pair_team_opponent_two by congruence.
    apply decide_False. by intros [? _].
Qed.

Lemma pair_team_opponent_needs_equal_dates_witness :
  filter (λ p, Paired.GAME_ID p = 1) (pair_team_opponent misdated_game) = [].
Proof.
  apply (proj2 (pair_team_opponent_needs_equal_dates misdated_game)
           1 team_a team_b_next_day).
  - reflexivity.
  - vm_compute. discriminate.
Defined.

(** ** Aggregation with defense *)

Lemma groupby_team_elem (df : list Paired.t) g :
  g ∈ groupby_team df ↔
  ∃ p, p ∈ df ∧ g = (group_key p, filter (λ q, group_key q = group_key p) df).
Proof.
  unfold groupby_team. rewrite list_elem_of_fmap. split.
  - intros (k & -> & Hk). rewrite stable_sort_perm in Hk.
    apply elem_of_remove_dups, list_elem_of_fmap in Hk as (p & -> & Hp).
    by exists p.
  - intros (p & Hp & ->). exists (group_key p). split; [done|].
    rewrite stable_sort_perm. apply elem_of_remove_dups, list_elem_of_fmap.
    by exists p.
Qed.

Lemma groupby_team_keys (df : list Paired.t) :
  NoDup ((λ g, (Ratings.TEAM_ID g, Ratings.TEAM_ABBREVIATION g))
           <$> (ratings_row <$> groupby_team df)).
Proof.
  unfold groupby_team. rewrite <- !list_fmap_compose.
  generalize (stable_sort_perm group_key_leb (remove_dups (group_key <$> df))).
  generalize (stable_sort group_key_leb (remove_dups (group_key <$> df))).
  intros keys Hkeys.
  replace (_ <$> keys) with keys.
  - rewrite Hkeys. apply NoDup_remove_dups.
  - clear Hkeys. induction keys as [|[t a] keys IH]; [done|].
    rewrite fmap_cons, <- IH. reflexivity.
Qed.

(** ** The sum of a group and the rows of a window *)

Lemma kahan_sums_from st vals : sums_from st vals (foldl kahan_step st vals).
Proof.
  revert st. induction vals as [|v vals IH]; intros [s c]; simpl.
  - constructor.
  - destruct (is_nan v) eqn:Hv.
    + by apply sums_from_skip.
    + apply sums_from_add; [done|]. simpl. apply IH.
Qed.

Lemma group_sum_sums_to vals : sums_to vals (group_sum vals).
Proof.
  unfold sums_to, group_sum.
  pose proof (kahan_sums_from (0%float, 0%float) vals) as H.
  destruct (foldl kahan_step (0%float, 0%float) vals) as [s c]. by exists c.
Qed.

Lemma sums_from_unique st vals st' :
  sums_from st vals st' → st' = foldl kahan_step st vals.
Proof.
  induction 1 as [st|st v vals st' Hv _ IH|s c v vals st' Hv _ IH]; simpl.
  - done.
  - destruct st as [s c]. simpl. by rewrite Hv.
  - by rewrite Hv.
Qed.

Lemma sums_to_unique vals total : sums_to vals total → total = group_sum vals.
Proof.
  intros [comp H%sums_from_unique]. unfold group_sum. by rewrite <- H.
Qed.

Section WindowRows.
Context {R : Type} {TG : TeamGames R}.

Lemma newest_first_take k t (rows : list R) :
  newest_first (team_rows t rows)
    (take k (stable_sort newer_leb (team_rows t rows)))
    (drop k (stable_sort newer_leb (team_rows t rows))).
Proof.
  unfold newest_first. rewrite take_drop. split; [apply stable_sort_perm|].
  split.
  - apply (stable_sort_sorted newer_leb); unfold newer_leb;
      [intros a b; apply date_desc_leb_total
      |intros a b c; apply date_desc_leb_trans].
  - intros d. apply stable_sort_filter.
    intros a b Ha Hb. unfold newer_leb. rewrite Ha, Hb.
    destruct d; simpl; [apply Z.leb_refl|done].
Qed.

(** The rows of a team in a windowed table, for the two ways a window is
    applied: the whole sorted table, or its cut by [groupby_head]. *)
Lemma windowed_team_rows (rows windowed : list R) (window : string) t :
  (window = "SEASON" ∧ windowed = sort_values_team_date rows)
  ∨ (∃ n, window_count window = Some n ∧ window ≠ "SEASON"
          ∧ windowed = groupby_head n (sort_values_team_date rows)) →
  ∃ dropped,
    newest_first (team_rows t rows) (team_rows t windowed) dropped
    ∧ ∀ m, window_keeps window (length (team_rows t rows)) m →
           length (team_rows t windowed) = m.
Proof.
  intros [[-> ->]|(n & Hn & Hne & ->)].
  - exists []. rewrite team_rows_sort_values.
    pose proof (newest_first_take (length (team_rows t rows)) t rows) as H.
    rewrite <- (stable_sort_length newer_leb) in H.
    rewrite firstn_all, drop_all in H. split; [done|].
    intros m Hm. rewrite stable_sort_length.
    by inversion Hm.
  - unfold groupby_head. rewrite team_rows_head_rows, team_rows_sort_values.
    eexists. split; [apply newest_first_take|].
    intros m Hm. inversion Hm as [count Hw|s k count Hs Hw]; [done|].
    subst. rewrite (window_count_last s k Hs) in Hn. injection Hn as <-.
    rewrite length_take, stable_sort_length.
    pose proof (decimal_nonneg s k Hs).
    destruct (Z.leb_spec 0 k); [|lia]. f_equal. lia.
Qed.
End WindowRows.

Lemma windowed_pairs_Ok df window paired :
  windowed_pairs df window = Ok paired →
  (window = "SEASON"
   ∧ paired = sort_values_team_date (pair_team_opponent df))
  ∨ (∃ n, window_count window = Some n ∧ window ≠ "SEASON"
          ∧ paired = groupby_head n
                       (sort_values_team_date (pair_team_opponent df))).
Proof.
  unfold windowed_pairs, window_count.
  destruct (decide (window ≠ "SEASON")) as [Hne|Heq].
  - destruct (startswith window "LAST_"); [|done].
    destruct (split "_" window !! 1%nat) as [text|]; [|done]. simpl.
    destruct (py_int text) as [n|]; [|done].
    intros [= <-]. right. by exists n.
  - apply dec_stable in Heq. intros [= <-]. by left.
Qed.

Lemma group_of_team (paired : list Paired.t) t a :
  filter (λ p, group_key p = (t, a)) paired
  = filter (λ p, Paired.TEAM_ABBREVIATION p = a) (team_rows t paired).
Proof.
  unfold team_rows. rewrite list_filter_filter. apply list_filter_iff.
  intros p. unfold group_key. simpl. split.
  - by intros [= -> ->].
  - by intros [-> ->].
Qed.

(** C2.  When [aggregate_team_with_defense] returns a table, no two of
    its rows have the same (team, abbreviation), and for every team the
    rows it is computed from are these: the team's paired rows put newest
    first (rows of one date in table order), of which the window keeps
    the first ones, all of them for "SEASON" and min(N, count) for
    "LAST_N".  The team has a row in the table exactly when it keeps
    a row, and in that row GAMES is the number of rows kept, PTS_FOR,
    PTS_AGAINST, POSS_FOR and POSS_AGAINST are the sums of these columns
    over the rows kept (added in that order, NaN skipped), and
    ORtg = 100 * PTS_FOR / POSS_FOR, DRtg = 100 * PTS_AGAINST / POSS_AGAINST
    with a denominator equal to zero replaced by NaN,
    NET_RTG = ORtg - DRtg and PACE = POSS_FOR / GAMES. *)
Theorem aggregate_team_with_defense_formulas
    (df : list TeamGame.t) (window : string) (out : list Ratings.t) :
  aggregate_team_with_defense df window = Ok out →
  NoDup ((λ g, (Ratings.TEAM_ID g, Ratings.TEAM_ABBREVIATION g)) <$> out)
  ∧ ∀ t, ∃ kept dropped,
      newest_first (team_rows t (pair_team_opponent df)) kept dropped
      ∧ (∀ m, window_keeps window
                (length (team_rows t (pair_team_opponent df))) m →
              length kept = m)
      ∧ ∀ a,
          let games := filter (λ p, Paired.TEAM_ABBREVIATION p = a) kept in
          (games = [] →
             ∀ g, g ∈ out →
               (Ratings.TEAM_ID g, Ratings.TEAM_ABBREVIATION g) ≠ (t, a))
          ∧ (games ≠ [] →
               ∃ g, g ∈ out
                 ∧ Ratings.TEAM_ID g = t
                 ∧ Ratings.TEAM_ABBREVIATION g = a
                 ∧ Ratings.GAMES g = Z.of_nat (length games)
                 ∧ sums_to (Paired.PTS_FOR <$> games) (Ratings.PTS_FOR g)
                 ∧ sums_to (Paired.PTS_AGAINST <$> games) (Ratings.PTS_AGAINST g)
                 ∧ sums_to (Paired.POSS_FOR <$> games) (Ratings.POSS_FOR g)
                 ∧ sums_to (Paired.POSS_AGAINST <$> games) (Ratings.POSS_AGAINST g)
                 ∧ Ratings.ORtg g
                   = (100 * Ratings.PTS_FOR g
                      / (if is_zero (Ratings.POSS_FOR g) then nan
                         else Ratings.POSS_FOR g))%float
                 ∧ Ratings.DRtg g
                   = (100 * Ratings.PTS_AGAINST g
                      / (if is_zero (Ratings.POSS_AGAINST g) then nan
                         else Ratings.POSS_AGAINST g))%float
                 ∧ Ratings.NET_RTG g = (Ratings.ORtg g - Ratings.DRtg g)%float
                 ∧ Ratings.PACE g
                   = (Ratings.POSS_FOR g / float_of_Z (Ratings.GAMES g))%float).
Proof.
  unfold aggregate_team_with_defense. intros Hagg.
  destruct (windowed_pairs df window) as [paired|] eqn:Hw; [|done].
  injection Hagg as <-. split; [apply groupby_team_keys|].
  intros t.
  destruct (windowed_team_rows (pair_team_opponent df) paired window t
              (windowed_pairs_Ok df window paired Hw)) as (dropped & Hnew & Hlen).
  exists (team_rows t paired), dropped. split; [done|]. split; [done|].
  intros a. simpl. rewrite <- group_of_team. split.
  - intros Hnil g (grp & -> & (p & Hp & ->)%groupby_team_elem)%list_elem_of_fmap.
    simpl. intros Hkey.
    assert (p ∈ filter (λ q, group_key q = (t, a)) paired) as Hin
      by (by apply list_elem_of_filter).
    rewrite Hnil in Hin. by apply elem_of_nil in Hin.
  - intros Hne.
    destruct (filter (λ q, group_key q = (t, a)) paired) as [|p games] eqn:Hg;
      [done|].
    assert (p ∈ filter (λ q, group_key q = (t, a)) paired) as Hp
      by (rewrite Hg; apply elem_of_cons; by left).
    apply list_elem_of_filter in Hp as [Hkey Hp].
    exists (ratings_row (group_key p,
              filter (λ q, group_key q = group_key p) paired)).
    split; [apply list_elem_of_fmap_2, groupby_team_elem; eauto|].
    rewrite Hkey, Hg. simpl.
    unfold replace_zero, replace_zero_count.
    destruct (Z.eqb_spec (Z.pos (Pos.of_succ_nat (length games))) 0); [lia|].
    repeat split; apply group_sum_sums_to.
Qed.

(** The example of the specification, one game in the table: Team A's
    offensive rating is 100*100/95, its defensive rating 100*90/95, its net
    rating their difference. *)
Example aggregate_example_game :
  aggregate_team_with_defense example_game "SEASON" = Ok example_ratings.
Proof. vm_compute. reflexivity. Qed.

Lemma aggregate_team_with_defense_formulas_witness :
  ∃ out a,
    aggregate_team_with_defense example_game "SEASON" = Ok out
    ∧ a ∈ out
    ∧ Ratings.TEAM_ID a = 1
    ∧ Ratings.ORtg a = (100 * 100 / 95)%float
    ∧ Ratings.DRtg a = (100 * 90 / 95)%float
    ∧ Ratings.NET_RTG a = (100 * 100 / 95 - 100 * 90 / 95)%float.
Proof.
  destruct (aggregate_team_with_defense example_game "SEASON")
    as [out|] eqn:Hagg; [|by vm_compute in Hagg].
  exists out.
  destruct (aggregate_team_with_defense_formulas example_game "SEASON" out Hagg) as [_ Hteam].
  destruct (Hteam 1) as (kept & dropped & (Hperm & _ & _) & Hlen & Hrow).
  assert (length kept = 1%nat) as Hone
    by (apply Hlen; apply (window_keeps_season 1)).
  assert (kept = [merged_row team_a team_b]) as ->.
  { change (team_rows 1 (pair_team_opponent example_game))
      with [merged_row team_a team_b] in Hperm.
    apply Permutation_singleton_r in Hperm.
    destruct kept as [|p [|q kept]]; simpl in Hone; try discriminate.
    by injection Hperm as ->. }
  destruct (Hrow "A"%string) as [_ Hg].
  destruct Hg as (g & Hg & Hid & _ & _ & Hpf & Hpa & Hqf & Hqa
                    & Hortg & Hdrtg & Hnet & _); [done|].
  exists g. split; [done|]. split; [done|]. split; [done|].
  apply sums_to_unique in Hpf, Hpa, Hqf, Hqa.
  rewrite Hnet, Hortg, Hdrtg, Hpf, Hpa, Hqf, Hqa. by vm_compute.
Defined.

(** The example of the specification: a team with eight games keeps its
    five most recent under "LAST_5", a team with three games keeps all
    three. *)
Example window_sample_last_5 :
  apply_time_window_team_games window_sample "LAST_5" =
  Ok [ game_on 1 8; game_on 1 7; game_on 1 6; game_on 1 5; game_on 1 4;
       game_on 2 7; game_on 2 5; game_on 2 2 ].
Proof. vm_compute. reflexivity. Qed.


(** ** Tables with named columns *)

Lemma map_rows_Ok {A B} (f : A → result B) l l' :
  map_rows f l = Ok l' ↔ Forall2 (λ x y, f x = Ok y) l l'.
Proof.
  revert l'. induction l as [|x l IH]; intros l'; simpl.
  - split; [intros [= <-]; constructor | by inversion 1].
  - split.
    + destruct (f x) as [y|] eqn:Hx; [|done]. simpl.
      destruct (map_rows f l) as [ys|] eqn:Hl; [|done]. simpl.
      intros [= <-]. constructor; [done|]. by apply IH.
    + inversion 1 as [|? y ? ys Hx Hl]; subst.
      rewrite Hx. simpl. apply IH in Hl. by rewrite Hl.
Qed.

Lemma map_rows_total {A B} (f : A → result B) l :
  Forall (λ x, ∃ y, f x = Ok y) l → ∃ l', map_rows f l = Ok l'.
Proof.
  induction 1 as [|x l [y Hx] _ [ys Hl]]; simpl; [by eexists|].
  rewrite Hx. simpl. rewrite Hl. by eexists.
Qed.

Lemma map_rows_length {A B} (f : A → result B) l l' :
  map_rows f l = Ok l' → length l' = length l.
Proof. intros Hl%map_rows_Ok. symmetry. by eapply Forall2_length. Qed.

Lemma map_rows_ext {A B} (f g : A → result B) l :
  (∀ x, f x = g x) → map_rows f l = map_rows g l.
Proof. intros Hfg. induction l as [|x l IH]; simpl; [done|]. by rewrite Hfg, IH. Qed.

Lemma map_rows_compose {A B C} (f : A → result B) (g : B → result C) l l2 :
  map_rows (λ x, f x ≫= g) l = Ok l2 ↔
  ∃ l1, map_rows f l = Ok l1 ∧ map_rows g l1 = Ok l2.
Proof.
  revert l2. induction l as [|x l IH]; intros l2; simpl.
  - split; [intros [= <-]; by exists []|by intros (l1 & [= <-] & ?)].
  - destruct (f x) as [y|]; simpl; [|split; [done|by intros (? & ? & ?)]].
    split.
    + destruct (g y) as [z|] eqn:Hz; simpl; [|done].
      destruct (map_rows (λ x, f x ≫= g) l) as [zs|]; simpl; [|done].
      intros [= <-]. destruct (proj1 (IH zs) eq_refl) as (ys & Hys & Hzs).
      exists (y :: ys). rewrite Hys. simpl. by rewrite Hz, Hzs.
    + intros (l1 & Hl1 & Hl2).
      destruct (map_rows f l) as [ys|]; simpl in Hl1; [|done].
      injection Hl1 as <-. simpl in Hl2.
      destruct (g y) as [z|]; simpl in *; [|done].
      destruct (map_rows g ys) as [zs|] eqn:Hzs; simpl in Hl2; [|done].
      assert (map_rows (λ x, f x ≫= g) l = Ok zs) as -> by (apply IH; eauto).
      by injection Hl2 as <-.
Qed.

Lemma map_rows_lookup {A B} (f : A → result B) l l' i x :
  map_rows f l = Ok l' → l !! i = Some x → ∃ y, l' !! i = Some y ∧ f x = Ok y.
Proof.
  intros Hl%map_rows_Ok Hx.
  destruct (Forall2_lookup_l _ _ _ _ _ Hl Hx) as (y & ? & ?). eauto.
Qed.

Lemma assign_Ok_rows target uses expr df df' :
  assign target uses expr df = Ok df' ↔
  Forall (λ c, c ∈ columns df) uses
  ∧ columns df' = with_column target (columns df)
  ∧ map_rows (λ r, v ← expr r; Ok (<[target := v]> r)) (rows df)
    = Ok (rows df').
Proof.
  unfold assign.
  destruct (list_find (λ c, c ∉ columns df) uses) as [[i c]|] eqn:Hfind.
  - apply list_find_Some in Hfind as (Hi & Hc & _). split; [done|].
    intros [Huses _]. apply list_elem_of_lookup_2 in Hi.
    by eapply Forall_forall in Huses.
  - assert (Forall (λ c, c ∈ columns df) uses) as Huses.
    { apply Forall_forall. intros c Hc.
      eapply list_find_None, Forall_forall in Hfind; [|exact Hc].
      by apply dec_stable. }
    destruct (map_rows _ (rows df)) as [rows'|]; simpl.
    + split; [by intros [= <-]|].
      intros (_ & Hcols & [= ->]). destruct df'. simpl in *. by subst.
    + split; [done|]. by intros (_ & _ & ?).
Qed.

Lemma with_column_elem c cols : c ∈ with_column c cols.
Proof.
  unfold with_column. destruct (decide (c ∈ cols)); [done|].
  apply elem_of_app. right. constructor.
Qed.

Lemma with_column_mono c c' cols : c' ∈ cols → c' ∈ with_column c cols.
Proof.
  unfold with_column. destruct (decide (c ∈ cols)); [done|].
  intros. apply elem_of_app. by left.
Qed.

Lemma with_column_present c cols : c ∈ cols → with_column c cols = cols.
Proof. unfold with_column. intros. by rewrite decide_True. Qed.

Lemma number_insert_eq (r : Row) c x : number (<[c := CFloat x]> r) c = Ok x.
Proof. unfold number, cell. by rewrite lookup_insert_eq. Qed.

Lemma number_insert_ne (r : Row) c c' v :
  c' ≠ c → number (<[c' := v]> r) c = number r c.
Proof. intros. unfold number, cell. by rewrite lookup_insert_ne. Qed.

(** ** Row-level derived fields *)


Lemma add_possessions_Ok df df' :
  add_possessions df = Ok df' ↔
  Forall (λ c, c ∈ columns df) ["FGA"; "FTA"; "OREB"; "TOV"]%string
  ∧ columns df' = with_column "POSS" (columns df)
  ∧ map_rows possessions_row (rows df) = Ok (rows df').
Proof.
  unfold add_possessions.
  set (e1 := λ r : Row, fga ← number r "FGA"; fta ← number r "FTA";
                        oreb ← number r "OREB"; tov ← number r "TOV";
                        Ok (CFloat (possessions fga fta oreb tov))).
  set (e2 := λ r : Row, poss ← number r "POSS"; Ok (CFloat (replace_inf poss))).
  assert (∀ r, (λ r, v ← e1 r; Ok (<["POSS" := v]> r)) r
               ≫= (λ r, v ← e2 r; Ok (<["POSS" := v]> r))
               = possessions_row r) as Hrow.
  { intros r. unfold e1, e2, possessions_row.
    destruct (number r "FGA"); simpl; [|done].
    destruct (number r "FTA"); simpl; [|done].
    destruct (number r "OREB"); simpl; [|done].
    destruct (number r "TOV"); simpl; [|done].
    rewrite number_insert_eq. simpl. by rewrite insert_insert_eq. }
  rewrite <- (map_rows_ext _ _ _ Hrow), map_rows_compose.
  destruct (assign "POSS" _ e1 df) as [d1|] eqn:H1; simpl.
  - apply assign_Ok_rows in H1 as (Huses & Hcols & Hrows).
    rewrite assign_Ok_rows, Hcols.
    rewrite (with_column_present "POSS" (with_column _ _))
      by apply with_column_elem.
    split.
    + intros (_ & ? & ?). eauto.
    + intros (_ & ? & (rows1 & Hrows1 & ?)). split; [|split; [done|]].
      * repeat constructor. apply with_column_elem.
      * congruence.
  - split; [done|]. intros (Huses & Hcols & (rows1 & Hrows1 & _)).
    assert (assign "POSS" ["FGA"; "FTA"; "OREB"; "TOV"]%string e1 df
            = Ok {| columns := with_column "POSS" (columns df); rows := rows1 |})
      as H1' by (by apply assign_Ok_rows).
    congruence.
Qed.


Lemma with_columns_elem c cols adds :
  c ∈ foldl (λ cols c, with_column c cols) cols adds ↔ c ∈ cols ∨ c ∈ adds.
Proof.
  revert cols. induction adds as [|a adds IH]; intros cols; simpl.
  - rewrite elem_of_nil. tauto.
  - rewrite IH, elem_of_cons. unfold with_column.
    destruct (decide (a ∈ cols)) as [Ha|Ha].
    + split; [tauto|]. intros [?|[->|?]]; tauto.
    + rewrite elem_of_app, list_elem_of_singleton. tauto.
Qed.

Lemma rowwise_assign target uses expr :
  rowwise (assign target uses expr) uses [target]
    (λ r, v ← expr r; Ok (<[target := v]> r)).
Proof. intros df df'. apply assign_Ok_rows. Qed.

Lemma rowwise_seq F G n1 a1 f n2 a2 g :
  rowwise F n1 a1 f → rowwise G n2 a2 g →
  rowwise (λ df, F df ≫= G)
    (n1 ++ filter (λ c, c ∉ a1) n2) (a1 ++ a2) (λ r, f r ≫= g).
Proof.
  intros HF HG df df'. rewrite Forall_app, foldl_app, map_rows_compose.
  destruct (F df) as [d1|] eqn:H1; simpl.
  - apply HF in H1 as (Hn1 & Hcols1 & Hrows1).
    rewrite (HG d1 df'), Hcols1. split.
    + intros (Hn2 & Hcols & Hrows). repeat split; try done; [|eauto].
      apply Forall_forall. intros c [Hc Hin]%list_elem_of_filter.
      eapply Forall_forall in Hn2; [|exact Hin].
      apply with_columns_elem in Hn2. tauto.
    + intros ((_ & Hn2) & Hcols & (rows1 & Hrows1' & Hrows)).
      assert (rows1 = rows d1) as -> by congruence.
      repeat split; try done.
      apply Forall_forall. intros c Hc. apply with_columns_elem.
      destruct (decide (c ∈ a1)); [by right|left].
      eapply Forall_forall in Hn2; [exact Hn2|]. by apply list_elem_of_filter.
  - split; [done|]. intros ((Hn1 & _) & _ & (rows1 & Hrows1 & _)).
    assert (F df = Ok {| columns := foldl (λ cols c, with_column c cols)
                                      (columns df) a1;
                         rows := rows1 |}) as H1' by (by apply HF).
    congruence.
Qed.

Lemma rowwise_ext F need adds f f' :
  (∀ r, f r = f' r) → rowwise F need adds f → rowwise F need adds f'.
Proof.
  intros Hf HF df df'. rewrite (HF df df').
  by rewrite (map_rows_ext f f' _ Hf).
Qed.

Lemma add_shooting_metrics_rowwise :
  rowwise add_shooting_metrics
    ["FGM"; "FG3M"; "FGA"; "PTS"; "FGA"; "FTA"]%string
    ["eFG"; "TS"; "eFG"; "TS"]%string shooting_row.
Proof.
  eapply rowwise_ext;
    [|exact (rowwise_seq _ _ _ _ _ _ _ _
               (rowwise_assign _ _ _)
               (rowwise_seq _ _ _ _ _ _ _ _
                  (rowwise_assign _ _ _)
                  (rowwise_seq _ _ _ _ _ _ _ _
                     (rowwise_assign _ _ _) (rowwise_assign _ _ _))))].
  intros r. unfold shooting_row. simpl.
  destruct (number r "FGM") as [fgm|]; simpl; [|done].
  destruct (number r "FG3M") as [fg3m|]; simpl; [|done].
  destruct (number r "FGA") as [fga|] eqn:Hfga; simpl; [|done].
  rewrite !number_insert_ne, Hfga by done.
  destruct (number r "PTS") as [pts|]; simpl; [|done].
  destruct (number r "FTA") as [fta|]; simpl; [|done].
  rewrite number_insert_ne, number_insert_eq by done. simpl.
  rewrite number_insert_ne, number_insert_eq by done. simpl.
  f_equal. apply map_eq. intros c.
  destruct (decide (c = "TS")) as [->|Hts]; [by rewrite !lookup_insert_eq|].
  rewrite !(lookup_insert_ne _ "TS") by done.
  destruct (decide (c = "eFG")) as [->|Hefg]; [by rewrite !lookup_insert_eq|].
  rewrite !(lookup_insert_ne _ "eFG") by done.
  rewrite !(lookup_insert_ne _ "TS") by done.
  by rewrite !(lookup_insert_ne _ "eFG") by done.
Qed.

(** ** float64 facts *)

Lemma div_nan_r x : (x / nan)%float = nan.
Proof.
  apply Prim2SF_inj. rewrite div_spec.
  change (Prim2SF nan) with S754_nan. by destruct (Prim2SF x).
Qed.

Lemma mul_nan_r x : (x * nan)%float = nan.
Proof.
  apply Prim2SF_inj. rewrite mul_spec.
  change (Prim2SF nan) with S754_nan. by destruct (Prim2SF x).
Qed.

Lemma is_zero_spec x : is_zero x = true ↔ ∃ s, Prim2SF x = S754_zero s.
Proof.
  unfold is_zero. rewrite FloatAxioms.eqb_spec.
  change (Prim2SF zero) with (S754_zero false).
  destruct (Prim2SF x) as [s|s| |s m e]; simpl.
  - split; eauto.
  - split; [by destruct s|intros [? [=]]].
  - split; [done|intros [? [=]]].
  - split; [by destruct s|intros [? [=]]].
Qed.

(** 0.44 times a zero is a zero, and a zero plus a zero is a zero. *)
Lemma free_throw_term_zero fga fta :
  is_zero fga = true → is_zero fta = true →
  is_zero (fga + 0.44 * fta) = true.
Proof.
  rewrite !is_zero_spec. intros [s Hs] [s' Hs'].
  rewrite add_spec, mul_spec, Hs, Hs'.
  change (Prim2SF 0.44) with (S754_finite false 7926335344172073 (-54)).
  simpl. destruct s, s'; simpl; eauto.
Qed.

Lemma efg_zero_fga fgm fg3m fga :
  is_zero fga = true → replace_inf (efg fgm fg3m fga) = nan.
Proof.
  intros Hz. unfold efg, replace_zero. rewrite Hz, div_nan_r. reflexivity.
Qed.

Lemma ts_zero_denominator pts fga fta :
  is_zero (fga + 0.44 * fta) = true → replace_inf (ts pts fga fta) = nan.
Proof.
  intros Hz. unfold ts, replace_zero. rewrite Hz, mul_nan_r, div_nan_r.
  reflexivity.
Qed.

Lemma CFloat_nan_ne x : is_nan x = false → CFloat x ≠ CFloat nan.
Proof.
  intros Hx Hnan.
  apply (f_equal (λ c, match c with CFloat x => is_nan x | _ => false end))
    in Hnan.
  rewrite Hx in Hnan. vm_compute in Hnan. discriminate.
Qed.

(** ** Possessions and shooting metrics *)


Lemma add_possessions_total df :
  numeric ["FGA"; "FTA"; "OREB"; "TOV"]%string df →
  ∃ df', add_possessions df = Ok df'.
Proof.
  intros [Hcols Hrows].
  destruct (map_rows_total possessions_row (rows df)) as [rows' Hrows'].
  { eapply Forall_impl; [exact Hrows|]. intros r Hr.
    apply Forall_cons in Hr as [[fga Hfga] Hr].
    apply Forall_cons in Hr as [[fta Hfta] Hr].
    apply Forall_cons in Hr as [[oreb Horeb] Hr].
    apply Forall_cons in Hr as [[tov Htov] _].
    unfold possessions_row. rewrite Hfga, Hfta, Horeb, Htov. simpl. eauto. }
  exists {| columns := with_column "POSS" (columns df); rows := rows' |}.
  by apply add_possessions_Ok.
Qed.

Lemma add_shooting_metrics_total df :
  numeric ["FGM"; "FG3M"; "FGA"; "PTS"; "FTA"]%string df →
  ∃ df', add_shooting_metrics df = Ok df'.
Proof.
  intros [Hcols Hrows].
  destruct (map_rows_total shooting_row (rows df)) as [rows' Hrows'].
  { eapply Forall_impl; [exact Hrows|]. intros r Hr.
    apply Forall_cons in Hr as [[fgm Hfgm] Hr].
    apply Forall_cons in Hr as [[fg3m Hfg3m] Hr].
    apply Forall_cons in Hr as [[fga Hfga] Hr].
    apply Forall_cons in Hr as [[pts Hpts] Hr].
    apply Forall_cons in Hr as [[fta Hfta] _].
    unfold shooting_row. rewrite Hfgm, Hfg3m, Hfga, Hpts, Hfta. simpl. eauto. }
  eexists {| columns := _; rows := rows' |}.
  apply add_shooting_metrics_rowwise. simpl. split; [|done].
  apply Forall_cons in Hcols as [Hfgm Hcols].
  apply Forall_cons in Hcols as [Hfg3m Hcols].
  apply Forall_cons in Hcols as [Hfga Hcols].
  apply Forall_cons in Hcols as [Hpts Hcols].
  apply Forall_cons in Hcols as [Hfta _].
  repeat constructor; done.
Qed.

(** C7, as the code has it.  On a table whose FGA, FTA, OREB and TOV
    columns hold numbers, [add_possessions] succeeds, keeps every other
    cell, and gives every row the POSS value FGA + 0.44*FTA - OREB + TOV
    computed in float64; a result of plus or minus infinity is replaced by
    NaN. *)
Theorem add_possessions_formula (df : DataFrame) :
  numeric ["FGA"; "FTA"; "OREB"; "TOV"]%string df →
  ∃ df',
    add_possessions df = Ok df'
    ∧ columns df' = with_column "POSS" (columns df)
    ∧ length (rows df') = length (rows df)
    ∧ ∀ i r fga fta oreb tov,
        rows df !! i = Some r →
        number r "FGA" = Ok fga → number r "FTA" = Ok fta →
        number r "OREB" = Ok oreb → number r "TOV" = Ok tov →
        ∃ r',
          rows df' !! i = Some r'
          ∧ (∀ c, c ≠ "POSS"%string → r' !! c = r !! c)
          ∧ r' !! "POSS"%string
            = Some (CFloat (let poss := (fga + 0.44 * fta - oreb + tov)%float in
                            if is_infinity poss then nan else poss)).
Proof.
  intros Hnum. destruct (add_possessions_total df Hnum) as [df' Hdf'].
  exists df'. split; [done|].
  apply add_possessions_Ok in Hdf' as (_ & Hcols & Hrows).
  split; [done|]. split; [by eapply map_rows_length|].
  intros i r fga fta oreb tov Hr Hfga Hfta Horeb Htov.
  destruct (map_rows_lookup _ _ _ _ _ Hrows Hr) as (r' & Hr' & Hrow).
  exists r'. split; [done|].
  unfold possessions_row in Hrow.
  rewrite Hfga, Hfta, Horeb, Htov in Hrow. simpl in Hrow.
  injection Hrow as <-. split.
  - intros c Hc. by rewrite lookup_insert_ne.
  - by rewrite lookup_insert_eq.
Qed.

(** The example of the specification: FGA 80, FTA 20, OREB 10 and TOV 15
    give 93.8 possessions. *)
Lemma add_possessions_formula_witness :
  ∃ df' r',
    add_possessions possessions_example = Ok df'
    ∧ rows df' = [r']
    ∧ r' !! "POSS"%string = Some (CFloat 93.8).
Proof.
  destruct (add_possessions_formula possessions_example)
    as (df' & Hdf' & _ & Hlen & Hrow).
  - split; [by vm_compute; repeat constructor|].
    repeat constructor; eexists; vm_compute; reflexivity.
  - destruct (Hrow 0%nat (raw_row 1 0 1 "A" 100 80 40 25 10 20 15 10 30 25 15 240)
                80%float 20%float 10%float 15%float)
      as (r' & Hr' & _ & Hposs); try reflexivity.
    exists df', r'. split; [exact Hdf'|]. split; [|exact Hposs].
    destruct (rows df') as [|r0 [|r1 rs]]; try discriminate Hlen.
    by injection Hr' as ->.
Defined.

(** C7 as stated fails on a row whose formula overflows: FGA and TOV of
    1e308 add up to infinity in float64, and the code stores NaN. *)
Lemma add_possessions_overflow :
  ∃ df' r',
    add_possessions overflow_table = Ok df'
    ∧ rows df' = [r']
    ∧ r' !! "POSS"%string = Some (CFloat nan)
    ∧ (1e308 + 0.44 * 0 - 0 + 1e308)%float = infinity
    ∧ CFloat nan ≠ CFloat infinity.
Proof.
  eexists _, _. split; [vm_compute; reflexivity|].
  split; [reflexivity|]. split; [vm_compute; reflexivity|].
  split; [vm_compute; reflexivity|].
  intros Hnan.
  apply (f_equal (λ c, match c with CFloat x => is_nan x | _ => false end))
    in Hnan.
  vm_compute in Hnan. discriminate.
Qed.

(** C6, as the code has it.  On a table whose FGM, FG3M, FGA, PTS and FTA
    columns hold numbers, [add_shooting_metrics] raises nothing.  In a row
    whose FGA is 0, eFG is NaN whatever the other fields are; TS is
    PTS / (2 * (FGA + 0.44*FTA)), and it is NaN when that denominator is 0,
    which is the case when FTA is 0 as well. *)
Theorem add_shooting_metrics_zero_fga (df : DataFrame) :
  numeric ["FGM"; "FG3M"; "FGA"; "PTS"; "FTA"]%string df →
  ∃ df',
    add_shooting_metrics df = Ok df'
    ∧ length (rows df') = length (rows df)
    ∧ ∀ i r pts fga fta,
        rows df !! i = Some r →
        number r "PTS" = Ok pts → number r "FGA" = Ok fga →
        number r "FTA" = Ok fta →
        is_zero fga = true →
        ∃ r',
          rows df' !! i = Some r'
          ∧ r' !! "eFG"%string = Some (CFloat nan)
          ∧ r' !! "TS"%string
            = Some (CFloat (replace_inf
                              (pts / (2 * replace_zero (fga + 0.44 * fta)))))
          ∧ (is_zero (fga + 0.44 * fta) = true →
               r' !! "TS"%string = Some (CFloat nan))
          ∧ (is_zero fta = true → r' !! "TS"%string = Some (CFloat nan)).
Proof.
  intros Hnum. destruct (add_shooting_metrics_total df Hnum) as [df' Hdf'].
  exists df'. split; [done|].
  apply add_shooting_metrics_rowwise in Hdf' as (_ & _ & Hrows).
  split; [by eapply map_rows_length|].
  intros i r pts fga fta Hr Hpts Hfga Hfta Hzero.
  destruct (map_rows_lookup _ _ _ _ _ Hrows Hr) as (r' & Hr' & Hrow).
  exists r'. split; [done|].
  unfold shooting_row in Hrow.
  destruct (number r "FGM") as [fgm|]; simpl in Hrow; [|done].
  destruct (number r "FG3M") as [fg3m|]; simpl in Hrow; [|done].
  rewrite Hfga, Hpts, Hfta in Hrow. simpl in Hrow. injection Hrow as <-.
  rewrite lookup_insert_ne, !lookup_insert_eq by done.
  rewrite (efg_zero_fga _ _ _ Hzero).
  split; [done|]. split; [done|].
  assert (∀ Hden : is_zero (fga + 0.44 * fta) = true,
            Some (CFloat (replace_inf (ts pts fga fta))) = Some (CFloat nan))
    as Hts.
  { intros Hden. by rewrite ts_zero_denominator. }
  split; [exact Hts|].
  intros Hfta0. apply Hts. by apply free_throw_term_zero.
Qed.

Lemma add_shooting_metrics_zero_fga_witness :
  ∃ df' r',
    add_shooting_metrics no_shot_table = Ok df'
    ∧ rows df' = [r']
    ∧ r' !! "eFG"%string = Some (CFloat nan)
    ∧ r' !! "TS"%string = Some (CFloat nan).
Proof.
  destruct (add_shooting_metrics_zero_fga no_shot_table)
    as (df' & Hdf' & Hlen & Hrow).
  - split; [by vm_compute; repeat constructor|].
    repeat constructor; eexists; vm_compute; reflexivity.
  - destruct (Hrow 0%nat (raw_row 1 0 1 "A" 0 0 0 0 0 0 0 0 3 0 2 240)
                0%float 0%float 0%float)
      as (r' & Hr' & Hefg & _ & _ & Hts); try reflexivity.
    exists df', r'. split; [exact Hdf'|].
    split; [|split; [exact Hefg|exact (Hts eq_refl)]].
    destruct (rows df') as [|r0 [|r1 rs]]; try discriminate Hlen.
    by injection Hr' as ->.
Defined.

(** C6 as stated fails for TS: a row with FGA 0, FTA 10 and 8 points has
    the true-shooting value 8 / (2 * 4.4), which is a number, not NaN. *)
Lemma add_shooting_metrics_free_throws_only :
  ∃ df' r',
    add_shooting_metrics free_throws_only_table = Ok df'
    ∧ rows df' = [r']
    ∧ r' !! "FGA"%string = Some (CInt 0)
    ∧ r' !! "eFG"%string = Some (CFloat nan)
    ∧ r' !! "TS"%string = Some (CFloat (8 / (2 * (0 + 0.44 * 10))))
    ∧ CFloat (8 / (2 * (0 + 0.44 * 10))) ≠ CFloat nan.
Proof.
  eexists _, _. split; [vm_compute; reflexivity|].
  split; [reflexivity|]. repeat (split; [vm_compute; reflexivity|]).
  by apply CFloat_nan_ne.
Qed.

(** ** Normalization *)

Lemma missing_nil (cols : list string) :
  filter (λ c, c ∉ cols) required = [] ↔ Forall (λ c, c ∈ cols) required.
Proof.
  rewrite Forall_forall. split.
  - intros Hnil c Hc. destruct (decide (c ∈ cols)) as [|Hno]; [done|].
    by destruct (filter_nil_not_elem_of _ _ c Hnil Hno).
  - intros Hall. destruct (filter _ _) as [|c l] eqn:Hf; [done|].
    assert (c ∈ filter (λ c, c ∉ cols) required) as Hin by (rewrite Hf; constructor).
    apply list_elem_of_filter in Hin as [Hno Hin]. by destruct (Hno (Hall c Hin)).
Qed.

Lemma zip_with_insert_id (c : string) (rs : list Row) (vs : list Cell) :
  Forall2 (λ r v, r !! c = Some v) rs vs →
  zip_with (λ r v, <[c := v]> r) rs vs = rs.
Proof.
  induction 1 as [|r v rs vs Hr _ IH]; simpl; [done|].
  by rewrite IH, insert_id.
Qed.

Lemma zip_with_insert_lookup (c : string) (rs : list Row) (vs : list Cell) :
  length vs = length rs →
  Forall2 (λ r' v, r' !! c = Some v) (zip_with (λ r v, <[c := v]> r) rs vs) vs.
Proof.
  revert vs. induction rs as [|r rs IH]; intros [|v vs]; simpl; try done.
  intros [= Hlen]. constructor; [by rewrite lookup_insert_eq|by apply IH].
Qed.

Lemma Forall2_compose {A B C} (P : A → B → Prop) (Q : B → C → Prop) l1 l2 l3 :
  Forall2 P l1 l2 → Forall2 Q l2 l3 →
  Forall2 (λ x z, ∃ y, P x y ∧ Q y z) l1 l3.
Proof.
  intros H12. revert l3. induction H12 as [|x y l1 l2 Hxy _ IH]; intros l3 H23.
  - inversion H23. constructor.
  - inversion H23 as [|? z ? l3' Hyz H23']; subst. constructor; eauto.
Qed.

Lemma map_rows_fixed {A} (f : A → result A) l :
  Forall (λ x, f x = Ok x) l → map_rows f l = Ok l.
Proof. induction 1 as [|x l Hx _ IH]; simpl; [done|]. by rewrite Hx, IH. Qed.

Lemma with_columns_present (cols adds : list string) :
  Forall (λ c, c ∈ cols) adds →
  foldl (λ cols c, with_column c cols) cols adds = cols.
Proof.
  induction 1 as [|c adds Hc _ IH]; simpl; [done|].
  by rewrite with_column_present.
Qed.

Section Normalize.
Variable to_datetime : list Cell → option (list Timestamp).

Lemma normalize_team_game_df_Ok df df' :
  normalize_team_game_df to_datetime df = Ok df' ↔
  Forall (λ c, c ∈ columns df) required
  ∧ ∃ dates ts,
      map_rows (λ r, cell r "GAME_DATE") (rows df) = Ok dates
      ∧ to_datetime dates = Some ts
      ∧ length ts = length (rows df)
      ∧ df' = {| columns := columns df;
                 rows := zip_with (λ r v, <["GAME_DATE" := v]> r)
                           (rows df) (CDate <$> ts) |}.
Proof.
  unfold normalize_team_game_df.
  destruct (decide (filter (λ c, c ∉ columns df) required ≠ [])) as [Hmiss|Hnone].
  { split; [done|]. intros [Hall%missing_nil _]. done. }
  apply dec_stable in Hnone. apply missing_nil in Hnone as Hall.
  assert ("GAME_DATE"%string ∈ columns df) as Hdate.
  { eapply Forall_forall in Hall; [exact Hall|]. do 1 constructor. constructor. }
  unfold column. rewrite decide_True by done.
  destruct (map_rows (λ r, cell r "GAME_DATE") (rows df)) as [dates|];
    simpl; [|split; [done|by intros (_ & ? & ? & ? & _)]].
  destruct (to_datetime dates) as [ts|] eqn:Hts.
  2: { split; [done|]. intros (_ & ? & ? & [= <-] & ? & _). congruence. }
  unfold set_column. rewrite length_fmap, with_column_present by done.
  destruct (decide (length ts = length (rows df))) as [Hlen|Hlen].
  - split.
    + intros [= <-]. split; [done|]. by exists dates, ts.
    + intros (_ & ? & ts' & [= <-] & Hts' & _ & ->).
      assert (ts' = ts) as -> by congruence. done.
  - split; [done|]. intros (_ & ? & ts' & [= <-] & Hts' & ? & _).
    assert (ts' = ts) as -> by congruence. done.
Qed.
End Normalize.

Lemma column_raises c df e : column c df = Raise e → e = KeyError c.
Proof.
  unfold column. destruct (decide (c ∈ columns df)); [|congruence].
  induction (rows df) as [|r l IH]; simpl; [done|].
  destruct (cell r c) as [v|e1] eqn:Hcell; simpl.
  - destruct (map_rows _ l) as [|e']; simpl; [done|].
    intros He. apply IH. congruence.
  - unfold cell in Hcell. destruct (r !! c); congruence.
Qed.

Section NormalizeClaims.
Variable to_datetime : list Cell → option (list Timestamp).

(** C5.  [normalize_team_game_df] fails with the missing-field error
    exactly when one of the sixteen required columns is absent, and the
    error then lists all the absent required columns, in the order of
    the list, not only the first.  When it succeeds the result has the
    same columns and the same rows, except that the GAME_DATE cell of
    every row holds the datetime [pd.to_datetime] gave for it. *)
Theorem normalize_team_game_df_missing_fields (df : DataFrame) :
  let missing := filter (λ c, c ∉ columns df) required in
  ((∃ e, normalize_team_game_df to_datetime df = Raise e ∧ MissingFieldError e)
     ↔ ∃ c, c ∈ required ∧ c ∉ columns df)
  ∧ ((∃ c, c ∈ required ∧ c ∉ columns df) →
       normalize_team_game_df to_datetime df
       = Raise (ValueError (MissingRequiredColumns missing)))
  ∧ (∀ m, normalize_team_game_df to_datetime df
          = Raise (ValueError (MissingRequiredColumns m)) → m = missing)
  ∧ (∀ c, c ∈ missing ↔ c ∈ required ∧ c ∉ columns df)
  ∧ length required = 16%nat
  ∧ ∀ df', normalize_team_game_df to_datetime df = Ok df' →
      columns df' = columns df
      ∧ ∃ dates ts,
          column "GAME_DATE" df = Ok dates
          ∧ to_datetime dates = Some ts
          ∧ length ts = length (rows df)
          ∧ rows df' = zip_with (λ r t, <["GAME_DATE" := CDate t]> r)
                         (rows df) ts.
Proof.
  intros missing.
  assert (∀ c, c ∈ missing ↔ c ∈ required ∧ c ∉ columns df) as Hmissing.
  { intros c. unfold missing. rewrite list_elem_of_filter. tauto. }
  assert ((∃ c, c ∈ required ∧ c ∉ columns df) ↔ missing ≠ []) as Hsome.
  { split.
    - intros (c & Hc%Hmissing) Hnil. rewrite Hnil in Hc.
      by apply elem_of_nil in Hc.
    - destruct missing as [|c l] eqn:Hm; [done|]. intros _. exists c.
      apply Hmissing. constructor. }
  assert (missing ≠ [] →
          normalize_team_game_df to_datetime df
          = Raise (ValueError (MissingRequiredColumns missing))) as Hraise.
  { intros Hne. unfold normalize_team_game_df. by rewrite decide_True. }
  assert (∀ e, normalize_team_game_df to_datetime df = Raise e →
               MissingFieldError e → missing ≠ []) as Honly.
  { intros e He [m ->] Hnil. unfold normalize_team_game_df in He.
    fold missing in He. rewrite decide_False in He by (by intros ?).
    destruct (column "GAME_DATE" df) as [dates|] eqn:Hcol; simpl in He.
    - destruct (to_datetime dates) as [ts|]; [|done].
      unfold set_column in He. by destruct (decide _).
    - apply column_raises in Hcol. congruence. }
  split.
  { rewrite Hsome. split.
    - intros (e & He & Hkind). by eapply Honly.
    - intros Hne. eexists. split; [by apply Hraise|]. by eexists. }
  split; [intros Hc%Hsome; by apply Hraise|].
  split.
  { intros m Hm.
    assert (missing ≠ []) as Hne by (eapply Honly; [exact Hm|by eexists]).
    rewrite (Hraise Hne) in Hm. by injection Hm as <-. }
  split; [done|]. split; [done|].
  intros df' (Hall & dates & ts & Hdates & Hts & Hlen & ->)%normalize_team_game_df_Ok.
  split; [done|]. exists dates, ts. simpl.
  split; [|split; [done|split; [done|by rewrite zip_with_fmap_r]]].
  unfold column. rewrite decide_True; [done|].
  eapply Forall_forall in Hall; [exact Hall|]. do 1 constructor. constructor.
Qed.

End NormalizeClaims.

(** Both absent columns are reported, in the order of the required list,
    whatever the date parser is. *)
Example normalize_incomplete_table to_datetime :
  normalize_team_game_df to_datetime incomplete_table
  = Raise (ValueError (MissingRequiredColumns ["OREB"; "MIN"]%string)).
Proof. vm_compute. reflexivity. Qed.

(** ** Running the pipeline twice *)

Lemma possessions_row_again r0 r1 rf :
  possessions_row r0 = Ok r1 → shooting_row r1 = Ok rf →
  possessions_row rf = Ok rf.
Proof.
  unfold possessions_row, shooting_row. intros H0 H1.
  destruct (number r0 "FGA") as [fga|] eqn:Hfga; simpl in H0; [|done].
  destruct (number r0 "FTA") as [fta|] eqn:Hfta; simpl in H0; [|done].
  destruct (number r0 "OREB") as [oreb|] eqn:Horeb; simpl in H0; [|done].
  destruct (number r0 "TOV") as [tov|] eqn:Htov; simpl in H0; [|done].
  injection H0 as <-.
  rewrite !number_insert_ne, Hfga, Hfta in H1 by done.
  destruct (number r0 "FGM"); simpl in H1; [|done].
  destruct (number r0 "FG3M"); simpl in H1; [|done].
  destruct (number r0 "PTS"); simpl in H1; [|done].
  injection H1 as <-.
  rewrite !number_insert_ne, Hfga, Hfta, Horeb, Htov by done. simpl.
  f_equal. apply insert_id.
  by rewrite !lookup_insert_ne, lookup_insert_eq by done.
Qed.

Lemma shooting_row_again r1 rf :
  shooting_row r1 = Ok rf → shooting_row rf = Ok rf.
Proof.
  unfold shooting_row. intros H1.
  destruct (number r1 "FGM") as [fgm|] eqn:Hfgm; simpl in H1; [|done].
  destruct (number r1 "FG3M") as [fg3m|] eqn:Hfg3m; simpl in H1; [|done].
  destruct (number r1 "FGA") as [fga|] eqn:Hfga; simpl in H1; [|done].
  destruct (number r1 "PTS") as [pts|] eqn:Hpts; simpl in H1; [|done].
  destruct (number r1 "FTA") as [fta|] eqn:Hfta; simpl in H1; [|done].
  injection H1 as <-.
  rewrite !number_insert_ne, Hfgm, Hfg3m, Hfga, Hpts, Hfta by done. simpl.
  f_equal. rewrite (insert_id _ "eFG").
  - apply insert_id. by rewrite lookup_insert_eq.
  - by rewrite lookup_insert_ne, lookup_insert_eq by done.
Qed.

Lemma derived_row_date r0 r1 rf v :
  r0 !! "GAME_DATE"%string = Some v →
  possessions_row r0 = Ok r1 → shooting_row r1 = Ok rf →
  rf !! "GAME_DATE"%string = Some v.
Proof.
  unfold possessions_row, shooting_row. intros Hv H0 H1.
  destruct (number r0 "FGA") as [fga|] eqn:Hfga; simpl in H0; [|done].
  destruct (number r0 "FTA") as [fta|] eqn:Hfta; simpl in H0; [|done].
  destruct (number r0 "OREB"); simpl in H0; [|done].
  destruct (number r0 "TOV"); simpl in H0; [|done].
  injection H0 as <-.
  rewrite !number_insert_ne, Hfga, Hfta in H1 by done.
  destruct (number r0 "FGM"); simpl in H1; [|done].
  destruct (number r0 "FG3M"); simpl in H1; [|done].
  destruct (number r0 "PTS"); simpl in H1; [|done].
  injection H1 as <-. by rewrite !lookup_insert_ne by done.
Qed.

Section Idempotence.
Variable to_datetime : list Cell → option (list Timestamp).

(** [pd.to_datetime] returns a column that already holds datetimes as it
    is. *)
Hypothesis to_datetime_datetime :
  ∀ ts, to_datetime (CDate <$> ts) = Some ts.

(** C9.  When the pipeline of normalization, possessions and shooting
    metrics succeeds on a raw table, running it again on its result
    succeeds and returns that result unchanged: same columns, same rows,
    the recomputed GAME_DATE, POSS, eFG and TS cells equal to the ones
    present. *)
Theorem prepare_team_games_for_metrics_idempotent (df_raw df : DataFrame) :
  prepare_team_games_for_metrics to_datetime df_raw = Ok df →
  prepare_team_games_for_metrics to_datetime df = Ok df.
Proof.
  unfold prepare_team_games_for_metrics. intros Hprep.
  destruct (normalize_team_game_df to_datetime df_raw) as [d0|] eqn:H0;
    simpl in Hprep; [|done].
  destruct (add_possessions d0) as [d1|] eqn:H1; simpl in Hprep; [|done].
  apply normalize_team_game_df_Ok in H0
    as (Hreq & dates & ts & Hdates & Hts & Hlen & ->).
  apply add_possessions_Ok in H1 as (Huses1 & Hcols1 & Hrows1).
  apply add_shooting_metrics_rowwise in Hprep as (Huses2 & Hcols2 & Hrows2).
  simpl in Hcols1, Hrows1, Huses1.
  apply map_rows_Ok in Hrows1, Hrows2.
  (* the columns of the result *)
  assert (∀ c, c ∈ columns df_raw → c ∈ columns df) as Hmono.
  { intros c Hc. rewrite Hcols2. apply with_columns_elem. left.
    rewrite Hcols1. by apply with_column_mono. }
  assert ("POSS"%string ∈ columns df) as Hposs.
  { rewrite Hcols2. apply with_columns_elem. left.
    rewrite Hcols1. apply with_column_elem. }
  assert (Forall (λ c, c ∈ columns df) ["eFG"; "TS"; "eFG"; "TS"]%string)
    as Hderived.
  { apply Forall_forall. intros c Hc.
    rewrite Hcols2. apply with_columns_elem. by right. }
  (* the rows of the result *)
  pose proof (Forall2_compose _ _ _ _ _ Hrows1 Hrows2) as Hrows12.
  assert (Forall2 (λ rf v, rf !! "GAME_DATE"%string = Some v)
            (rows df) (CDate <$> ts)) as Hdate.
  { pose proof (zip_with_insert_lookup "GAME_DATE" (rows df_raw) (CDate <$> ts))
      as Hz. rewrite length_fmap in Hz. specialize (Hz Hlen).
    apply Forall2_flip in Hrows12.
    eapply Forall2_impl; [exact (Forall2_compose _ _ _ _ _ Hrows12 Hz)|].
    intros rf v (r0 & (r1 & Hr1 & Hrf) & Hv). simpl in *.
    by eapply derived_row_date. }
  assert (Forall (λ rf, possessions_row rf = Ok rf) (rows df)) as Hfix1.
  { eapply Forall2_Forall_r; [exact Hrows12|].
    apply Forall_forall. intros rf _ r0 (r1 & Hr1 & Hrf).
    by eapply possessions_row_again. }
  assert (Forall (λ rf, shooting_row rf = Ok rf) (rows df)) as Hfix2.
  { eapply Forall2_Forall_r; [exact Hrows2|].
    apply Forall_forall. intros rf _ r1 Hrf. by eapply shooting_row_again. }
  (* normalization again *)
  assert (normalize_team_game_df to_datetime df = Ok df) as ->.
  { apply normalize_team_game_df_Ok. split.
    { eapply Forall_impl; [exact Hreq|]. exact Hmono. }
    exists (CDate <$> ts), ts. split; [|split; [done|split]].
    - apply map_rows_Ok. eapply Forall2_impl; [exact Hdate|].
      intros rf v Hv. unfold cell. by rewrite Hv.
    - apply Forall2_length in Hdate. by rewrite length_fmap in Hdate.
    - rewrite zip_with_insert_id by done. by destruct df. }
  simpl.
  (* possessions again *)
  assert (add_possessions df = Ok df) as ->.
  { apply add_possessions_Ok. split; [|split].
    - eapply Forall_impl; [exact Huses1|]. exact Hmono.
    - by rewrite with_column_present.
    - by apply map_rows_fixed. }
  simpl.
  (* shooting metrics again *)
  apply add_shooting_metrics_rowwise. split; [|split].
  - eapply Forall_impl; [exact Huses2|]. intros c Hc.
    rewrite Hcols2. apply with_columns_elem. by left.
  - by rewrite with_columns_present.
  - by apply map_rows_fixed.
Qed.
End Idempotence.

Lemma to_datetime_numeric_datetime ts :
  to_datetime_numeric (CDate <$> ts) = Some ts.
Proof.
  unfold to_datetime_numeric. induction ts as [|t ts IH]; [done|].
  rewrite fmap_cons. simpl. by rewrite IH.
Qed.

(** A raw table of one row, prepared once and then once more. *)
Lemma prepare_team_games_for_metrics_idempotent_witness :
  ∃ df,
    prepare_team_games_for_metrics to_datetime_numeric possessions_example = Ok df
    ∧ prepare_team_games_for_metrics to_datetime_numeric df = Ok df.
Proof.
  eexists. split; [vm_compute; reflexivity|].
  apply (prepare_team_games_for_metrics_idempotent
           to_datetime_numeric to_datetime_numeric_datetime possessions_example).
  vm_compute. reflexivity.
Defined.

(** ** The order of float64 values *)


Lemma SFcompare_rank x y :
  x ≠ S754_nan → y ≠ S754_nan →
  match SFcompare x y with
  | Some Lt => rank_lt (sf_rank x) (sf_rank y)
  | Some Eq => sf_rank x = sf_rank y
  | Some Gt => rank_lt (sf_rank y) (sf_rank x)
  | None => False
  end.
Proof.
  intros Hx Hy. unfold rank_lt.
  destruct x as [sx|sx| |sx mx ex], y as [sy|sy| |sy my ey]; try done;
    try (destruct sx; simpl; lia); try (destruct sy; simpl; lia);
    try (destruct sx, sy; simpl; (done || lia)).
  destruct sx, sy; simpl; try lia.
  - destruct (Z.compare_spec ex ey) as [->|?|?]; simpl; try lia.
    change (Pos.compare_cont Eq mx my) with (Pos.compare mx my).
    destruct (Pos.compare_spec mx my) as [->|?|?]; simpl; (done || lia).
  - destruct (Z.compare_spec ex ey) as [->|?|?]; simpl; try lia.
    change (Pos.compare_cont Eq mx my) with (Pos.compare mx my).
    destruct (Pos.compare_spec mx my) as [->|?|?]; simpl; (done || lia).
Qed.

Lemma SFleb_rank x y :
  x ≠ S754_nan → y ≠ S754_nan →
  SFleb x y = true ↔ rank_le (sf_rank x) (sf_rank y).
Proof.
  intros Hx Hy. pose proof (SFcompare_rank x y Hx Hy) as Hc.
  unfold SFleb, rank_le, rank_lt in *.
  destruct (SFcompare x y) as [[]|]; try done.
  - rewrite Hc. split; [lia|done].
  - split; [lia|done].
  - split; [done|lia].
Qed.

Lemma is_nan_spec x : is_nan x = false ↔ Prim2SF x ≠ S754_nan.
Proof.
  unfold is_nan. rewrite FloatAxioms.eqb_spec.
  destruct (Prim2SF x) as [s|s| |s m e] eqn:Hx; simpl.
  - split; done.
  - split; [done|]. by destruct s.
  - split; done.
  - split; [done|]. intros _. unfold SFeqb.
    pose proof (SFcompare_rank (S754_finite s m e) (S754_finite s m e)) as Hc.
    unfold rank_lt in Hc.
    destruct (SFcompare _ _) as [[]|]; [done|..];
      exfalso; (assert (S754_finite s m e ≠ S754_nan) as Hf by done);
      specialize (Hc Hf Hf); lia.
Qed.

Lemma float_leb_rank x y :
  is_nan x = false → is_nan y = false →
  (x <=? y)%float = true ↔ rank_le (sf_rank (Prim2SF x)) (sf_rank (Prim2SF y)).
Proof.
  intros Hx%is_nan_spec Hy%is_nan_spec. rewrite leb_spec. by apply SFleb_rank.
Qed.

(** ** Sorting with a comparison that is an order on part of the values *)

Section SortOn.
Context {A : Type} (before : A → A → bool) (le : A → A → Prop) (P : A → Prop).
Hypothesis before_le : ∀ a b, P a → P b → before a b = true → le a b.
Hypothesis before_ge : ∀ a b, P a → P b → before a b = false → le b a.
Hypothesis le_trans : ∀ a b c, P a → P b → P c → le a b → le b c → le a c.

Lemma insert_sorted_sorted_on x l :
  P x → Forall P l → StronglySorted le l →
  StronglySorted le (insert_sorted before x l).
Proof.
  intros Hx HP Hl. induction Hl as [|y l Hl IH Hy]; simpl.
  - repeat constructor.
  - apply Forall_cons in HP as [HPy HP].
    destruct (before x y) eqn:Hxy.
    + constructor; [by constructor|].
      constructor; [by apply before_le|].
      apply Forall_forall. intros z Hz.
      eapply Forall_forall in HP as HPz; [|exact Hz].
      eapply Forall_forall in Hy as Hyz; [|exact Hz].
      apply (le_trans x y z); [done|done|done| |done].
      by apply before_le.
    + constructor; [by apply IH|].
      rewrite insert_sorted_perm. constructor; [by apply before_ge|done].
Qed.

Lemma stable_sort_sorted_on l :
  Forall P l → StronglySorted le (stable_sort before l).
Proof.
  induction 1 as [|x l Hx HP IH]; simpl; [constructor|].
  apply insert_sorted_sorted_on; [done| |done].
  by rewrite stable_sort_perm.
Qed.
End SortOn.

(** ** Picking by position *)

Lemma pick_all_from {A} (pre l : list A) :
  pick (pre ++ l) (seq (length pre) (length l)) = l.
Proof.
  revert pre. induction l as [|x l IH]; intros pre; [done|].
  simpl. unfold pick in *. simpl.
  rewrite list_lookup_middle by done. simpl. f_equal.
  specialize (IH (pre ++ [x])).
  rewrite <- app_assoc, length_app in IH. simpl in IH.
  by rewrite Nat.add_1_r in IH.
Qed.

Lemma pick_all {A} (l : list A) : pick l (seq 0 (length l)) = l.
Proof. apply (pick_all_from [] l). Qed.

Lemma pick_perm {A} (l : list A) idx :
  idx ≡ₚ seq 0 (length l) → pick l idx ≡ₚ l.
Proof.
  intros Hperm. rewrite <- (pick_all l) at 2. unfold pick.
  induction Hperm; simpl.
  - done.
  - destruct (l !! x); [by constructor|done].
  - destruct (l !! x), (l !! y); try done; by constructor.
  - by etrans.
Qed.

Lemma pick_parallel {A B} (R : A → B → Prop) l1 l2 idx :
  Forall2 R l1 l2 → Forall2 R (pick l1 idx) (pick l2 idx).
Proof.
  intros HR. unfold pick. induction idx as [|i idx IH]; simpl; [constructor|].
  destruct (l1 !! i) as [x|] eqn:H1.
  - destruct (Forall2_lookup_l _ _ _ _ _ HR H1) as (y & -> & Hxy).
    by constructor.
  - destruct (l2 !! i) as [y|] eqn:H2; [|done].
    destruct (Forall2_lookup_r _ _ _ _ _ HR H2) as (x & Hx & _). congruence.
Qed.

Lemma pick_Forall2 {A} (l : list A) idx :
  Forall (λ i, (i < length l)%nat) idx →
  Forall2 (λ i v, l !! i = Some v) idx (pick l idx).
Proof.
  unfold pick. induction 1 as [|i idx Hi _ IH]; simpl; [constructor|].
  destruct (lookup_lt_is_Some_2 l i Hi) as [v Hv]. rewrite Hv.
  by constructor.
Qed.

Lemma pick_eq {A} (l : list A) idx vs :
  Forall2 (λ i v, l !! i = Some v) idx vs → pick l idx = vs.
Proof.
  unfold pick. induction 1 as [|i v idx vs Hv _ IH]; simpl; [done|].
  rewrite Hv. f_equal. exact IH.
Qed.

Lemma StronglySorted_reverse {A} (R : A → A → Prop) l :
  StronglySorted R l → StronglySorted (λ x y, R y x) (reverse l).
Proof.
  induction 1 as [|x l Hl IH Hx]; [constructor|].
  rewrite reverse_cons. apply StronglySorted_app_2.
  - intros a b Ha ->%list_elem_of_singleton.
    rewrite elem_of_reverse in Ha. by eapply Forall_forall in Hx.
  - done.
  - repeat constructor.
Qed.

Lemma float_leb_total a b :
  is_nan a = false → is_nan b = false →
  (a <=? b)%float = false → (b <=? a)%float = true.
Proof.
  intros Ha Hb Hab. apply float_leb_rank; [done..|].
  destruct (decide (rank_le (sf_rank (Prim2SF a)) (sf_rank (Prim2SF b))))
    as [Hle|Hle].
  - apply float_leb_rank in Hle; [congruence|done..].
  - unfold rank_le in *. lia.
Qed.

Lemma float_leb_trans a b c :
  is_nan a = false → is_nan b = false → is_nan c = false →
  (a <=? b)%float = true → (b <=? c)%float = true → (a <=? c)%float = true.
Proof.
  intros Ha Hb Hc. rewrite !float_leb_rank by done. unfold rank_le. lia.
Qed.

(** ** A sort that meets numpy's promise *)

Lemma zip_seq_lookup {A} (xs : list A) :
  Forall (λ p, xs !! p.1 = Some p.2) (zip (seq 0 (length xs)) xs).
Proof.
  apply Forall_forall. intros p Hp.
  apply elem_of_lookup_zip_with in Hp as (i & a & b & -> & Ha & Hb).
  apply lookup_seq in Ha as [-> _]. done.
Qed.

Lemma Forall_pairs_Forall2 {A B} (R : A → B → Prop) (l : list (A * B)) :
  Forall (λ p, R p.1 p.2) l → Forall2 R (l.*1) (l.*2).
Proof. induction 1; constructor; done. Qed.

Lemma argsort_by_sorts (before : float → float → bool) :
  (∀ a b, is_nan a = false → is_nan b = false →
          before a b = true → (a <=? b)%float = true) →
  (∀ a b, is_nan a = false → is_nan b = false →
          before a b = false → (b <=? a)%float = true) →
  sorts (λ xs, (stable_sort (λ a b : nat * float, before a.2 b.2)
                  (zip (seq 0 (length xs)) xs)).*1).
Proof.
  intros Hle Hge xs Hxs.
  set (l := zip (seq 0 (length xs)) xs).
  set (cmp := λ a b : nat * float, before a.2 b.2).
  assert (l.*1 = seq 0 (length xs)) as Hfst.
  { apply fst_zip. by rewrite length_seq. }
  assert (l.*2 = xs) as Hsnd.
  { apply snd_zip. by rewrite length_seq. }
  split.
  { rewrite <- Hfst. by rewrite stable_sort_perm. }
  assert (Forall (λ p : nat * float, xs !! p.1 = Some p.2) (stable_sort cmp l))
    as Hlook.
  { rewrite stable_sort_perm. apply zip_seq_lookup. }
  rewrite (pick_eq xs _ ((stable_sort cmp l).*2))
    by (by apply Forall_pairs_Forall2).
  apply (StronglySorted_fmap _ (λ a b : nat * float, (a.2 <=? b.2)%float = true));
    [done|].
  apply (stable_sort_sorted_on cmp _ (λ p, is_nan p.2 = false)).
  - intros a b Ha Hb. by apply Hle.
  - intros a b Ha Hb. by apply Hge.
  - intros a b c Ha Hb Hc. by apply float_leb_trans.
  - apply Forall_forall. intros p Hp.
    assert (p.2 ∈ xs) as Hin.
    { rewrite <- Hsnd. apply list_elem_of_fmap. eauto. }
    by eapply Forall_forall in Hxs.
Qed.

Lemma argsort_stable_sorts : sorts argsort_stable.
Proof.
  apply argsort_by_sorts.
  - done.
  - apply float_leb_total.
Qed.

(** ** Leaderboard selection *)


Lemma Forall2_with_l {A B} (P : A → Prop) (R : A → B → Prop) l k :
  Forall P l → Forall2 R l k → Forall2 (λ x y, P x ∧ R x y) l k.
Proof.
  intros HP HR. induction HR as [|x y l k Hxy _ IH]; [constructor|].
  apply Forall_cons in HP as [Hx HP]. constructor; [done|by apply IH].
Qed.

Lemma nargsort_desc_spec argsort (items : list float) :
  sorts argsort →
  nargsort_desc argsort items ≡ₚ seq 0 (length items)
  ∧ ∃ numbers nans,
      Forall2 (λ i v, items !! i = Some v)
        (nargsort_desc argsort items) (numbers ++ nans)
      ∧ StronglySorted (λ x y, (y <=? x)%float = true) numbers
      ∧ Forall (λ k, is_nan k = false) numbers
      ∧ Forall (λ k, is_nan k = true) nans.
Proof.
  intros Hsorts.
  pose (is_na := λ i, match items !! i with Some x => is_nan x | None => false end).
  pose (idx := seq 0 (length items)).
  pose (non_nan_idx := reverse (filter (λ i, is_na i = false) idx)).
  pose (nan_idx := filter (λ i, is_na i = true) idx).
  pose (non_nans := pick items non_nan_idx).
  change (nargsort_desc argsort items)
    with (reverse (pick non_nan_idx (argsort non_nans)) ++ nan_idx).
  change (seq 0 (length items)) with idx.
  assert (∀ i, i ∈ idx → (i < length items)%nat) as Hidx.
  { intros i Hi%list_elem_of_In%in_seq. lia. }
  assert (Forall2 (λ i v, is_na i = false ∧ items !! i = Some v)
            non_nan_idx non_nans) as Hnn.
  { apply Forall2_with_l.
    - apply Forall_forall. intros i Hi. unfold non_nan_idx in Hi.
      rewrite elem_of_reverse in Hi. by apply list_elem_of_filter in Hi as [? _].
    - apply pick_Forall2, Forall_forall. intros i Hi.
      unfold non_nan_idx in Hi. rewrite elem_of_reverse in Hi.
      apply list_elem_of_filter in Hi as [_ Hi]. by apply Hidx. }
  assert (Forall (λ x, is_nan x = false) non_nans) as Hvalues.
  { eapply Forall2_Forall_r; [exact Hnn|].
    apply Forall_forall. intros v _ i [Hna Hv]. unfold is_na in Hna.
    by rewrite Hv in Hna. }
  destruct (Hsorts non_nans Hvalues) as [Hperm Hasc].
  set (a := argsort non_nans) in *.
  assert (length non_nans = length non_nan_idx) as Hlen.
  { symmetry. by eapply Forall2_length. }
  assert (Forall2 (λ i v, items !! i = Some v) nan_idx (pick items nan_idx))
    as Hnans.
  { apply pick_Forall2, Forall_forall. intros i Hi.
    apply list_elem_of_filter in Hi as [_ Hi]. by apply Hidx. }
  split.
  - rewrite reverse_Permutation, pick_perm by (by rewrite <- Hlen).
    unfold non_nan_idx. rewrite reverse_Permutation.
    unfold nan_idx.
    rewrite (list_filter_iff (λ i, is_na i = true) (λ i, ¬ is_na i = false))
      by (intros i; destruct (is_na i); naive_solver).
    apply filter_app_complement.
  - exists (reverse (pick non_nans a)), (pick items nan_idx).
    split; [|split; [|split]].
    + apply Forall2_app; [|done]. apply Forall2_reverse.
      apply pick_parallel. eapply Forall2_impl; [exact Hnn|]. by intros i v [_ ?].
    + by apply (StronglySorted_reverse (λ x y, (x <=? y)%float = true)).
    + apply Forall_reverse.
      assert (pick non_nans a ≡ₚ non_nans) as -> by (by apply pick_perm).
      done.
    + eapply Forall2_Forall_r.
      * apply (Forall2_with_l (λ i, is_na i = true)); [|exact Hnans].
        apply Forall_forall. intros i Hi.
        by apply list_elem_of_filter in Hi as [? _].
      * apply Forall_forall. intros v _ i [Hna Hv]. unfold is_na in Hna.
        by rewrite Hv in Hna.
Qed.

Lemma numeric_column_keys metric df :
  numeric [metric] df →
  ∃ cells keys,
    column metric df = Ok cells
    ∧ map_rows as_float cells = Ok keys
    ∧ Forall2 (λ r k, number r metric = Ok k) (rows df) keys.
Proof.
  intros [Hcol Hrows]. apply Forall_cons in Hcol as [Hcol _].
  destruct (map_rows_total (λ r, number r metric) (rows df)) as [keys Hkeys].
  { eapply Forall_impl; [exact Hrows|]. intros r Hr.
    by apply Forall_cons in Hr as [? _]. }
  pose proof Hkeys as Hkeys'.
  apply (map_rows_compose (λ r, cell r metric) as_float) in Hkeys'
    as (cells & Hcells & Hfloat).
  exists cells, keys. unfold column. rewrite decide_True by done.
  split; [done|]. split; [done|]. by apply map_rows_Ok.
Qed.

Lemma column_keys_numbers cells keys :
  map_rows as_float cells = Ok keys → column_keys cells = Ok (Numbers keys).
Proof.
  intros H%map_rows_Ok.
  assert (forallb is_number cells = true ∧ number_key <$> cells = keys)
    as [Hall Hkeys].
  { induction H as [|c k cells keys Hc _ [IH1 IH2]]; [done|].
    rewrite fmap_cons, IH2. simpl. rewrite IH1.
    destruct c; simpl in *; try done; by injection Hc as <-. }
  unfold column_keys.
  assert (forallb is_number (List.filter (λ c, negb (is_missing c)) cells)
          = true) as ->; [|by rewrite Hkeys].
  apply forallb_forall. intros c [Hc _]%filter_In.
  by eapply forallb_forall in Hall.
Qed.

(** C8, as the code has it.  For a sort that meets numpy's promise, a
    table whose metric column holds numbers and a count [top_n >= 0], the
    leaderboard selection returns a table with the same columns whose rows
    are the first min(top_n, number of rows) rows of a rearrangement of
    the input rows that is in descending order of the metric, rows without
    a value (NaN) last.  Nothing is promised on the order of rows with
    equal metric: [sort_values] is called with its default kind. *)
Theorem plot_leaderboard_selection
    (argsort : list float → list nat)
    (argsort_text : list string → list nat) (argsort_date : list Z → list nat)
    (df : DataFrame) (metric : string) (top_n : Z) :
  sorts argsort → numeric [metric] df → 0 ≤ top_n →
  ∃ d rest,
    plot_leaderboard argsort argsort_text argsort_date df metric top_n = Ok d
    ∧ columns d = columns df
    ∧ rows d ++ rest ≡ₚ rows df
    ∧ descending_by metric (rows d ++ rest)
    ∧ length (rows d) = Nat.min (Z.to_nat top_n) (length (rows df)).
Proof.
  intros Hsorts Hnum Hn.
  destruct (numeric_column_keys metric df Hnum)
    as (cells & keys & Hcells & Hkeys & Hnumber).
  destruct (nargsort_desc_spec argsort keys Hsorts)
    as (Hperm & numbers & nans & Hvalues & Hdesc & Hnumbers & Hnans).
  set (indexer := nargsort_desc argsort keys) in *.
  set (sorted := pick (rows df) indexer).
  assert (length keys = length (rows df)) as Hlen.
  { symmetry. by eapply Forall2_length. }
  assert (sorted ≡ₚ rows df) as Hsorted.
  { apply pick_perm. by rewrite <- Hlen. }
  set (k := Z.to_nat top_n).
  exists {| columns := columns df; rows := take k sorted |}, (drop k sorted).
  split.
  { unfold plot_leaderboard, sort_values_desc. rewrite Hcells. simpl.
    rewrite (column_keys_numbers cells keys Hkeys). simpl. unfold head. simpl.
    by destruct (Z.leb_spec 0 top_n); [|lia]. }
  simpl. rewrite take_drop.
  split; [done|]. split; [done|]. split.
  { exists numbers, nans. split; [|done].
    rewrite <- (pick_eq keys indexer (numbers ++ nans)) by done.
    by apply pick_parallel. }
  rewrite length_take. unfold k. by rewrite Hsorted.
Qed.

Lemma plot_leaderboard_selection_witness :
  ∃ d,
    plot_leaderboard argsort_stable argsort_object argsort_int64
      ratings_table "NET_RTG" 2 = Ok d
    ∧ length (rows d) = 2%nat
    ∧ descending_by "NET_RTG" (rows d).
Proof.
  destruct (plot_leaderboard_selection argsort_stable argsort_object
              argsort_int64 ratings_table "NET_RTG" 2)
    as (d & rest & Hd & _ & _ & _ & Hlen).
  - exact argsort_stable_sorts.
  - split; [by vm_compute; repeat constructor|].
    repeat constructor; eexists; vm_compute; reflexivity.
  - lia.
  - exists d. split; [exact Hd|]. split; [exact Hlen|].
    vm_compute in Hd. injection Hd as <-.
    exists [7%float; 1.5%float], []. simpl.
    split; [repeat constructor|].
    split; [repeat constructor|]. split; repeat constructor.
Defined.

(** C8 as stated fails on ties.  In the table [tie_for_first] the teams E
    and J have the same net rating, the best of the eighteen, and E comes
    first.  With numpy's quicksort, the default kind of [sort_values], the
    leaderboard lists J before E: the partition step of the quicksort
    exchanges them. *)
Lemma plot_leaderboard_tie_exchanged :
  ∃ d,
    plot_leaderboard argsort_float64 argsort_object argsort_int64
      tie_for_first "NET_RTG" 10 = Ok d
    ∧ rows tie_for_first !! 4%nat = Some (rated "E" 9)
    ∧ rows tie_for_first !! 9%nat = Some (rated "J" 9)
    ∧ take 2 (rows d) = [rated "J" 9; rated "E" 9].
Proof.
  eexists. split; [vm_compute; reflexivity|].
  split; [reflexivity|]. split; reflexivity.
Qed.

(** * Further properties of the code *)

(** ** More on window filtering *)

Lemma insert_sorted_below {A} (leb : A → A → bool) x l :
  Forall (λ y, leb x y = true) l → insert_sorted leb x l = x :: l.
Proof. destruct 1 as [|y l Hy _]; simpl; [done|]. by rewrite Hy. Qed.

Lemma stable_sort_sorted_id {A} (leb : A → A → bool) l :
  StronglySorted (λ a b, leb a b = true) l → stable_sort leb l = l.
Proof.
  induction 1 as [|x l Hl IH Hx]; [done|].
  unfold stable_sort in *. simpl. rewrite IH. by apply insert_sorted_below.
Qed.

Section WindowComposition.
Context {R : Type} {TG : TeamGames R}.

Lemma head_rows_sublist limit seen (df : list R) :
  head_rows limit seen df `sublist_of` df.
Proof.
  revert seen. induction df as [|r df IH]; intros seen; simpl; [done|].
  destruct (_ <? _).
  - apply sublist_skip, IH.
  - apply sublist_cons, IH.
Qed.

(** Only the comparison of the count with the limit matters. *)
Lemma head_rows_ext limit limit' seen seen' (df : list R) :
  (∀ t d, 0 ≤ d → (seen t + d <? limit t) = (seen' t + d <? limit' t)) →
  head_rows limit seen df = head_rows limit' seen' df.
Proof.
  revert seen seen'. induction df as [|r df IH]; intros seen seen' Hs; [done|].
  simpl. pose proof (Hs (team_id r) 0 (Z.le_refl 0)) as H0.
  rewrite !Z.add_0_r in H0. rewrite H0.
  rewrite (IH _ (λ k, if decide (k = team_id r) then seen' k + 1 else seen' k)).
  - done.
  - intros t d Hd. destruct (decide (t = team_id r)) as [->|]; [|by apply Hs].
    rewrite <- !Z.add_assoc. apply Hs. lia.
Qed.

Lemma head_rows_head_rows m n seen (df : list R) :
  (∀ t, m t ≤ n t) →
  head_rows m seen (head_rows n seen df) = head_rows m seen df.
Proof.
  intros Hmn. revert seen. induction df as [|r df IH]; intros seen; [done|].
  simpl. set (seen' := λ k, if decide (k = team_id r) then seen k + 1 else seen k).
  destruct (Z.ltb_spec (seen (team_id r)) (n (team_id r))) as [Hn|Hn].
  - simpl. fold seen'. by rewrite IH.
  - destruct (Z.ltb_spec (seen (team_id r)) (m (team_id r))) as [Hm|Hm].
    { specialize (Hmn (team_id r)). lia. }
    rewrite <- (IH seen'). apply head_rows_ext.
    intros t d Hd. unfold seen'. destruct (decide (t = team_id r)) as [->|]; [|done].
    specialize (Hmn (team_id r)).
    destruct (Z.ltb_spec (seen (team_id r) + d) (m (team_id r)));
      destruct (Z.ltb_spec (seen (team_id r) + 1 + d) (m (team_id r))); lia.
Qed.


Lemma groupby_head_nonneg n (df : list R) :
  0 ≤ n → groupby_head n df = head_rows (λ _, n) (λ _, 0) df.
Proof.
  intros Hn. unfold groupby_head. apply head_rows_ext. intros t d _.
  by destruct (Z.leb_spec 0 n); [|lia].
Qed.

Lemma groupby_head_sublist n (df : list R) : groupby_head n df `sublist_of` df.
Proof. apply head_rows_sublist. Qed.

Lemma sublist_StronglySorted (P : R → R → Prop) (l k : list R) :
  l `sublist_of` k → StronglySorted P k → StronglySorted P l.
Proof.
  induction 1 as [|x l k Hlk IH|x l k Hlk IH]; intros Hk; [done|..].
  - apply StronglySorted_inv in Hk as [Hk Hx]. constructor; [by apply IH|].
    eapply Forall_forall. intros y Hy. eapply Forall_forall in Hx; [exact Hx|].
    by eapply elem_of_sublist.
  - apply StronglySorted_inv in Hk as [Hk _]. by apply IH.
Qed.

Lemma sort_values_groupby_head n (df : list R) :
  sort_values_team_date (groupby_head n (sort_values_team_date df))
  = groupby_head n (sort_values_team_date df).
Proof.
  apply stable_sort_sorted_id.
  eapply sublist_StronglySorted; [apply groupby_head_sublist|].
  apply sort_values_team_date_sorted.
Qed.

Lemma sort_values_sort_values (df : list R) :
  sort_values_team_date (sort_values_team_date df) = sort_values_team_date df.
Proof. apply stable_sort_sorted_id, sort_values_team_date_sorted. Qed.
End WindowComposition.

Lemma split_not_nil sep s : split sep s ≠ [].
Proof.
  destruct s as [|c s]; simpl; [done|].
  destruct (Ascii.eqb c sep); [done|]. by destruct (split sep s).
Qed.

(** The first field of a text does not depend on what follows the next
    separator. *)
Lemma split_first_field sep s rest :
  split sep (s +:+ String sep rest) !! 0%nat = split sep s !! 0%nat.
Proof.
  induction s as [|c s IH].
  - simpl. by rewrite Ascii.eqb_refl.
  - change (String c s +:+ String sep rest) with (String c (s +:+ String sep rest)).
    simpl. destruct (Ascii.eqb c sep); [done|].
    pose proof (split_not_nil sep s) as Hs.
    pose proof (split_not_nil sep (s +:+ String sep rest)) as Hs'.
    destruct (split sep s) as [|w ws], (split sep (s +:+ String sep rest)) as [|w' ws'];
      try done.
    simpl in *. congruence.
Qed.

Lemma window_count_last_field s :
  window_count ("LAST_" +:+ s) = (split "_" s !! 0%nat) ≫= py_int.
Proof. reflexivity. Qed.

Lemma apply_time_window_last {R} {TG : TeamGames R} (df : list R) s :
  apply_time_window_team_games df ("LAST_" +:+ s) =
  match window_count ("LAST_" +:+ s) with
  | Some n => Ok (groupby_head n (sort_values_team_date df))
  | None => Raise (ValueError (InvalidWindowFormat ("LAST_" +:+ s)))
  end.
Proof.
  unfold apply_time_window_team_games.
  rewrite decide_False by (rewrite last_unfold; discriminate).
  rewrite last_unfold at 1. reflexivity.
Qed.

Lemma apply_time_window_Ok {R} {TG : TeamGames R} (df : list R) window out :
  apply_time_window_team_games df window = Ok out →
  out = sort_values_team_date df
  ∨ ∃ n, out = groupby_head n (sort_values_team_date df).
Proof.
  unfold apply_time_window_team_games.
  destruct (decide _) as [_|_]; [intros [= <-]; by left|].
  destruct (startswith _ _); [|done].
  destruct (window_count window) as [n|]; [|done].
  intros [= <-]. eauto.
Qed.

(** X1.  The window "SEASON" keeps every row: the result is a
    rearrangement of the table, ordered by team identifier and, within a
    team, from the newest date to the oldest with undated rows last; rows
    of one team and one date stay in table order.  Filtering the result
    again returns it unchanged. *)
Theorem window_season_keeps_all_rows {R} {TG : TeamGames R} (df : list R) :
  ∃ out,
    apply_time_window_team_games df "SEASON" = Ok out
    ∧ out ≡ₚ df
    ∧ StronglySorted
        (λ a b, team_id a < team_id b
                ∨ (team_id a = team_id b
                   ∧ date_desc_leb (game_date a) (game_date b) = true)) out
    ∧ (∀ t d, filter (λ r, game_date r = d) (team_rows t out)
              = filter (λ r, game_date r = d) (team_rows t df))
    ∧ apply_time_window_team_games out "SEASON" = Ok out.
Proof.
  exists (sort_values_team_date df).
  split; [reflexivity|]. split; [apply stable_sort_perm|]. split.
  { eapply StronglySorted_weaken; [|apply sort_values_team_date_sorted].
    intros a b. apply team_date_leb_spec. }
  split.
  - intros t d. rewrite team_rows_sort_values. apply stable_sort_filter.
    intros a b Ha Hb. unfold newer_leb. rewrite Ha, Hb.
    destruct d; simpl; [apply Z.leb_refl|done].
  - unfold apply_time_window_team_games. simpl.
    by rewrite sort_values_sort_values.
Qed.

(** X2.  Of a window "LAST_..." only the text between the first and
    the second underscore is read: whatever follows a second underscore is
    ignored, so that "LAST_5_games" selects the same rows as "LAST_5". *)
Theorem window_last_ignores_trailing_text {R} {TG : TeamGames R}
    (df : list R) (s rest : string) (out : list R) :
  apply_time_window_team_games df ("LAST_" +:+ s) = Ok out →
  apply_time_window_team_games df ("LAST_" +:+ s +:+ String "_" rest) = Ok out.
Proof.
  rewrite !apply_time_window_last, !window_count_last_field.
  rewrite split_first_field.
  by destruct (split "_" s !! 0%nat ≫= py_int).
Qed.

Lemma window_last_ignores_trailing_text_witness :
  apply_time_window_team_games window_sample "LAST_5_games"
  = apply_time_window_team_games window_sample "LAST_5".
Proof.
  destruct (apply_time_window_team_games window_sample "LAST_5") as [out|e] eqn:H5.
  - exact (window_last_ignores_trailing_text window_sample "5" "games" out H5).
  - vm_compute in H5. discriminate.
Defined.

(** X3.  Whatever the window, also one with a negative count, a
    successful call only removes rows: the result is the season table (the
    rows sorted by team and date) with some rows left out, in the same
    order; no row appears more often than in the input, and the result is
    itself in season order, so that "SEASON" returns it unchanged. *)
Theorem window_only_removes_rows {R} {TG : TeamGames R}
    (df : list R) (window : string) (out season : list R) :
  apply_time_window_team_games df window = Ok out →
  apply_time_window_team_games df "SEASON" = Ok season →
  out `sublist_of` season
  ∧ out ⊆+ df
  ∧ apply_time_window_team_games out "SEASON" = Ok out.
Proof.
  intros Hout [= <-].
  assert (out `sublist_of` sort_values_team_date df) as Hsub.
  { apply apply_time_window_Ok in Hout as [->|[n ->]]; [done|].
    apply groupby_head_sublist. }
  split; [done|]. split.
  - rewrite <- (stable_sort_perm team_date_leb df). by apply sublist_submseteq.
  - unfold apply_time_window_team_games. simpl. f_equal.
    apply stable_sort_sorted_id.
    eapply sublist_StronglySorted; [exact Hsub|].
    apply sort_values_team_date_sorted.
Qed.

Lemma window_only_removes_rows_witness :
  ∃ out season,
    apply_time_window_team_games window_sample "LAST_-3" = Ok out
    ∧ out `sublist_of` season ∧ out ⊆+ window_sample.
Proof.
  eexists _, _. split; [reflexivity|].
  pose proof (window_only_removes_rows window_sample "LAST_-3" _ _
                eq_refl eq_refl) as (H1 & H2 & _).
  split; [exact H1|exact H2].
Defined.

(** X4.  Narrowing a window: for counts 0 <= m <= n, taking "LAST_m"
    of the result of "LAST_n" gives what "LAST_m" gives on the table
    itself.  With m = n: filtering twice with the same window is filtering
    once. *)
Theorem window_last_narrowing {R} {TG : TeamGames R}
    (df wide : list R) (sm sn : string) (m n : Z) :
  decimal sm m → decimal sn n → m ≤ n →
  apply_time_window_team_games df ("LAST_" +:+ sn) = Ok wide →
  apply_time_window_team_games wide ("LAST_" +:+ sm)
  = apply_time_window_team_games df ("LAST_" +:+ sm).
Proof.
  intros Hm Hn Hmn. rewrite !apply_time_window_last.
  rewrite (window_count_last sm m Hm), (window_count_last sn n Hn).
  intros [= <-]. f_equal.
  pose proof (decimal_nonneg sm m Hm) as Hm0.
  rewrite sort_values_groupby_head.
  rewrite !groupby_head_nonneg by lia.
  apply head_rows_head_rows. done.
Qed.

Lemma window_last_narrowing_witness :
  ∃ wide,
    apply_time_window_team_games window_sample "LAST_5" = Ok wide
    ∧ apply_time_window_team_games wide "LAST_2"
      = apply_time_window_team_games window_sample "LAST_2".
Proof.
  eexists. split; [reflexivity|].
  apply (window_last_narrowing window_sample _ "2" "5" 2 5).
  - by apply decimal_digit.
  - by apply decimal_digit.
  - lia.
  - reflexivity.
Defined.



(** ** More on opponent pairing *)

Lemma filter_bind {A B} (P : B → Prop) `{!∀ y, Decision (P y)}
    (f : A → list B) (l : list A) :
  filter P (l ≫= f) = l ≫= (λ x, filter P (f x)).
Proof.
  induction l as [|x l IH]; [done|].
  rewrite !bind_cons, filter_app, IH. done.
Qed.

Lemma filter_fmap_filter {A B} (P : B → Prop) `{!∀ y, Decision (P y)}
    (Q : A → Prop) `{!∀ x, Decision (Q x)} (f : A → B) (l : list A) :
  filter P (f <$> filter Q l) = f <$> filter (λ x, Q x ∧ P (f x)) l.
Proof.
  induction l as [|x l IH]; [done|].
  rewrite (filter_cons Q), (filter_cons (λ x, Q x ∧ P (f x))).
  destruct (decide (Q x)) as [HQ|HQ].
  - rewrite fmap_cons, filter_cons. destruct (decide (P (f x))) as [HP|HP].
    + rewrite decide_True by done. by rewrite fmap_cons, IH.
    + rewrite decide_False by tauto. done.
  - rewrite decide_False by tauto. done.
Qed.

(** Every row is joined with its opponent rows, in table order. *)
Lemma merge_on_game_opponents (base opp : list TeamGame.t) :
  filter (λ p, Paired.TEAM_ID p ≠ Paired.OPP_TEAM_ID p) (merge_on_game base opp)
  = base ≫= (λ l, merged_row l <$> filter (opponent_of l) opp).
Proof.
  unfold merge_on_game. rewrite filter_bind.
  induction base as [|l base IH]; [done|].
  rewrite !bind_cons, IH. f_equal.
  rewrite filter_fmap_filter. reflexivity.
Qed.

Lemma pair_team_opponent_bind (df : list TeamGame.t) :
  pair_team_opponent df
  = df ≫= (λ l, merged_row l <$> filter (opponent_of l) df).
Proof. apply merge_on_game_opponents. Qed.

(** X6.  Pairing is symmetric: with every paired row, the table also
    has the row of the same game seen from the opponent's side, the two
    teams and their points and possessions exchanged. *)
Theorem pair_team_opponent_symmetric (df : list TeamGame.t) (p : Paired.t) :
  p ∈ pair_team_opponent df → mirror p ∈ pair_team_opponent df.
Proof.
  rewrite !pair_team_opponent_elem.
  intros (l & r & Hl & Hr & [Hid Hdate] & Hne & ->).
  exists r, l. split; [done|]. split; [done|].
  split; [by split|]. split; [congruence|].
  unfold mirror, merged_row. simpl. by rewrite Hid, Hdate.
Qed.

Lemma pair_team_opponent_symmetric_witness :
  mirror (merged_row team_a team_b) ∈ pair_team_opponent example_game.
Proof.
  apply pair_team_opponent_symmetric.
  apply pair_team_opponent_elem. exists team_a, team_b.
  split; [by apply elem_of_cons; left|]. split; [by apply elem_of_cons; right; apply elem_of_cons; left|].
  split; [by split|]. split; [by vm_compute|done].
Defined.

(** X7.  A team-game row without an opponent row is dropped without
    notice: when no row of another team has the game identifier and the
    date of [l], the paired table has no row for the team of [l] in that
    game. *)
Theorem pair_team_opponent_drops_unpaired (df : list TeamGame.t) (l : TeamGame.t) :
  filter (opponent_of l) df = [] →
  ∀ p, p ∈ pair_team_opponent df →
    ¬ (Paired.GAME_ID p = TeamGame.GAME_ID l
       ∧ Paired.GAME_DATE p = TeamGame.GAME_DATE l
       ∧ Paired.TEAM_ID p = TeamGame.TEAM_ID l).
Proof.
  intros Hnone p (l' & r & _ & Hr & [Hid Hdate] & Hne & ->)%pair_team_opponent_elem
    (Hg & Hd & Ht).
  simpl in *.
  assert (r ∈ filter (opponent_of l) df) as Hin.
  { apply list_elem_of_filter. split; [|done].
    split; [split|]; congruence. }
  rewrite Hnone in Hin. by apply elem_of_nil in Hin.
Qed.

Lemma pair_team_opponent_drops_unpaired_witness :
  pair_team_opponent [team_a] = [].
Proof.
  destruct (pair_team_opponent [team_a]) as [|p ps] eqn:Hp; [done|].
  exfalso.
  apply (pair_team_opponent_drops_unpaired [team_a] team_a eq_refl p).
  - rewrite Hp. constructor.
  - by vm_compute in Hp.
Defined.

Lemma joined_with_opponent (df base : list TeamGame.t) :
  Forall (λ l, ∃ r, filter (opponent_of l) df = [r]) base →
  Forall2 (λ l p, ∃ r, r ∈ df ∧ opponent_of l r ∧ p = merged_row l r)
    base (base ≫= (λ l, merged_row l <$> filter (opponent_of l) df)).
Proof.
  induction 1 as [|l rest [r Hr] _ IH]; [constructor|].
  rewrite bind_cons, Hr. simpl. constructor; [|exact IH].
  exists r. assert (r ∈ filter (opponent_of l) df) as Hin
    by (rewrite Hr; constructor).
  apply list_elem_of_filter in Hin as [? ?]. done.
Qed.

(** X8.  When every row has exactly one opponent row, pairing keeps
    the table's length and order: the i-th paired row is the i-th input
    row joined with its opponent. *)
Theorem pair_team_opponent_one_each (df : list TeamGame.t) :
  one_opponent_each df →
  length (pair_team_opponent df) = length df
  ∧ Forall2 (λ l p, ∃ r, r ∈ df ∧ opponent_of l r ∧ p = merged_row l r)
      df (pair_team_opponent df).
Proof.
  intros Hone.
  assert (Forall2 (λ l p, ∃ r, r ∈ df ∧ opponent_of l r ∧ p = merged_row l r)
            df (pair_team_opponent df)) as H2.
  { rewrite pair_team_opponent_bind. apply joined_with_opponent.
    by apply Forall_forall. }
  split; [|done]. symmetry. by eapply Forall2_length.
Qed.

Lemma pair_team_opponent_one_each_witness :
  length (pair_team_opponent example_game) = 2%nat.
Proof.
  apply (pair_team_opponent_one_each example_game).
  intros l Hl. apply elem_of_cons in Hl as [->|Hl].
  - by exists team_b.
  - apply elem_of_cons in Hl as [->|Hl]; [by exists team_a|].
    by apply elem_of_nil in Hl.
Defined.

(** ** The order of group keys *)

Lemma Ascii_compare_lt a b :
  Ascii.compare a b = Lt ↔ (N_of_ascii a < N_of_ascii b)%N.
Proof. unfold Ascii.compare. apply N.compare_lt_iff. Qed.

Lemma Ascii_compare_Eq a b : Ascii.compare a b = Eq ↔ a = b.
Proof.
  split; [apply Ascii.compare_eq_iff|]. intros ->.
  unfold Ascii.compare. apply N.compare_refl.
Qed.

Lemma String_compare_cons c1 s1 c2 s2 :
  String.compare (String c1 s1) (String c2 s2)
  = match Ascii.compare c1 c2 with
    | Eq => String.compare s1 s2
    | ne => ne
    end.
Proof. reflexivity. Qed.

Lemma String_compare_Eq s1 s2 : String.compare s1 s2 = Eq ↔ s1 = s2.
Proof.
  split; [apply String.compare_eq_iff|]. intros ->.
  induction s2 as [|c s IH]; [done|].
  rewrite String_compare_cons.
  by rewrite (proj2 (Ascii_compare_Eq c c) eq_refl).
Qed.

Lemma String_compare_lt_trans s1 s2 s3 :
  String.compare s1 s2 = Lt → String.compare s2 s3 = Lt →
  String.compare s1 s3 = Lt.
Proof.
  revert s2 s3. induction s1 as [|c1 s1 IH]; intros [|c2 s2] [|c3 s3]; try done.
  rewrite !String_compare_cons.
  destruct (Ascii.compare c1 c2) eqn:H12; [| |done].
  - apply Ascii_compare_Eq in H12 as ->.
    destruct (Ascii.compare c2 c3); [apply IH|done|done].
  - intros _. destruct (Ascii.compare c2 c3) eqn:H23; [| |done].
    + apply Ascii_compare_Eq in H23 as <-. by rewrite H12.
    + intros _.
      apply (proj1 (Ascii_compare_lt _ _)) in H12.
      apply (proj1 (Ascii_compare_lt _ _)) in H23.
      assert (Ascii.compare c1 c3 = Lt) as ->; [|done].
      apply Ascii_compare_lt. lia.
Qed.

Lemma String_leb_spec s1 s2 :
  String.leb s1 s2 = true ↔ String.compare s1 s2 = Lt ∨ s1 = s2.
Proof.
  unfold String.leb. rewrite <- String_compare_Eq.
  destruct (String.compare s1 s2); split; intros; try done; auto.
  by destruct H.
Qed.

Lemma String_ltb_spec s1 s2 :
  String.ltb s1 s2 = true ↔ String.compare s1 s2 = Lt.
Proof. unfold String.ltb. by destruct (String.compare s1 s2). Qed.

Lemma group_key_leb_spec a b :
  group_key_leb a b = true ↔ key_lt a b ∨ a = b.
Proof.
  unfold group_key_leb, key_lt.
  rewrite orb_true_iff, andb_true_iff, Z.ltb_lt, Z.eqb_eq, String_leb_spec,
    String_ltb_spec.
  destruct a as [t1 s1], b as [t2 s2]. simpl. split.
  - intros [?|[-> [?| ->]]]; auto.
  - intros [[?|[-> ?]]|[= -> ->]]; auto.
Qed.

Lemma key_lt_trans a b c : key_lt a b → key_lt b c → key_lt a c.
Proof.
  unfold key_lt. rewrite !String_ltb_spec.
  intros [?|[? ?]] [?|[? ?]]; try (left; lia).
  right. split; [lia|]. by eapply String_compare_lt_trans.
Qed.

Lemma group_key_leb_total a b :
  group_key_leb a b = false → group_key_leb b a = true.
Proof.
  intros Hab. apply group_key_leb_spec.
  destruct (decide (a = b)) as [->|Hne]; [by right|]. left.
  assert (¬ key_lt a b) as Hn.
  { intros H. assert (group_key_leb a b = true) as Ht
      by (apply group_key_leb_spec; by left).
    congruence. }
  unfold key_lt in *. rewrite String_ltb_spec in *.
  destruct a as [t1 s1], b as [t2 s2]. simpl in *.
  destruct (Z.lt_trichotomy t1 t2) as [?|[->|?]]; [tauto| |by left].
  right. split; [done|].
  destruct (String.compare s1 s2) eqn:Hc.
  - apply String_compare_Eq in Hc as ->. done.
  - tauto.
  - rewrite String.compare_antisym, Hc. done.
Qed.

Lemma group_key_leb_trans a b c :
  group_key_leb a b = true → group_key_leb b c = true →
  group_key_leb a c = true.
Proof.
  rewrite !group_key_leb_spec. intros [H1| ->] [H2| ->]; auto.
  left. by eapply key_lt_trans.
Qed.

(** ** Grouping *)

Section Grouping.
Context {R : Type} (key : R → Z * string).

Lemma groupby_rows_keys (df : list R) :
  fst <$> groupby_rows key df
  = stable_sort group_key_leb (remove_dups (key <$> df)).
Proof.
  unfold groupby_rows. rewrite <- list_fmap_compose.
  generalize (stable_sort group_key_leb (remove_dups (key <$> df))).
  intros keys. induction keys as [|k keys IH]; [done|].
  rewrite fmap_cons, IH. done.
Qed.

Lemma groupby_rows_elem (df : list R) g :
  g ∈ groupby_rows key df ↔
  ∃ p, p ∈ df ∧ g = (key p, filter (λ q, key q = key p) df).
Proof.
  unfold groupby_rows. rewrite list_elem_of_fmap. split.
  - intros (k & -> & Hk). rewrite stable_sort_perm in Hk.
    apply elem_of_remove_dups, list_elem_of_fmap in Hk as (p & -> & Hp).
    by exists p.
  - intros (p & Hp & ->). exists (key p). split; [done|].
    rewrite stable_sort_perm. apply elem_of_remove_dups, list_elem_of_fmap.
    by exists p.
Qed.

(** The keys come out in strictly increasing order. *)
Lemma groupby_rows_sorted (df : list R) :
  StronglySorted key_lt (fst <$> groupby_rows key df).
Proof.
  rewrite groupby_rows_keys.
  assert (NoDup (stable_sort group_key_leb (remove_dups (key <$> df)))) as Hnd.
  { rewrite stable_sort_perm. apply NoDup_remove_dups. }
  pose proof (stable_sort_sorted group_key_leb group_key_leb_total
                group_key_leb_trans (remove_dups (key <$> df))) as Hs.
  revert Hnd Hs.
  generalize (stable_sort group_key_leb (remove_dups (key <$> df))).
  intros keys Hnd Hs.
  induction Hs as [|k keys Hs IH Hk]; [constructor|].
  apply NoDup_cons in Hnd as [Hk' Hnd]. constructor; [by apply IH|].
  apply Forall_forall. intros k2 Hk2.
  eapply Forall_forall in Hk; [|exact Hk2].
  apply group_key_leb_spec in Hk as [?| ->]; [done|]. done.
Qed.
End Grouping.

Lemma StronglySorted_fmap_inv {A B} (f : A → B) (P : B → B → Prop) l :
  StronglySorted P (f <$> l) → StronglySorted (λ x y, P (f x) (f y)) l.
Proof.
  induction l as [|x l IH]; [constructor|].
  rewrite fmap_cons. intros [Hl Hx]%StronglySorted_inv.
  constructor; [by apply IH|]. exact (proj1 (Forall_fmap _ _ _) Hx).
Qed.

Lemma startswith_last window :
  startswith window "LAST_" = true → ∃ s, window = "LAST_" +:+ s.
Proof.
  destruct window as [|c1 [|c2 [|c3 [|c4 [|c5 s]]]]]; try done;
    simpl; rewrite ?andb_false_r; try done.
  rewrite !andb_true_iff, !Ascii.eqb_eq.
  intros (-> & -> & -> & -> & -> & _). by exists s.
Qed.

(** After the prefix "LAST_" there is always a second field. *)
Lemma split_last_field s :
  ∃ text, split "_" ("LAST_" +:+ s) !! 1%nat = Some text
          ∧ split "_" s !! 0%nat = Some text.
Proof.
  pose proof (split_not_nil "_" s) as Hs.
  rewrite last_unfold. simpl.
  destruct (split "_" s) as [|text ws]; [done|]. simpl. eauto.
Qed.

(** ** More on aggregation with defense *)

(** X9.  Which windows [aggregate_team_with_defense] refuses, and
    how: a window other than "SEASON" that does not start with "LAST_" is
    an unsupported-window error; one that starts with "LAST_" but has no
    integer after the first underscore fails with Python's own error of
    [int], not with the invalid-window-format error that window filtering
    (and so [aggregate_team_offense]) raises for the same text.  An
    IndexError is never raised.  The windows accepted are exactly those
    window filtering accepts. *)
Theorem aggregate_team_with_defense_refusals
    (df : list TeamGame.t) (window : string) :
  (∀ e, aggregate_team_with_defense df window = Raise e ↔
        window ≠ "SEASON"
        ∧ ((startswith window "LAST_" = false
            ∧ e = ValueError (UnsupportedWindow window))
           ∨ (startswith window "LAST_" = true
              ∧ ∃ text, split "_" window !! 1%nat = Some text
                        ∧ py_int text = None
                        ∧ e = ValueError (InvalidLiteralForInt text))))
  ∧ aggregate_team_with_defense df window ≠ Raise IndexError
  ∧ (∀ e, aggregate_team_with_defense df window = Raise e →
          startswith window "LAST_" = true →
          apply_time_window_team_games df window
          = Raise (ValueError (InvalidWindowFormat window))
          ∧ e ≠ ValueError (InvalidWindowFormat window))
  ∧ ((∃ out, aggregate_team_with_defense df window = Ok out)
     ↔ ∃ rows, apply_time_window_team_games df window = Ok rows).
Proof.
  unfold aggregate_team_with_defense, windowed_pairs,
    apply_time_window_team_games, window_count.
  destruct (decide (window = "SEASON")) as [->|Hw].
  { simpl. split; [|split; [done|split; [done|split; eauto]]].
    intros e. split; [done|]. by intros [? _]. }
  rewrite (decide_True (P := window ≠ "SEASON")) by done.
  destruct (startswith window "LAST_") eqn:Hp.
  - apply startswith_last in Hp as [s ->].
    destruct (split_last_field s) as (text & -> & _). simpl.
    destruct (py_int text) as [n|] eqn:Hint; simpl.
    + split; [|split; [done|split; [done|split; eauto]]].
      intros e. split; [done|].
      intros [_ [[? _]|(_ & text' & [= <-] & ? & _)]]; congruence.
    + split; [|split; [done|split; [|split; intros [? [=]]]]].
      * intros e. split.
        -- intros [= <-]. split; [done|]. right. split; [done|]. eauto.
        -- intros [_ [[? _]|(_ & text' & [= <-] & _ & ->)]]; done.
      * intros e [= <-] _. done.
  - simpl. split; [|split; [done|split; [done|split; intros [? [=]]]]].
    intros e. split.
    + intros [= <-]. split; [done|]. by left.
    + intros [_ [[_ ->]|[? _]]]; done.
Qed.

(** X10.  The rows of the ratings table are in strictly increasing
    order of team identifier, then abbreviation, whatever the order of
    the input rows. *)
Theorem aggregate_team_with_defense_sorted
    (df : list TeamGame.t) (window : string) (out : list Ratings.t) :
  aggregate_team_with_defense df window = Ok out →
  StronglySorted
    (λ a b, key_lt (Ratings.TEAM_ID a, Ratings.TEAM_ABBREVIATION a)
                   (Ratings.TEAM_ID b, Ratings.TEAM_ABBREVIATION b)) out.
Proof.
  unfold aggregate_team_with_defense.
  destruct (windowed_pairs df window) as [paired|]; [|done].
  intros [= <-].
  eapply (StronglySorted_fmap ratings_row (λ g1 g2, key_lt g1.1 g2.1)).
  - intros [[t1 a1] g1] [[t2 a2] g2]. done.
  - apply StronglySorted_fmap_inv.
    apply (groupby_rows_sorted group_key paired).
Qed.

Lemma aggregate_team_with_defense_sorted_witness :
  StronglySorted
    (λ a b, key_lt (Ratings.TEAM_ID a, Ratings.TEAM_ABBREVIATION a)
                   (Ratings.TEAM_ID b, Ratings.TEAM_ABBREVIATION b))
    example_ratings.
Proof.
  apply (aggregate_team_with_defense_sorted (reverse example_game) "SEASON").
  vm_compute. reflexivity.
Defined.

Lemma sub_nan_l x : (nan - x)%float = nan.
Proof.
  apply Prim2SF_inj. rewrite sub_spec.
  change (Prim2SF nan) with S754_nan. done.
Qed.

Lemma sub_nan_r x : (x - nan)%float = nan.
Proof.
  apply Prim2SF_inj. rewrite sub_spec.
  change (Prim2SF nan) with S754_nan. by destruct (Prim2SF x).
Qed.

Lemma replace_zero_zero x : is_zero x = true → replace_zero x = nan.
Proof. unfold replace_zero. by intros ->. Qed.

(** X11.  A team whose possessions add up to zero gets no offensive
    rating: ORtg is NaN, not an infinity and not an error, and so is
    NET_RTG; likewise DRtg and NET_RTG are NaN when possessions against
    add up to zero. *)
Theorem aggregate_team_with_defense_zero_possessions
    (df : list TeamGame.t) (window : string) (out : list Ratings.t)
    (g : Ratings.t) :
  aggregate_team_with_defense df window = Ok out → g ∈ out →
  (is_zero (Ratings.POSS_FOR g) = true →
     Ratings.ORtg g = nan ∧ Ratings.NET_RTG g = nan)
  ∧ (is_zero (Ratings.POSS_AGAINST g) = true →
       Ratings.DRtg g = nan ∧ Ratings.NET_RTG g = nan).
Proof.
  unfold aggregate_team_with_defense.
  destruct (windowed_pairs df window) as [paired|]; [|done].
  intros [= <-] (grp & -> & _)%list_elem_of_fmap. simpl.
  split; intros Hz; rewrite (replace_zero_zero _ Hz), div_nan_r.
  - by rewrite sub_nan_l.
  - by rewrite sub_nan_r.
Qed.

Lemma aggregate_team_with_defense_zero_possessions_witness :
  ∃ out g,
    aggregate_team_with_defense idle_game "SEASON" = Ok out
    ∧ g ∈ out ∧ Ratings.ORtg g = nan ∧ Ratings.NET_RTG g = nan.
Proof.
  destruct (aggregate_team_with_defense idle_game "SEASON")
    as [[|g out]|] eqn:Hagg; [by vm_compute in Hagg| |by vm_compute in Hagg].
  exists (g :: out), g. split; [done|].
  assert (g ∈ g :: out) as Hg by (apply elem_of_cons; by left).
  split; [done|].
  apply (aggregate_team_with_defense_zero_possessions
           idle_game "SEASON" (g :: out) g Hagg Hg).
  vm_compute in Hagg.
  apply (f_equal (λ r, match r with
                       | Ok (g :: _) => is_zero (Ratings.POSS_FOR g)
                       | _ => false
                       end)) in Hagg.
  simpl in Hagg. rewrite <- Hagg. reflexivity.
Defined.

(** ** Offense aggregation *)

Lemma apply_time_window_cases {R} {TG : TeamGames R} (df out : list R) window :
  apply_time_window_team_games df window = Ok out →
  (window = "SEASON" ∧ out = sort_values_team_date df)
  ∨ (∃ n, window_count window = Some n ∧ window ≠ "SEASON"
          ∧ out = groupby_head n (sort_values_team_date df)).
Proof.
  unfold apply_time_window_team_games.
  destruct (decide (window = "SEASON")) as [->|Hne];
    [intros [= <-]; by left|].
  destruct (startswith _ _); [|done].
  destruct (window_count window) as [n|]; [|done].
  intros [= <-]. right. by exists n.
Qed.

Lemma group_of_team_box (rows : list BoxScore.t) t a :
  filter (λ r, box_key r = (t, a)) rows
  = filter (λ r, BoxScore.TEAM_ABBREVIATION r = a) (team_rows t rows).
Proof.
  unfold team_rows. rewrite list_filter_filter. apply list_filter_iff.
  intros p. unfold box_key. simpl. split.
  - by intros [= -> ->].
  - by intros [-> ->].
Qed.

(** X12.  When [aggregate_team_offense] returns a table, its rows are
    in strictly increasing order of team identifier, then abbreviation,
    and for every team the rows it is computed from are these: the team's
    rows put newest first (rows of one date in table order), of which the
    window keeps the first ones, all for "SEASON" and min(N, count) for
    "LAST_N".  The team has a row in the table exactly when it keeps a
    row; in it GAMES is the number of rows kept, the ten totals are the
    sums of their columns over the rows kept (added in that order, NaN
    skipped), and PPG = PTS / GAMES, ORtg = 100 * PTS / POSS,
    eFG = (FGM + 0.5 * FG3M) / FGA, TS = PTS / (2 * (FGA + 0.44 * FTA)),
    AST_RATE = AST / POSS, TOV_RATE = TOV / POSS, PACE = POSS / GAMES, a
    denominator equal to zero being replaced by NaN first. *)
Theorem aggregate_team_offense_formulas
    (df : list BoxScore.t) (window : string) (out : list Offense.t) :
  aggregate_team_offense df window = Ok out →
  StronglySorted
    (λ a b, key_lt (Offense.TEAM_ID a, Offense.TEAM_ABBREVIATION a)
                   (Offense.TEAM_ID b, Offense.TEAM_ABBREVIATION b)) out
  ∧ ∀ t, ∃ kept dropped,
      newest_first (team_rows t df) kept dropped
      ∧ (∀ m, window_keeps window (length (team_rows t df)) m →
              length kept = m)
      ∧ ∀ a,
          let games := filter (λ r, BoxScore.TEAM_ABBREVIATION r = a) kept in
          (games = [] →
             ∀ g, g ∈ out →
               (Offense.TEAM_ID g, Offense.TEAM_ABBREVIATION g) ≠ (t, a))
          ∧ (games ≠ [] →
               ∃ g, g ∈ out
                 ∧ Offense.TEAM_ID g = t
                 ∧ Offense.TEAM_ABBREVIATION g = a
                 ∧ Offense.GAMES g = Z.of_nat (length games)
                 ∧ sums_to (BoxScore.PTS <$> games) (Offense.PTS g)
                 ∧ sums_to (BoxScore.FGA <$> games) (Offense.FGA g)
                 ∧ sums_to (BoxScore.FGM <$> games) (Offense.FGM g)
                 ∧ sums_to (BoxScore.FG3M <$> games) (Offense.FG3M g)
                 ∧ sums_to (BoxScore.FTA <$> games) (Offense.FTA g)
                 ∧ sums_to (BoxScore.OREB <$> games) (Offense.OREB g)
                 ∧ sums_to (BoxScore.TOV <$> games) (Offense.TOV g)
                 ∧ sums_to (BoxScore.AST <$> games) (Offense.AST g)
                 ∧ sums_to (BoxScore.POSS <$> games) (Offense.POSS g)
                 ∧ sums_to (BoxScore.MIN <$> games) (Offense.MIN g)
                 ∧ Offense.PPG g
                   = (Offense.PTS g / float_of_Z (Offense.GAMES g))%float
                 ∧ Offense.ORtg g
                   = (100 * Offense.PTS g
                      / (if is_zero (Offense.POSS g) then nan
                         else Offense.POSS g))%float
                 ∧ Offense.eFG g
                   = ((Offense.FGM g + 0.5 * Offense.FG3M g)
                      / (if is_zero (Offense.FGA g) then nan
                         else Offense.FGA g))%float
                 ∧ Offense.TS g
                   = (Offense.PTS g
                      / (2 * (if is_zero (Offense.FGA g + 0.44 * Offense.FTA g)
                              then nan
                              else Offense.FGA g + 0.44 * Offense.FTA g)))%float
                 ∧ Offense.AST_RATE g
                   = (Offense.AST g
                      / (if is_zero (Offense.POSS g) then nan
                         else Offense.POSS g))%float
                 ∧ Offense.TOV_RATE g
                   = (Offense.TOV g
                      / (if is_zero (Offense.POSS g) then nan
                         else Offense.POSS g))%float
                 ∧ Offense.PACE g
                   = (Offense.POSS g / float_of_Z (Offense.GAMES g))%float).
Proof.
  unfold aggregate_team_offense. intros Hagg.
  destruct (apply_time_window_team_games df window) as [rows|] eqn:Hw; [|done].
  injection Hagg as <-. split.
  { eapply (StronglySorted_fmap offense_row (λ g1 g2, key_lt g1.1 g2.1)).
    - intros [[t1 a1] g1] [[t2 a2] g2]. done.
    - apply StronglySorted_fmap_inv. apply (groupby_rows_sorted box_key rows). }
  intros t.
  destruct (windowed_team_rows df rows window t
              (apply_time_window_cases df rows window Hw))
    as (dropped & Hnew & Hlen).
  exists (team_rows t rows), dropped. split; [done|]. split; [done|].
  intros a. simpl. rewrite <- group_of_team_box. split.
  - intros Hnil g (grp & -> & (p & Hp & ->)%groupby_rows_elem)%list_elem_of_fmap.
    simpl. intros Hkey.
    assert (p ∈ filter (λ q, box_key q = (t, a)) rows) as Hin
      by (by apply list_elem_of_filter).
    rewrite Hnil in Hin. by apply elem_of_nil in Hin.
  - intros Hne.
    destruct (filter (λ q, box_key q = (t, a)) rows) as [|p games] eqn:Hg;
      [done|].
    assert (p ∈ filter (λ q, box_key q = (t, a)) rows) as Hp
      by (rewrite Hg; apply elem_of_cons; by left).
    apply list_elem_of_filter in Hp as [Hkey Hp].
    exists (offense_row (box_key p, filter (λ q, box_key q = box_key p) rows)).
    split; [apply list_elem_of_fmap_2, groupby_rows_elem; eauto|].
    rewrite Hkey, Hg. simpl.
    unfold replace_zero, replace_zero_count.
    destruct (Z.eqb_spec (Z.pos (Pos.of_succ_nat (length games))) 0); [lia|].
    repeat split; apply group_sum_sums_to.
Qed.

Lemma aggregate_team_offense_formulas_witness :
  ∃ out g,
    aggregate_team_offense box_score_sample "LAST_1" = Ok out
    ∧ g ∈ out
    ∧ Offense.TEAM_ID g = 1
    ∧ Offense.GAMES g = 1
    ∧ Offense.PTS g = 104%float
    ∧ Offense.ORtg g = (100 * 104 / 100)%float.
Proof.
  destruct (aggregate_team_offense box_score_sample "LAST_1")
    as [out|] eqn:Hagg; [|by vm_compute in Hagg].
  exists out.
  destruct (aggregate_team_offense_formulas box_score_sample "LAST_1" out Hagg) as [_ Hteam].
  destruct (Hteam 1) as (kept & dropped & (Hperm & Hsorted & _) & Hlen & Hrow).
  assert (length kept = 1%nat) as Hone.
  { apply (Hlen (Nat.min (Z.to_nat 1) 2)).
    apply (window_keeps_last "1" 1 2). by apply decimal_digit. }
  change (team_rows 1 box_score_sample)
    with [box 1 1 "A" 100 95; box 2 1 "A" 104 100] in Hperm.
  assert (kept = [box 2 1 "A" 104 100]) as ->.
  { symmetry in Hperm. apply Permutation_length_2_inv in Hperm as [Heq|Heq].
    - rewrite Heq in Hsorted. apply StronglySorted_inv in Hsorted as [_ Hs].
      apply Forall_cons in Hs as [Hs _]. by vm_compute in Hs.
    - destruct kept as [|p [|q kept]]; simpl in Hone; try discriminate.
      by injection Heq as ->. }
  destruct (Hrow "A"%string) as [_ Hg].
  destruct Hg as (g & Hg & Hid & _ & Hgames & Hpts & _ & _ & _ & _ & _ & _ & _
                    & Hposs & _ & _ & Hortg & _); [done|].
  exists g. split; [done|]. split; [done|]. split; [done|].
  apply sums_to_unique in Hpts, Hposs.
  rewrite Hortg, Hpts, Hposs. split; [done|]. by vm_compute.
Defined.

(** ** Two tables that go through the pipeline side by side *)

Section Parallel.
Context {R1 R2 : Type} {TG1 : TeamGames R1} {TG2 : TeamGames R2}.
Context (rel : R1 → R2 → Prop).
Hypothesis rel_team : ∀ a b, rel a b → team_id a = team_id b.
Hypothesis rel_date : ∀ a b, rel a b → game_date a = game_date b.

Lemma filter_parallel (P : R1 → Prop) (Q : R2 → Prop)
    `{!∀ a, Decision (P a)} `{!∀ b, Decision (Q b)} l l' :
  (∀ a b, rel a b → P a ↔ Q b) →
  Forall2 rel l l' → Forall2 rel (filter P l) (filter Q l').
Proof.
  intros HPQ. induction 1 as [|a b l l' Hab _ IH]; [constructor|].
  rewrite !filter_cons. destruct (decide (P a)) as [Ha|Ha].
  - rewrite decide_True by (by apply (HPQ a b)). by constructor.
  - rewrite decide_False by (by rewrite <- (HPQ a b)). done.
Qed.

Lemma team_date_leb_parallel a b a' b' :
  rel a a' → rel b b' → team_date_leb a b = team_date_leb a' b'.
Proof.
  intros Ha Hb. unfold team_date_leb.
  by rewrite (rel_team _ _ Ha), (rel_team _ _ Hb),
    (rel_date _ _ Ha), (rel_date _ _ Hb).
Qed.

Lemma insert_sorted_parallel x y l l' :
  rel x y → Forall2 rel l l' →
  Forall2 rel (insert_sorted team_date_leb x l) (insert_sorted team_date_leb y l').
Proof.
  intros Hxy. induction 1 as [|a b l l' Hab Hl IH]; simpl.
  - by repeat constructor.
  - rewrite (team_date_leb_parallel x a y b) by done.
    destruct (team_date_leb y b); by repeat constructor.
Qed.

Lemma sort_values_parallel l l' :
  Forall2 rel l l' →
  Forall2 rel (sort_values_team_date l) (sort_values_team_date l').
Proof.
  unfold sort_values_team_date, stable_sort.
  induction 1 as [|a b l l' Hab _ IH]; simpl; [constructor|].
  by apply insert_sorted_parallel.
Qed.

Lemma head_rows_parallel limit limit' seen l l' :
  (∀ t, limit t = limit' t) →
  Forall2 rel l l' →
  Forall2 rel (head_rows limit seen l) (head_rows limit' seen l').
Proof.
  intros Hlim Hl. revert seen.
  induction Hl as [|a b l l' Hab _ IH]; intros seen; simpl; [constructor|].
  rewrite <- (rel_team _ _ Hab), <- Hlim.
  destruct (_ <? _); [constructor; [done|]|]; apply IH.
Qed.

Lemma groupby_head_parallel n l l' :
  Forall2 rel l l' → Forall2 rel (groupby_head n l) (groupby_head n l').
Proof.
  intros Hl. apply head_rows_parallel; [|done].
  intros t. destruct (0 <=? n); [done|]. f_equal. f_equal.
  unfold team_rows. eapply Forall2_length, filter_parallel; [|exact Hl].
  intros a b Hab. by rewrite (rel_team _ _ Hab).
Qed.

Context (key1 : R1 → Z * string) (key2 : R2 → Z * string).
Hypothesis rel_key : ∀ a b, rel a b → key1 a = key2 b.

Lemma groupby_rows_parallel l l' :
  Forall2 rel l l' →
  Forall2 (λ g g', g.1 = g'.1 ∧ Forall2 rel g.2 g'.2)
    (groupby_rows key1 l) (groupby_rows key2 l').
Proof.
  intros Hl. unfold groupby_rows.
  assert (key1 <$> l = key2 <$> l') as ->.
  { induction Hl as [|a b l l' Hab _ IH]; [done|].
    by rewrite !fmap_cons, IH, (rel_key _ _ Hab). }
  generalize (stable_sort group_key_leb (remove_dups (key2 <$> l'))).
  intros keys. induction keys as [|k keys IH]; [constructor|].
  rewrite !fmap_cons. constructor; [|exact IH].
  split; [done|]. simpl. apply filter_parallel; [|done].
  intros a b Hab. by rewrite (rel_key _ _ Hab).
Qed.
End Parallel.

Lemma Forall2_fmap_eq {A B C} (rel : A → B → Prop) (f : A → C) (g : B → C) l l' :
  (∀ a b, rel a b → f a = g b) → Forall2 rel l l' → f <$> l = g <$> l'.
Proof.
  intros Hfg. induction 1 as [|a b l l' Hab _ IH]; [done|].
  by rewrite !fmap_cons, IH, (Hfg a b).
Qed.

Lemma pair_base_columns_own_side (df : list BoxScore.t) :
  one_opponent_each (base_columns <$> df) →
  Forall2 own_side df (pair_team_opponent (base_columns <$> df)).
Proof.
  intros Hone. rewrite pair_team_opponent_bind.
  assert (Forall (λ l, ∃ r, filter (opponent_of l) (base_columns <$> df) = [r])
            (base_columns <$> df)) as Hall by (by apply Forall_forall).
  apply joined_with_opponent in Hall.
  apply Forall2_fmap_l in Hall.
  eapply Forall2_impl; [exact Hall|].
  intros x p (r & _ & _ & ->). by repeat split.
Qed.

(** X13.  The offense table and the ratings table agree on a team's
    own numbers.  When every team-game row has exactly one opponent row
    (same game identifier and date, another team), both aggregations of
    the same table have the same teams in the same order, and for every
    team the same GAMES, the same points and possessions totals (PTS is
    PTS_FOR, POSS is POSS_FOR), the same ORtg and the same PACE. *)
Theorem aggregate_offense_defense_agree
    (df : list BoxScore.t) (window : string)
    (offense : list Offense.t) (ratings : list Ratings.t) :
  one_opponent_each (base_columns <$> df) →
  aggregate_team_offense df window = Ok offense →
  aggregate_team_with_defense (base_columns <$> df) window = Ok ratings →
  Forall2 (λ o r,
      Offense.TEAM_ID o = Ratings.TEAM_ID r
      ∧ Offense.TEAM_ABBREVIATION o = Ratings.TEAM_ABBREVIATION r
      ∧ Offense.GAMES o = Ratings.GAMES r
      ∧ Offense.PTS o = Ratings.PTS_FOR r
      ∧ Offense.POSS o = Ratings.POSS_FOR r
      ∧ Offense.ORtg o = Ratings.ORtg r
      ∧ Offense.PACE o = Ratings.PACE r)
    offense ratings.
Proof.
  intros Hone Hoff Hrat.
  pose proof (pair_base_columns_own_side df Hone) as Hpair.
  assert (∀ a b, own_side a b → team_id a = team_id b) as Hteam
    by (intros a b (H & _); exact (eq_sym H)).
  assert (∀ a b, own_side a b → game_date a = game_date b) as Hdate
    by (intros a b (_ & _ & H & _); exact (eq_sym H)).
  apply (sort_values_parallel own_side Hteam Hdate) in Hpair.
  assert (∃ rows paired,
            apply_time_window_team_games df window = Ok rows
            ∧ windowed_pairs (base_columns <$> df) window = Ok paired
            ∧ Forall2 own_side rows paired) as (rows & paired & Hrows & Hpaired & Hrel).
  { unfold aggregate_team_offense in Hoff.
    unfold aggregate_team_with_defense in Hrat.
    destruct (apply_time_window_team_games df window) as [rows|] eqn:Hw; [|done].
    destruct (windowed_pairs (base_columns <$> df) window) as [paired|] eqn:Hp;
      [|done].
    exists rows, paired. split; [done|]. split; [done|].
    unfold apply_time_window_team_games, window_count in Hw.
    unfold windowed_pairs in Hp.
    destruct (decide (window = "SEASON")) as [->|Hne].
    - simpl in Hp. injection Hw as <-. injection Hp as <-. done.
    - rewrite (decide_True (P := window ≠ "SEASON")) in Hp by done.
      destruct (startswith window "LAST_"); [|done].
      destruct (split "_" window !! 1%nat) as [text|]; [|done]. simpl in Hw.
      destruct (py_int text) as [n|]; [|done].
      injection Hw as <-. injection Hp as <-.
      by apply (groupby_head_parallel own_side Hteam). }
  unfold aggregate_team_offense in Hoff. rewrite Hrows in Hoff.
  unfold aggregate_team_with_defense in Hrat. rewrite Hpaired in Hrat.
  injection Hoff as <-. injection Hrat as <-.
  apply Forall2_fmap.
  eapply Forall2_impl.
  { apply (groupby_rows_parallel own_side box_key group_key); [|exact Hrel].
    by intros a b (Ht & Ha & _); unfold box_key, group_key; rewrite Ht, Ha. }
  intros [k1 g1] [k2 g2] [Hk Hg]. simpl in *. subst k2.
  rewrite (Forall2_length _ _ _ Hg).
  rewrite (Forall2_fmap_eq own_side BoxScore.PTS Paired.PTS_FOR g1 g2)
    by (done || by intros a b (_ & _ & _ & -> & _)).
  rewrite (Forall2_fmap_eq own_side BoxScore.POSS Paired.POSS_FOR g1 g2)
    by (done || by intros a b (_ & _ & _ & _ & ->)).
  done.
Qed.

Lemma aggregate_offense_defense_agree_witness :
  ∃ offense ratings,
    aggregate_team_offense box_score_sample "LAST_1" = Ok offense
    ∧ aggregate_team_with_defense (base_columns <$> box_score_sample) "LAST_1"
      = Ok ratings
    ∧ Forall2 (λ o r, Offense.ORtg o = Ratings.ORtg r) offense ratings.
Proof.
  eexists _, _. split; [reflexivity|]. split; [reflexivity|].
  eapply Forall2_impl.
  - apply (aggregate_offense_defense_agree box_score_sample "LAST_1").
    + intros l Hl. unfold box_score_sample in Hl.
      repeat (apply elem_of_cons in Hl as [->|Hl]; [eexists; reflexivity|]).
      by apply elem_of_nil in Hl.
    + reflexivity.
    + reflexivity.
  - intros o r (_ & _ & _ & _ & _ & H & _). exact H.
Defined.

(** ** More on the row-level derived fields *)

Lemma is_infinity_replace_inf x : is_infinity (replace_inf x) = false.
Proof. unfold replace_inf. by destruct (is_infinity x) eqn:Hx. Qed.

Lemma possessions_row_Ok r r' :
  possessions_row r = Ok r' ↔
  ∃ fga fta oreb tov,
    number r "FGA" = Ok fga ∧ number r "FTA" = Ok fta
    ∧ number r "OREB" = Ok oreb ∧ number r "TOV" = Ok tov
    ∧ r' = <["POSS" := CFloat (replace_inf (possessions fga fta oreb tov))]> r.
Proof.
  unfold possessions_row. split.
  - destruct (number r "FGA") as [fga|]; simpl; [|done].
    destruct (number r "FTA") as [fta|]; simpl; [|done].
    destruct (number r "OREB") as [oreb|]; simpl; [|done].
    destruct (number r "TOV") as [tov|]; simpl; [|done].
    intros [= <-]. by exists fga, fta, oreb, tov.
  - intros (fga & fta & oreb & tov & -> & -> & -> & -> & ->). done.
Qed.

Lemma shooting_row_Ok r r' :
  shooting_row r = Ok r' ↔
  ∃ fgm fg3m fga pts fta,
    number r "FGM" = Ok fgm ∧ number r "FG3M" = Ok fg3m
    ∧ number r "FGA" = Ok fga ∧ number r "PTS" = Ok pts
    ∧ number r "FTA" = Ok fta
    ∧ r' = <["TS" := CFloat (replace_inf (ts pts fga fta))]>
             (<["eFG" := CFloat (replace_inf (efg fgm fg3m fga))]> r).
Proof.
  unfold shooting_row. split.
  - destruct (number r "FGM") as [fgm|]; simpl; [|done].
    destruct (number r "FG3M") as [fg3m|]; simpl; [|done].
    destruct (number r "FGA") as [fga|]; simpl; [|done].
    destruct (number r "PTS") as [pts|]; simpl; [|done].
    destruct (number r "FTA") as [fta|]; simpl; [|done].
    intros [= <-]. by exists fgm, fg3m, fga, pts, fta.
  - intros (fgm & fg3m & fga & pts & fta & -> & -> & -> & -> & -> & ->). done.
Qed.

Lemma shooting_columns cols :
  foldl (λ cols c, with_column c cols) cols ["eFG"; "TS"; "eFG"; "TS"]%string
  = with_column "TS" (with_column "eFG" cols).
Proof.
  simpl.
  rewrite (with_column_present "eFG" (with_column "TS" _))
    by apply with_column_mono, with_column_elem.
  by rewrite (with_column_present "TS" (with_column "TS" _))
    by apply with_column_elem.
Qed.

Lemma add_shooting_metrics_Ok df df' :
  add_shooting_metrics df = Ok df' ↔
  Forall (λ c, c ∈ columns df) ["FGM"; "FG3M"; "FGA"; "PTS"; "FTA"]%string
  ∧ columns df' = with_column "TS" (with_column "eFG" (columns df))
  ∧ map_rows shooting_row (rows df) = Ok (rows df').
Proof.
  rewrite (add_shooting_metrics_rowwise df df'), shooting_columns.
  split; intros (Hcols & ? & ?); (split; [|done]).
  - apply Forall_forall. intros c Hc.
    eapply Forall_forall in Hcols; [exact Hcols|].
    set_unfold. tauto.
  - apply Forall_forall. intros c Hc.
    eapply Forall_forall in Hcols; [exact Hcols|].
    set_unfold. tauto.
Qed.

(** X14.  The shooting percentages of every row.  On a table whose
    FGM, FG3M, FGA, PTS and FTA columns hold numbers,
    [add_shooting_metrics] succeeds, keeps the rows and every other cell,
    appends the columns eFG and TS if they are new, and sets
    eFG = (FGM + 0.5 * FG3M) / FGA and TS = PTS / (2 * (FGA + 0.44 * FTA)),
    a zero denominator being replaced by NaN before the division and an
    infinite quotient by NaN after it. *)
Theorem add_shooting_metrics_formulas (df : DataFrame) :
  numeric ["FGM"; "FG3M"; "FGA"; "PTS"; "FTA"]%string df →
  ∃ df',
    add_shooting_metrics df = Ok df'
    ∧ columns df' = with_column "TS" (with_column "eFG" (columns df))
    ∧ length (rows df') = length (rows df)
    ∧ ∀ i r fgm fg3m fga pts fta,
        rows df !! i = Some r →
        number r "FGM" = Ok fgm → number r "FG3M" = Ok fg3m →
        number r "FGA" = Ok fga → number r "PTS" = Ok pts →
        number r "FTA" = Ok fta →
        ∃ r',
          rows df' !! i = Some r'
          ∧ (∀ c, c ≠ "eFG"%string → c ≠ "TS"%string → r' !! c = r !! c)
          ∧ r' !! "eFG"%string
            = Some (CFloat
                (let x := ((fgm + 0.5 * fg3m) / replace_zero fga)%float in
                 if is_infinity x then nan else x))
          ∧ r' !! "TS"%string
            = Some (CFloat
                (let x := (pts / (2 * replace_zero (fga + 0.44 * fta)))%float in
                 if is_infinity x then nan else x)).
Proof.
  intros Hnum. destruct (add_shooting_metrics_total df Hnum) as [df' Hdf'].
  exists df'. split; [done|].
  apply add_shooting_metrics_Ok in Hdf' as (_ & Hcols & Hrows).
  split; [done|]. split; [by eapply map_rows_length|].
  intros i r fgm fg3m fga pts fta Hr Hfgm Hfg3m Hfga Hpts Hfta.
  destruct (map_rows_lookup _ _ _ _ _ Hrows Hr) as (r' & Hr' & Hrow).
  exists r'. split; [done|].
  apply shooting_row_Ok in Hrow
    as (fgm' & fg3m' & fga' & pts' & fta' & H1 & H2 & H3 & H4 & H5 & ->).
  assert (fgm' = fgm) as -> by congruence.
  assert (fg3m' = fg3m) as -> by congruence.
  assert (fga' = fga) as -> by congruence.
  assert (pts' = pts) as -> by congruence.
  assert (fta' = fta) as -> by congruence.
  split; [|split].
  - intros c Hc1 Hc2. by rewrite !lookup_insert_ne.
  - by rewrite lookup_insert_ne, lookup_insert_eq.
  - by rewrite lookup_insert_eq.
Qed.

Lemma add_shooting_metrics_formulas_witness :
  ∃ df',
    add_shooting_metrics possessions_example = Ok df'
    ∧ columns df' = required ++ ["eFG"; "TS"]%string.
Proof.
  destruct (add_shooting_metrics_formulas possessions_example)
    as (df' & Hdf' & Hcols & _).
  - split; [by vm_compute; repeat constructor|].
    repeat constructor; eexists; vm_compute; reflexivity.
  - exists df'. split; [done|]. rewrite Hcols. reflexivity.
Defined.

(** X15.  Each of the two derived-field functions succeeds exactly
    when the columns it reads exist and hold numbers in every row; a
    column that is absent, or a cell that holds text or a date, makes it
    fail. *)
Theorem derived_fields_need_numbers (df : DataFrame) :
  ((∃ df', add_possessions df = Ok df')
     ↔ numeric ["FGA"; "FTA"; "OREB"; "TOV"]%string df)
  ∧ ((∃ df', add_shooting_metrics df = Ok df')
       ↔ numeric ["FGM"; "FG3M"; "FGA"; "PTS"; "FTA"]%string df).
Proof.
  split; (split; [|by (apply add_possessions_total || apply add_shooting_metrics_total)]).
  - intros [df' (Hcols & _ & Hrows)%add_possessions_Ok]. split; [done|].
    apply map_rows_Ok in Hrows. eapply Forall2_Forall_l; [exact Hrows|].
    apply Forall_forall. intros r' _ r
      (fga & fta & oreb & tov & ? & ? & ? & ? & _)%possessions_row_Ok.
    repeat constructor; eauto.
  - intros [df' (Hcols & _ & Hrows)%add_shooting_metrics_Ok]. split; [done|].
    apply map_rows_Ok in Hrows. eapply Forall2_Forall_l; [exact Hrows|].
    apply Forall_forall. intros r' _ r
      (fgm & fg3m & fga & pts & fta & ? & ? & ? & ? & ? & _)%shooting_row_Ok.
    repeat constructor; eauto.
Qed.

(** ** The preparation pipeline *)

Section Pipeline.
Variable to_datetime : list Cell → option (list Timestamp).

Lemma prepare_team_games_for_metrics_Ok df df' :
  prepare_team_games_for_metrics to_datetime df = Ok df' ↔
  ∃ d1 d2,
    normalize_team_game_df to_datetime df = Ok d1
    ∧ add_possessions d1 = Ok d2
    ∧ add_shooting_metrics d2 = Ok df'.
Proof.
  unfold prepare_team_games_for_metrics.
  destruct (normalize_team_game_df to_datetime df) as [d1|]; simpl.
  - destruct (add_possessions d1) as [d2|] eqn:H2; simpl.
    + split; [eauto|]. intros (? & ? & [= <-] & H2' & ?). congruence.
    + split; [done|]. intros (? & ? & [= <-] & H2' & _). congruence.
  - split; [done|]. by intros (? & ? & ? & _).
Qed.

(** What the pipeline makes of every row. *)
Lemma prepare_team_games_for_metrics_rows df df' :
  prepare_team_games_for_metrics to_datetime df = Ok df' →
  Forall2 (λ r r', ∃ t r2,
      possessions_row (<["GAME_DATE" := CDate t]> r) = Ok r2
      ∧ shooting_row r2 = Ok r') (rows df) (rows df').
Proof.
  intros (d1 & d2 & H1 & H2 & H3)%prepare_team_games_for_metrics_Ok.
  apply normalize_team_game_df_Ok in H1
    as (_ & dates & ts & _ & _ & Hlen & ->).
  apply add_possessions_Ok in H2 as (_ & _ & H2%map_rows_Ok).
  apply add_shooting_metrics_Ok in H3 as (_ & _ & H3%map_rows_Ok).
  simpl in H2.
  assert (Forall2 (λ r r1, ∃ t, r1 = <["GAME_DATE" := CDate t]> r) (rows df)
            (zip_with (λ r v, <["GAME_DATE" := v]> r) (rows df) (CDate <$> ts)))
    as H1.
  { clear H2. revert ts Hlen.
    induction (rows df) as [|r rs IH]; intros [|t ts] Hlen;
      simpl in *; try discriminate; constructor.
    + by exists t.
    + apply IH. by injection Hlen. }
  pose proof (Forall2_compose _ _ _ _ _
                (Forall2_compose _ _ _ _ _ H1 H2) H3) as H.
  eapply Forall2_impl; [exact H|].
  intros r r' (r2 & (r1 & [t ->] & Hp) & Hs). by exists t, r2.
Qed.

(** X16.  The shape of a prepared table.  When the pipeline
    (normalize, add possessions, add shooting metrics) succeeds, the
    input had all sixteen required columns; the result has the input's
    columns in their order, followed by POSS, eFG and TS where the input
    did not have them already; it has the same number of rows, and in
    every row each cell other than GAME_DATE, POSS, eFG and TS is the
    input's. *)
Theorem prepare_team_games_for_metrics_shape (df df' : DataFrame) :
  prepare_team_games_for_metrics to_datetime df = Ok df' →
  Forall (λ c, c ∈ columns df) required
  ∧ columns df'
    = with_column "TS" (with_column "eFG" (with_column "POSS" (columns df)))
  ∧ length (rows df') = length (rows df)
  ∧ ∀ i r, rows df !! i = Some r →
      ∃ r', rows df' !! i = Some r'
            ∧ ∀ c, c ∉ ["GAME_DATE"; "POSS"; "eFG"; "TS"]%string →
                   r' !! c = r !! c.
Proof.
  intros Hprep.
  pose proof (prepare_team_games_for_metrics_rows df df' Hprep) as Hrows.
  apply prepare_team_games_for_metrics_Ok in Hprep
    as (d1 & d2 & H1 & H2 & H3).
  apply normalize_team_game_df_Ok in H1 as (Hreq & dates & ts & _ & _ & _ & ->).
  apply add_possessions_Ok in H2 as (_ & Hc2 & _).
  apply add_shooting_metrics_Ok in H3 as (_ & Hc3 & _).
  split; [done|]. split; [by rewrite Hc3, Hc2|].
  split; [symmetry; by eapply Forall2_length|].
  intros i r Hr.
  destruct (Forall2_lookup_l _ _ _ _ _ Hrows Hr)
    as (r' & Hr' & t & r2 & Hp & Hs).
  exists r'. split; [done|]. intros c Hc.
  apply possessions_row_Ok in Hp as (? & ? & ? & ? & _ & _ & _ & _ & ->).
  apply shooting_row_Ok in Hs as (? & ? & ? & ? & ? & _ & _ & _ & _ & _ & ->).
  rewrite !lookup_insert_ne; [done|..]; intros <-; apply Hc;
    repeat (apply elem_of_cons; (by left) || right).
Qed.

(** X17.  The derived values of a prepared table.  In every row the
    pipeline returns, GAME_DATE holds a datetime, and POSS, eFG and TS
    hold floats that are never an infinity: a quotient or a sum that
    overflows is stored as NaN. *)
Theorem prepare_team_games_for_metrics_values (df df' : DataFrame) (r' : Row) :
  prepare_team_games_for_metrics to_datetime df = Ok df' →
  r' ∈ rows df' →
  (∃ t, r' !! "GAME_DATE"%string = Some (CDate t))
  ∧ ∀ c, c ∈ ["POSS"; "eFG"; "TS"]%string →
      ∃ x, r' !! c = Some (CFloat x) ∧ is_infinity x = false.
Proof.
  intros Hprep Hr'.
  pose proof (prepare_team_games_for_metrics_rows df df' Hprep) as Hrows.
  apply list_elem_of_lookup in Hr' as [i Hi].
  destruct (Forall2_lookup_r _ _ _ _ _ Hrows Hi)
    as (r & _ & t & r2 & Hp & Hs).
  apply possessions_row_Ok in Hp as (? & ? & ? & ? & _ & _ & _ & _ & ->).
  apply shooting_row_Ok in Hs as (? & ? & ? & ? & ? & _ & _ & _ & _ & _ & ->).
  split.
  - exists t. do 3 (rewrite lookup_insert_ne by done).
    by rewrite lookup_insert_eq.
  - intros c Hc. set_unfold.
    destruct Hc as [->|[->|[->|[]]]]; eexists.
    + do 2 (rewrite lookup_insert_ne by done). rewrite lookup_insert_eq.
      split; [done|apply is_infinity_replace_inf].
    + rewrite lookup_insert_ne, lookup_insert_eq by done.
      split; [done|apply is_infinity_replace_inf].
    + rewrite lookup_insert_eq.
      split; [done|apply is_infinity_replace_inf].
Qed.
End Pipeline.

Lemma prepare_team_games_for_metrics_shape_witness :
  ∃ df',
    prepare_team_games_for_metrics to_datetime_numeric possessions_example = Ok df'
    ∧ columns df' = required ++ ["POSS"; "eFG"; "TS"]%string.
Proof.
  destruct (prepare_team_games_for_metrics to_datetime_numeric possessions_example)
    as [df'|] eqn:Hprep; [|by vm_compute in Hprep].
  exists df'. split; [done|].
  destruct (prepare_team_games_for_metrics_shape to_datetime_numeric
              possessions_example df' Hprep) as (_ & Hcols & _).
  rewrite Hcols. reflexivity.
Defined.

Lemma prepare_team_games_for_metrics_values_witness :
  ∃ df' r',
    prepare_team_games_for_metrics to_datetime_numeric overflow_example = Ok df'
    ∧ r' ∈ rows df'
    ∧ ∃ x, r' !! "POSS"%string = Some (CFloat x) ∧ is_infinity x = false.
Proof.
  destruct (prepare_team_games_for_metrics to_datetime_numeric overflow_example)
    as [[cols [|r' rs]]|] eqn:Hprep;
    [by vm_compute in Hprep| |by vm_compute in Hprep].
  eexists _, r'. split; [done|].
  assert (r' ∈ rows {| columns := cols; rows := r' :: rs |}) as Hr'
    by (apply elem_of_cons; by left).
  split; [done|].
  apply (prepare_team_games_for_metrics_values to_datetime_numeric
           overflow_example _ r' Hprep Hr').
  apply elem_of_cons. by left.
Defined.

(** ** The canonical table of the ingest script *)

Lemma select_columns_available (cols : list string) (df : DataFrame) :
  Ingest.select_columns (filter (λ c, c ∈ columns df) cols) df
  = Ok {| columns := filter (λ c, c ∈ columns df) cols;
          rows := (λ r : Row,
                     filter (λ kv, kv.1 ∈ filter (λ c, c ∈ columns df) cols) r)
                  <$> rows df |}.
Proof.
  unfold Ingest.select_columns.
  destruct (list_find _ _) as [[i c]|] eqn:Hfind; [|done].
  apply list_find_Some in Hfind as (Hi & Hc & _).
  apply list_elem_of_lookup_2, list_elem_of_filter in Hi as [? _]. done.
Qed.

Lemma required_wanted : Forall (λ c, c ∈ Ingest.wanted) required.
Proof. by apply (bool_decide_unpack _). Qed.

Section CanonicalFacts.
Variable to_datetime : list Cell → option (list Timestamp).

Lemma canonical_columns df c :
  Ingest.canonical to_datetime df = Ok c →
  columns c = filter (λ x, x ∈ columns df) Ingest.wanted.
Proof.
  unfold Ingest.canonical. rewrite select_columns_available. simpl.
  destruct (decide _) as [Hdate|Hdate]; [|by intros [= <-]].
  destruct (column _ _) as [dates|]; simpl; [|done].
  destruct (to_datetime dates) as [ts|]; [|done].
  unfold set_column. destruct (decide _); [|done]. intros [= <-]. simpl.
  by apply with_column_present.
Qed.

(** X18.  The table the ingest script writes has exactly the wanted
    columns that the downloaded table has, in the order of the wanted
    list and not of the download; every other column is dropped.  It has
    the same number of rows, and each kept cell other than GAME_DATE is
    the downloaded one.  A wanted column that is absent raises no error,
    and without a GAME_DATE column nothing is converted. *)
Theorem ingest_canonical_columns (df c : DataFrame) :
  Ingest.canonical to_datetime df = Ok c →
  columns c = filter (λ x, x ∈ columns df) Ingest.wanted
  ∧ length (rows c) = length (rows df)
  ∧ (∀ i r, rows df !! i = Some r →
       ∃ r', rows c !! i = Some r'
             ∧ ∀ x, x ≠ "GAME_DATE"%string →
                 r' !! x = if decide (x ∈ Ingest.wanted ∧ x ∈ columns df)
                           then r !! x else None)
  ∧ ("GAME_DATE"%string ∉ columns df →
       rows c = (λ r : Row, filter (λ kv, kv.1 ∈ columns c) r) <$> rows df).
Proof.
  intros Hc. pose proof (canonical_columns df c Hc) as Hcols.
  split; [done|].
  unfold Ingest.canonical in Hc. rewrite select_columns_available in Hc.
  simpl in Hc. rewrite <- Hcols in Hc.
  set (selected := (λ r : Row, filter (λ kv, kv.1 ∈ columns c) r) <$> rows df)
    in *.
  assert (∀ (r : Row) x,
            filter (λ kv : string * Cell, kv.1 ∈ columns c) r !! x
            = if decide (x ∈ Ingest.wanted ∧ x ∈ columns df)
              then r !! x else None) as Hcell.
  { intros r x. rewrite Hcols.
    destruct (decide (x ∈ Ingest.wanted ∧ x ∈ columns df)) as [[? ?]|Hx].
    - destruct (r !! x) as [v|] eqn:Hv.
      + apply map_lookup_filter_Some. split; [done|].
        simpl. by apply list_elem_of_filter.
      + apply map_lookup_filter_None. by left.
    - apply map_lookup_filter_None. right. intros v _. simpl.
      rewrite list_elem_of_filter. tauto. }
  destruct (decide ("GAME_DATE"%string ∈ columns c)) as [Hdate|Hdate].
  - destruct (column _ _) as [dates|]; simpl in Hc; [|done].
    destruct (to_datetime dates) as [ts|]; [|done].
    unfold set_column in Hc.
    destruct (decide _) as [Hlen|]; [|done]. injection Hc as <-. simpl in *.
    rewrite length_fmap in Hlen. unfold selected in Hlen.
    rewrite length_fmap in Hlen.
    split; [|split].
    + rewrite length_zip_with, length_fmap. unfold selected.
      rewrite length_fmap. lia.
    + intros i r Hr.
      assert (is_Some (ts !! i)) as [t Ht].
      { apply lookup_lt_is_Some. rewrite Hlen. by eapply lookup_lt_Some. }
      exists (<["GAME_DATE" := CDate t]>
                (filter (λ kv : string * Cell, kv.1 ∈ columns c) r)).
      split.
      * apply lookup_zip_with_Some. eexists _, _. split; [reflexivity|].
        unfold selected. rewrite !list_lookup_fmap, Hr, Ht. done.
      * intros x Hx. rewrite lookup_insert_ne by done. apply Hcell.
    + intros Hno. exfalso. apply Hno.
      rewrite Hcols in Hdate.
      by apply list_elem_of_filter in Hdate as [? _].
  - injection Hc as <-. simpl in *. unfold selected.
    rewrite length_fmap. split; [done|]. split; [|done].
    intros i r Hr. eexists. split.
    + rewrite list_lookup_fmap, Hr. done.
    + intros x _. rewrite <- (Hcell r x). done.
Qed.
End CanonicalFacts.

Lemma ingest_canonical_columns_witness :
  ∃ c,
    Ingest.canonical to_datetime_numeric downloaded_table = Ok c
    ∧ columns c = ["GAME_ID"; "PTS"]%string.
Proof.
  destruct (Ingest.canonical to_datetime_numeric downloaded_table)
    as [c|] eqn:Hc; [|by vm_compute in Hc].
  exists c. split; [done|].
  destruct (ingest_canonical_columns to_datetime_numeric downloaded_table c Hc)
    as (Hcols & _).
  rewrite Hcols. by vm_compute.
Defined.

Lemma normalize_team_game_df_missing to_datetime df m :
  normalize_team_game_df to_datetime df
  = Raise (ValueError (MissingRequiredColumns m)) ↔
  m = filter (λ c, c ∉ columns df) required ∧ m ≠ [].
Proof.
  unfold normalize_team_game_df.
  destruct (decide _) as [Hne|Hnil].
  - split; [by intros [= <-]|by intros [-> _]].
  - split; [|intros [-> ?]; done].
    destruct (column _ _) as [dates|] eqn:Hcol; simpl.
    + destruct (to_datetime dates); [|done].
      unfold set_column. by destruct (decide _).
    + apply column_raises in Hcol. by subst.
Qed.

(** X19.  The selection of the ingest script hides no missing
    column from the metric pipeline: every required column is a wanted
    one, so the canonical table lacks exactly the required columns the
    downloaded table lacks, and [normalize_team_game_df] reports the same
    missing columns for both. *)
Theorem ingest_keeps_required_columns
    (to_datetime to_datetime' : list Cell → option (list Timestamp))
    (df c : DataFrame) :
  Ingest.canonical to_datetime df = Ok c →
  filter (λ x, x ∉ columns c) required = filter (λ x, x ∉ columns df) required
  ∧ (Forall (λ x, x ∈ columns df) required →
       Forall (λ x, x ∈ columns c) required)
  ∧ ∀ m, normalize_team_game_df to_datetime' c
         = Raise (ValueError (MissingRequiredColumns m))
         ↔ normalize_team_game_df to_datetime' df
           = Raise (ValueError (MissingRequiredColumns m)).
Proof.
  intros Hcols%canonical_columns.
  assert (∀ x, x ∈ required → x ∈ columns c ↔ x ∈ columns df) as Hreq.
  { intros x Hx. rewrite Hcols, list_elem_of_filter.
    pose proof required_wanted as Hw.
    eapply Forall_forall in Hw; [|exact Hx]. tauto. }
  assert (filter (λ x, x ∉ columns c) required
          = filter (λ x, x ∉ columns df) required) as Hmissing.
  { generalize Hreq. generalize required. intros l Hl.
    induction l as [|x l IH]; [done|].
    rewrite !filter_cons.
    assert (x ∈ columns c ↔ x ∈ columns df) as Hx
      by (apply Hl; apply elem_of_cons; by left).
    rewrite IH by (intros y Hy; apply Hl; apply elem_of_cons; by right).
    destruct (decide (x ∉ columns c)), (decide (x ∉ columns df)); tauto. }
  split; [done|]. split.
  - intros Hall. apply Forall_forall. intros x Hx. apply Hreq; [done|].
    by eapply Forall_forall in Hall.
  - intros m. by rewrite !normalize_team_game_df_missing, Hmissing.
Qed.

Lemma ingest_keeps_required_columns_witness :
  ∃ c,
    Ingest.canonical to_datetime_numeric downloaded_table = Ok c
    ∧ filter (λ x, x ∉ columns c) required
      = filter (λ x, x ∉ columns downloaded_table) required.
Proof.
  destruct (Ingest.canonical to_datetime_numeric downloaded_table)
    as [c|] eqn:Hc; [|by vm_compute in Hc].
  exists c. split; [done|].
  by destruct (ingest_keeps_required_columns to_datetime_numeric
                 to_datetime_numeric downloaded_table c Hc) as (H & _).
Defined.

(** ** Exceptions of the pipeline *)

Lemma map_rows_Raise {A B} (f : A → result B) l e :
  map_rows f l = Raise e → ∃ x, x ∈ l ∧ f x = Raise e.
Proof.
  induction l as [|x l IH]; simpl; [done|].
  destruct (f x) as [y|e'] eqn:Hx; simpl.
  - destruct (map_rows f l) as [ys|e'']; simpl; [done|].
    intros [= <-]. destruct (IH eq_refl) as (x' & ? & ?).
    exists x'. split; [by apply elem_of_cons; right|done].
  - intros [= <-]. exists x. split; [by apply elem_of_cons; left|done].
Qed.

Lemma number_not_KeyError (r : Row) c c' :
  is_Some (r !! c) → number r c ≠ Raise (KeyError c').
Proof.
  intros [v Hv]. unfold number, cell. rewrite Hv. simpl. by destruct v.
Qed.

Lemma with_column_elem_of c x cols :
  x ∈ with_column c cols ↔ x ∈ cols ∨ x = c.
Proof.
  unfold with_column. destruct (decide (c ∈ cols)).
  - split; [by left|]. by intros [?| ->].
  - rewrite elem_of_app, list_elem_of_singleton. done.
Qed.

(** One assignment on a well-formed table: no KeyError when the columns
    it reads exist, and the result is well formed again. *)
Lemma assign_well_formed target uses expr df :
  well_formed df →
  Forall (λ c, c ∈ columns df) uses →
  (∀ r : Row, Forall (λ c, is_Some (r !! c)) uses →
     ∀ c', expr r ≠ Raise (KeyError c')) →
  (∀ c', assign target uses expr df ≠ Raise (KeyError c'))
  ∧ ∀ df', assign target uses expr df = Ok df' →
      well_formed df' ∧ columns df' = with_column target (columns df).
Proof.
  intros Hwf Huses Hexpr. split.
  - intros c'. unfold assign.
    destruct (list_find _ _) as [[i c]|] eqn:Hfind.
    { apply list_find_Some in Hfind as (Hi & Hc & _).
      apply list_elem_of_lookup_2 in Hi.
      by eapply Forall_forall in Huses. }
    destruct (map_rows _ _) as [rows'|e] eqn:Hrows; simpl; [done|].
    intros [= ->]. apply map_rows_Raise in Hrows as (r & Hr & Hraise).
    destruct (expr r) as [v|e] eqn:He; simpl in Hraise; [done|].
    injection Hraise as ->. apply (λ H, Hexpr r H c' He).
    apply Forall_forall. intros c Hc.
    eapply Forall_forall in Hwf; [|exact Hr].
    eapply Forall_forall in Hwf; [exact Hwf|].
    by eapply Forall_forall in Huses.
  - intros df' (_ & Hcols & Hrows%map_rows_Ok)%assign_Ok_rows.
    split; [|done]. unfold well_formed. rewrite Hcols.
    eapply Forall2_Forall_r; [exact Hrows|].
    eapply Forall_impl; [exact Hwf|].
    intros r Hr r' Hr'. destruct (expr r) as [v|]; [|done].
    injection Hr' as <-. apply Forall_forall.
    intros c [Hc| ->]%with_column_elem_of.
    + destruct (decide (c = target)) as [->|Hne].
      * by rewrite lookup_insert_eq.
      * rewrite lookup_insert_ne by done.
        by eapply Forall_forall in Hr.
    + by rewrite lookup_insert_eq.
Qed.

Ltac numbers_not_KeyError :=
  let Hr := fresh "Hr" in
  let c' := fresh "c'" in
  intros ? Hr c';
  repeat match goal with
  | H : Forall _ (_ :: _) |- _ => apply Forall_cons in H as [? H]
  end;
  repeat match goal with
  | |- context [number ?r ?c] =>
      let Hn := fresh "Hn" in
      destruct (number r c) eqn:Hn; simpl;
      [|intros [= ->]; eapply number_not_KeyError; [|exact Hn]; assumption]
  end;
  done.

Lemma add_possessions_well_formed df :
  well_formed df →
  Forall (λ c, c ∈ columns df) ["FGA"; "FTA"; "OREB"; "TOV"]%string →
  (∀ c', add_possessions df ≠ Raise (KeyError c'))
  ∧ ∀ df', add_possessions df = Ok df' →
      well_formed df' ∧ columns df' = with_column "POSS" (columns df).
Proof.
  intros Hwf Hcols. unfold add_possessions.
  match goal with
  | |- context [assign "POSS" ?uses ?expr df] =>
      destruct (assign_well_formed "POSS" uses expr df Hwf Hcols)
        as [Hno1 Hok1]; [numbers_not_KeyError|]
  end.
  destruct (assign _ _ _ df) as [d1|e] eqn:H1; simpl.
  2: { split; [|done]. intros c' [= ->]. by apply (Hno1 c'). }
  destruct (Hok1 d1 eq_refl) as [Hwf1 Hcols1].
  match goal with
  | |- context [assign "POSS" ?uses ?expr d1] =>
      destruct (assign_well_formed "POSS" uses expr d1 Hwf1)
        as [Hno2 Hok2]; [|numbers_not_KeyError|]
  end.
  { repeat constructor. rewrite Hcols1. apply with_column_elem. }
  split; [done|]. intros df' Hdf'.
  destruct (Hok2 df' Hdf') as [? Hcols2]. split; [done|].
  rewrite Hcols2, Hcols1. apply with_column_present, with_column_elem.
Qed.

Lemma add_shooting_metrics_well_formed df :
  well_formed df →
  Forall (λ c, c ∈ columns df) ["FGM"; "FG3M"; "FGA"; "PTS"; "FTA"]%string →
  ∀ c', add_shooting_metrics df ≠ Raise (KeyError c').
Proof.
  intros Hwf Hcols.
  apply Forall_cons in Hcols as [Hfgm Hcols].
  apply Forall_cons in Hcols as [Hfg3m Hcols].
  apply Forall_cons in Hcols as [Hfga Hcols].
  apply Forall_cons in Hcols as [Hpts Hcols].
  apply Forall_cons in Hcols as [Hfta _].
  unfold add_shooting_metrics.
  match goal with
  | |- context [assign "eFG" ?uses ?expr df] =>
      destruct (assign_well_formed "eFG" uses expr df Hwf)
        as [Hno1 Hok1]; [by repeat constructor|numbers_not_KeyError|]
  end.
  destruct (assign _ _ _ df) as [d1|e] eqn:H1; simpl.
  2: { intros c' [= ->]. by apply (Hno1 c'). }
  destruct (Hok1 d1 eq_refl) as [Hwf1 Hcols1].
  match goal with
  | |- context [assign "TS" ?uses ?expr d1] =>
      destruct (assign_well_formed "TS" uses expr d1 Hwf1)
        as [Hno2 Hok2]; [|numbers_not_KeyError|]
  end.
  { rewrite Hcols1. repeat constructor; by apply with_column_mono. }
  destruct (assign _ _ _ d1) as [d2|e] eqn:H2; simpl.
  2: { intros c' [= ->]. by apply (Hno2 c'). }
  destruct (Hok2 d2 eq_refl) as [Hwf2 Hcols2].
  match goal with
  | |- context [assign "eFG" ?uses ?expr d2] =>
      destruct (assign_well_formed "eFG" uses expr d2 Hwf2)
        as [Hno3 Hok3]; [|numbers_not_KeyError|]
  end.
  { rewrite Hcols2, Hcols1. repeat constructor.
    apply with_column_mono, with_column_elem. }
  destruct (assign _ _ _ d2) as [d3|e] eqn:H3; simpl.
  2: { intros c' [= ->]. by apply (Hno3 c'). }
  destruct (Hok3 d3 eq_refl) as [Hwf3 Hcols3].
  match goal with
  | |- context [assign "TS" ?uses ?expr d3] =>
      destruct (assign_well_formed "TS" uses expr d3 Hwf3)
        as [Hno4 _]; [|numbers_not_KeyError|]
  end.
  { rewrite Hcols3, Hcols2. repeat constructor.
    apply with_column_mono, with_column_elem. }
  done.
Qed.

Lemma column_well_formed c df :
  well_formed df → c ∈ columns df → ∃ cells, column c df = Ok cells.
Proof.
  intros Hwf Hc. unfold column. rewrite decide_True by done.
  apply map_rows_total. eapply Forall_impl; [exact Hwf|].
  intros r Hr. eapply Forall_forall in Hr as [v Hv]; [|exact Hc].
  exists v. unfold cell. by rewrite Hv.
Qed.

Section PipelineExceptions.
Variable to_datetime : list Cell → option (list Timestamp).

Lemma normalize_team_game_df_well_formed df :
  well_formed df →
  (∀ c', normalize_team_game_df to_datetime df ≠ Raise (KeyError c'))
  ∧ ∀ df', normalize_team_game_df to_datetime df = Ok df' →
      well_formed df' ∧ Forall (λ c, c ∈ columns df') required.
Proof.
  intros Hwf. split.
  - intros c'. unfold normalize_team_game_df.
    destruct (decide _) as [?|Hnone]; [done|].
    apply dec_stable, missing_nil in Hnone.
    destruct (column_well_formed "GAME_DATE" df Hwf) as [dates ->].
    { eapply Forall_forall in Hnone; [exact Hnone|].
      by apply (bool_decide_unpack _). }
    simpl. destruct (to_datetime dates); [|done].
    unfold set_column. by destruct (decide _).
  - intros df' (Hreq & dates & ts & _ & _ & Hlen & ->)%normalize_team_game_df_Ok.
    split; [|done]. unfold well_formed. simpl.
    apply Forall_forall. intros r' Hr'.
    apply list_elem_of_lookup in Hr' as [i Hi].
    apply lookup_zip_with_Some in Hi as (r & v & -> & Hr & _).
    apply list_elem_of_lookup_2 in Hr.
    eapply Forall_forall in Hwf; [|exact Hr].
    eapply Forall_impl; [exact Hwf|]. intros c Hc. simpl in Hc.
    destruct (decide (c = "GAME_DATE"%string)) as [->|Hne].
    + by rewrite lookup_insert_eq.
    + by rewrite lookup_insert_ne.
Qed.

(** X20.  The required-columns check covers every column the
    pipeline reads afterwards: on a well-formed table (every row has a
    cell for every column) [prepare_team_games_for_metrics] never fails
    with a KeyError; a missing column is always reported by the
    missing-columns error of the first step. *)
Theorem prepare_team_games_for_metrics_no_KeyError (df : DataFrame) (c : string) :
  well_formed df →
  prepare_team_games_for_metrics to_datetime df ≠ Raise (KeyError c).
Proof.
  intros Hwf. unfold prepare_team_games_for_metrics.
  destruct (normalize_team_game_df_well_formed df Hwf) as [Hno1 Hok1].
  destruct (normalize_team_game_df to_datetime df) as [d1|e] eqn:H1; simpl.
  2: { intros [= ->]. by apply (Hno1 c). }
  destruct (Hok1 d1 eq_refl) as [Hwf1 Hreq1].
  assert (∀ x, x ∈ required → x ∈ columns d1) as Hin
    by (intros x Hx; by eapply Forall_forall in Hreq1).
  destruct (add_possessions_well_formed d1 Hwf1) as [Hno2 Hok2].
  { repeat constructor; apply Hin; by apply (bool_decide_unpack _). }
  destruct (add_possessions d1) as [d2|e] eqn:H2; simpl.
  2: { intros [= ->]. by apply (Hno2 c). }
  destruct (Hok2 d2 eq_refl) as [Hwf2 Hcols2].
  apply add_shooting_metrics_well_formed; [done|].
  rewrite Hcols2.
  repeat constructor; apply with_column_mono, Hin;
    by apply (bool_decide_unpack _).
Qed.
End PipelineExceptions.

Lemma prepare_team_games_for_metrics_no_KeyError_witness :
  prepare_team_games_for_metrics to_datetime_numeric incomplete_table
  ≠ Raise (KeyError "OREB").
Proof.
  apply prepare_team_games_for_metrics_no_KeyError.
  unfold well_formed. simpl. constructor.
Defined.
